(** * Group-sparse covariance: a shallow embedding of
      [nilearn/group_sparse_covariance.py]

    The Python module estimates, for K tasks at once, sparse precision
    matrices that share one sparsity pattern (Honorio & Samaras).  This
    file embeds its functions and proves properties of them.

    Modelling conventions.
    - numpy's float64 arithmetic is idealised to the real numbers [R];
      division is the total division of [R] (where numpy would produce
      inf or nan with a warning, [R] gives [x / 0 = 0]).
    - an n-dimensional numpy array is its index function; its shape is
      passed alongside, because every shape in this module is determined
      by the number of variables [n_var] and of tasks [n_tasks].  Cells
      outside the shape are never read.
    - an in-place update returns the updated array.
    - exceptions are the left summand of [exn + A]; warnings and printed
      lines are appended to a log carried by the solver state (an
      exception carries no state: what was logged before it is not
      tracked).
    - [dtype] is dropped (every array holds reals); [verbose] and
      [debug] are kept: printed lines go to the log, a failed debug
      assertion is an [AssertionError].
    - library routines that are not part of the module
      ([sklearn.covariance.empirical_covariance], [numpy.linalg.inv],
      [scipy.optimize.newton], [sklearn.utils.extmath.fast_logdet],
      [numpy.testing.assert_almost_equal]) and the sibling helper
      [.testing.is_spd] are parameters of the development.
      [numpy.linalg.inv] and [scipy.optimize.newton] return a value or
      raise: numpy a [LinAlgError] on a singular matrix, scipy a
      [RuntimeError] when its iterations run out.  They answer an
      [option]; [None] is the exception, which the module does not catch.
      The other routines are functions that return a value. *)

From Stdlib Require Import Reals Lra Lia List Arith Bool String ZArith.
From Stdlib Require Import Ranalysis5.
Import ListNotations.

Open Scope R_scope.

(** ** numpy arrays *)

Definition vec := nat -> R.
Definition mat := nat -> nat -> R.
(** [A i j k] is [A[i, j, k]]; the last axis is the task. *)
Definition stack := nat -> nat -> nat -> R.
(** [y k i] is [y[k, i]]: one row per task. *)
Definition rows := nat -> nat -> R.

(** [rsum n f] is [f 0 + ... + f (n-1)]: [.sum()] over an axis of length [n]. *)
Fixpoint rsum (n : nat) (f : nat -> R) : R :=
  match n with
  | O => 0
  | S n' => rsum n' f + f n'
  end.

(** [np.dot] on two vectors of length [n]. *)
Definition dot (n : nat) (a b : vec) : R := rsum n (fun i => a i * b i).

(** [np.dot(a, M)]: vector times matrix. *)
Definition dot_vm (n : nat) (a : vec) (M : mat) : vec :=
  fun j => rsum n (fun i => a i * M i j).

(** [np.dot(M, b)]: matrix times vector. *)
Definition dot_mv (n : nat) (M : mat) (b : vec) : vec :=
  fun i => rsum n (fun j => M i j * b j).

(** [np.dot(A, B)]: matrix times matrix. *)
Definition dot_mm (n : nat) (A B : mat) : mat :=
  fun i j => rsum n (fun k => A i k * B k j).

(** [np.outer(a, b)]. *)
Definition outer (a b : vec) : mat := fun i j => a i * b j.

(** [M.T]. *)
Definition transpose (M : mat) : mat := fun i j => M j i.

(** [np.eye(n)]. *)
Definition eye : mat := fun i j => if Nat.eqb i j then 1 else 0.

(** [A[..., k]]. *)
Definition task (A : stack) (k : nat) : mat := fun i j => A i j k.

(** [A[..., k] = M]. *)
Definition set_task (A : stack) (k : nat) (M : mat) : stack :=
  fun i j k' => if Nat.eqb k' k then M i j else A i j k'.

(** [v.max()] over the first [S n] cells. *)
Fixpoint vmax (n : nat) (v : vec) : R :=
  match n with
  | O => v O
  | S n' => Rmax (vmax n' v) (v n)
  end.

(** A two-dimensional input array with its shape. *)
Record ndarray2 : Type := mk_ndarray2 {
  shape0 : nat;
  shape1 : nat;
  data : mat
}.

(** ** Python values, exceptions and effects *)

(** What the caller may pass as [rho]. *)
Inductive pyobject : Type :=
| PyInt (z : Z)
| PyFloat (x : R)
| PyBool (b : bool)
| PyOther.

(** What the caller may pass as [signals]: an object without [__iter__],
    or a list of 2-D arrays. *)
Inductive pysignals : Type :=
| NotIterable
| Iterable (l : list ndarray2).

(** The exceptions of the module ([ValueError], [IndexError] and a failed
    [assert]) and those of the two library routines that can fail (their
    messages are left out: scipy's prints the last iterate). *)
Inductive exn : Type :=
| ValueError (msg : string)
| IndexError (msg : string)
| AssertionError
| RuntimeError                      (* scipy.optimize.newton *)
| LinAlgError.                      (* np.linalg.inv *)

Inductive event : Type :=
| Warn (msg : string)
| PrintIteration (n : nat)
| PrintCoordinateDescent (p : nat)
| PrintCost (cost : R).

Definition ret {A : Type} (a : A) : exn + A := inr a.
Definition raise {A : Type} (e : exn) : exn + A := inl e.
Definition bind {A B : Type} (m : exn + A) (f : A -> exn + B) : exn + B :=
  match m with
  | inl e => inl e
  | inr a => f a
  end.

Notation "x <- m ;; k" := (bind m (fun x => k))
  (at level 61, m at next level, right associativity).
Notation "m ;;; k" := (bind m (fun _ => k))
  (at level 61, right associativity).

(** A call of a library routine that returns a value or raises [e]. *)
Definition or_raise {A : Type} (e : exn) (r : option A) : exn + A :=
  match r with
  | Some a => ret a
  | None => raise e
  end.

(** [assert cond]. *)
Definition assert (cond : bool) : exn + unit :=
  if cond then ret tt else raise AssertionError.

(** [for i in xrange(n): s = body(i, s)], stopping at the first exception. *)
Fixpoint for_range {S : Type} (n : nat) (body : nat -> S -> exn + S) (s : S)
  : exn + S :=
  match n with
  | O => ret s
  | Datatypes.S n' => s' <- for_range n' body s ;; body n' s'
  end.

(** [all(cond(i) for i in range(n))]. *)
Fixpoint all_range (n : nat) (cond : nat -> bool) : bool :=
  match n with
  | O => true
  | Datatypes.S n' => all_range n' cond && cond n'
  end.

(** [np.ndarray(shape=dims)]: numpy refuses a negative dimension.  The
    cells of the new array are uninitialised. *)
Definition np_ndarray (dims : list Z) : exn + unit :=
  if forallb (fun d => (0 <=? d)%Z) dims then ret tt
  else raise (ValueError "negative dimensions are not allowed").

(** ** The module's functions *)

(** [symmetrize(M)]. *)
Definition symmetrize (M : mat) : mat :=
  let M : mat := fun i j => M i j + transpose M i j in  (* M[...] = M + M.T *)
  fun i j => M i j / 2.                                 (* M[...] /= 2. *)

(** [quad_trust_region(alpha, q, two_ccq, cc, rho2)], on arrays of
    length [K]. *)
Definition quad_trust_region (K : nat) (alpha : R) (q two_ccq cc : vec)
  (rho2 : R) : R :=
  rho2 - rsum K (fun k => cc k / ((1 + alpha * q k) ^ 2)).

(** [quad_trust_region_deriv(alpha, q, two_ccq, cc, rho2)]. *)
Definition quad_trust_region_deriv (K : nat) (alpha : R) (q two_ccq cc : vec)
  (rho2 : R) : R :=
  rsum K (fun k => two_ccq k / (1 + alpha * q k) ^ 3).

(** [update_vectors(full, n)]. *)
Definition update_vectors (full : mat) (n : nat) : vec * vec :=
  let v : vec := fun i =>
    if i <? n + 1 then full i n          (* v[:n + 1] = full[:n + 1, n] *)
    else full (i + 1)%nat n in           (* v[n + 1:] = full[n + 2:, n] *)
  let h : vec := fun j =>
    if j <? n + 1 then full n j          (* h[:n + 1] = full[n, :n + 1] *)
    else full n (j + 1)%nat in           (* h[n + 1:] = full[n, n + 2:] *)
  (h, v).

(** [update_submatrix(full, sub, sub_inv, p)]: [sub] and [sub_inv] are
    [N] x [N] and are updated in place; the pair of their new values is
    returned.  The solver calls it with [1 <= p] only. *)
Definition update_submatrix (N : nat) (full sub sub_inv : mat) (p : nat)
  : mat * mat :=
  let n := (p - 1)%nat in
  let '(h, v) := update_vectors full n in
  (* change row *)
  let coln : vec := fun i => sub_inv i n in
  let V : vec := fun j => h j - sub n j in
  let coln : vec := fun i => coln i / (1 + dot N V coln) in
  let sub_inv : mat :=
    fun i j => sub_inv i j - outer coln (dot_vm N V sub_inv) i j in
  let sub : mat := fun i j => if Nat.eqb i n then h j else sub i j in
  (* change column *)
  let rown : vec := fun j => sub_inv n j in
  let U : vec := fun i => v i - sub i n in
  let rown : vec := fun j => rown j / (1 + dot N rown U) in
  let sub_inv : mat :=
    fun i j => sub_inv i j - outer (dot_mv N sub_inv U) rown i j in
  let sub : mat := fun i j => if Nat.eqb j n then v i else sub i j in
  (sub, sub_inv).

(** The state of one call of [group_sparse_covariance]: the arrays that
    live across the optimisation loop, the cost trace and the log of
    warnings and printed lines. *)
Record state : Type := mk_state {
  emp_covs : stack;
  omega : stack;
  W : stack;
  Winv : stack;
  y : rows;
  u : rows;
  costs : list R;
  log : list event
}.

Definition set_omega (st : state) (a : stack) : state :=
  mk_state (emp_covs st) a (W st) (Winv st) (y st) (u st) (costs st) (log st).
Definition set_W (st : state) (a : stack) : state :=
  mk_state (emp_covs st) (omega st) a (Winv st) (y st) (u st) (costs st) (log st).
Definition set_Winv (st : state) (a : stack) : state :=
  mk_state (emp_covs st) (omega st) (W st) a (y st) (u st) (costs st) (log st).
Definition set_y (st : state) (a : rows) : state :=
  mk_state (emp_covs st) (omega st) (W st) (Winv st) a (u st) (costs st) (log st).
Definition set_u (st : state) (a : rows) : state :=
  mk_state (emp_covs st) (omega st) (W st) (Winv st) (y st) a (costs st) (log st).
Definition add_cost (st : state) (c : R) : state :=
  mk_state (emp_covs st) (omega st) (W st) (Winv st) (y st) (u st)
           (costs st ++ [c]) (log st).
Definition emit (st : state) (evs : list event) : state :=
  mk_state (emp_covs st) (omega st) (W st) (Winv st) (y st) (u st)
           (costs st) (log st ++ evs).

(** What [group_sparse_covariance] returns: [(emp_covs, omega)], with
    [np.asarray(costs)] as a third component iff [return_costs]; and what
    it has printed and warned. *)
Record output : Type := mk_output {
  out_emp_covs : stack;
  out_omega : stack;
  out_costs : option (list R);
  out_log : list event
}.

(** The number denoted by an object that passes
    [isinstance(rho, (int, float))]; [bool] is a subclass of [int]. *)
Definition number_of (o : pyobject) : option R :=
  match o with
  | PyInt z => Some (IZR z)
  | PyFloat x => Some x
  | PyBool b => Some (if b then 1 else 0)
  | PyOther => None
  end.

Section Collaborators.

(** [sklearn.covariance.empirical_covariance(s, assume_centered=...)]. *)
Variable empirical_covariance : ndarray2 -> bool -> mat.
(** [np.linalg.inv] of an [n] x [n] matrix: the inverse, or [None] when
    it raises [LinAlgError]. *)
Variable inv : nat -> mat -> option mat.
(** [scipy.optimize.newton(func, x0, fprime=..., args=..., maxiter=...)],
    with [args] already supplied to [func] and [fprime]: the value it
    returns, or [None] when it raises [RuntimeError]. *)
Variable newton : (R -> R) -> R -> (R -> R) -> nat -> option R.
(** [sklearn.utils.extmath.fast_logdet] of an [n] x [n] matrix. *)
Variable fast_logdet : nat -> mat -> R.
(** [.testing.is_spd(M, decimal=...)] on an [n] x [n] matrix. *)
Variable is_spd : nat -> mat -> option nat -> bool.
(** The cell test of [np.testing.assert_almost_equal(actual, desired,
    decimal)]. *)
Variable almost_equal : nat -> R -> R -> bool.

(** [np.testing.assert_almost_equal] on two [r] x [c] arrays. *)
Definition assert_almost_equal (decimal r c : nat) (actual desired : mat)
  : exn + unit :=
  assert (all_range r (fun i => all_range c (fun j =>
            almost_equal decimal (actual i j) (desired i j)))).

(** [assert_submatrix(full, sub, n)], [sub] being [N] x [N]. *)
Definition assert_submatrix (N : nat) (full sub : mat) (n : nat)
  : exn + unit :=
  let true_sub : mat := fun i j =>
    if (i <? n) && (j <? n) then full i j              (* [:n, :n] *)
    else if (n <=? i) && (n <=? j)
         then full (i + 1)%nat (j + 1)%nat             (* [n:, n:] *)
    else if (i <? n) && (n <=? j)
         then full i (j + 1)%nat                       (* [:n, n:] *)
    else full (i + 1)%nat j in                         (* [n:, :n] *)
  assert_almost_equal 7 N N true_sub sub.

(** [_group_sparse_covariance_cost(n_tasks, n_samples, rho, omega,
    emp_covs, display)]: the cost and the line it prints. *)
Definition _group_sparse_covariance_cost (n_var n_tasks : nat)
  (n_samples : vec) (rho : R) (omega emp_covs : stack) (display : bool)
  : R * list event :=
  let ll := rsum n_tasks (fun k =>
    let t := fast_logdet n_var (task omega k) in
    let t := t - rsum n_var (fun i => rsum n_var (fun j =>
                   omega i j k * emp_covs i j k)) in
    n_samples k * t) in
  (* L(1,2)-norm *)
  let l2 : mat := fun i j => sqrt (rsum n_tasks (fun k => omega i j k ^ 2)) in
  (* Do not count diagonal terms *)
  let l12 := rsum n_var (fun i => rsum n_var (fun j => l2 i j))
             - rsum n_var (fun i => l2 i i) in
  let cost := - (ll - rho * l12) in
  (cost, if display then [PrintCost cost] else []).

Section Loop.

(** The locals of [group_sparse_covariance] that the optimisation loop
    only reads. *)
Variables (n_var n_tasks : nat) (n_samples : vec) (rho : R).
Variables (verbose : Z) (return_costs debug : bool).

(** Branch [p == 0]: direct deletion of row and column 0, direct
    inversion. *)
Definition initial_submatrix (st : state) : exn + state :=
  let W : stack :=
    fun i j k => omega st (i + 1)%nat (j + 1)%nat k in  (* omega[1:, 1:, :] *)
  let Winv : stack := fun _ _ _ => 0 in
  Winv <- for_range n_tasks (fun k Winv =>
      Wk_inv <- or_raise LinAlgError (inv (n_var - 1) (task W k)) ;;
      let Winv := set_task Winv k Wk_inv in
      (if debug then
         assert_almost_equal 12 (n_var - 1) (n_var - 1)
           (dot_mm (n_var - 1) (task Winv k) (task W k)) eye ;;;
         assert_submatrix (n_var - 1) (task (omega st) k) (task W k) 0
       else ret tt) ;;;
      ret Winv) Winv ;;
  ret (set_Winv (set_W st W) Winv).

(** Branch [p != 0]: Sherman-Morrison-Woodbury update of [W] and [Winv]. *)
Definition advance_submatrix (p : nat) (st : state) : exn + state :=
  let omega_orig := omega st in
  WW <- for_range n_tasks (fun k (WW : stack * stack) =>
      let '(W, Winv) := WW in
      let '(Wk, Winvk) :=
        update_submatrix (n_var - 1) (task (omega st) k)
                         (task W k) (task Winv k) p in
      let W := set_task W k Wk in
      let Winv := set_task Winv k Winvk in
      (if debug then
         assert_submatrix (n_var - 1) (task (omega st) k) (task W k) p ;;;
         assert_almost_equal 12 (n_var - 1) (n_var - 1)
           (dot_mm (n_var - 1) (task Winv k) (task W k)) eye ;;;
         assert (is_spd (n_var - 1) (task W k) None) ;;;
         assert (is_spd (n_var - 1) (task Winv k) (Some 14%nat))
       else ret tt) ;;;
      ret (W, Winv)) (W st, Winv st) ;;
  (if debug then
     assert (all_range n_tasks (fun k =>
       all_range n_var (fun i => all_range n_var (fun j =>
         almost_equal 7 (omega_orig i j k) (omega st i j k)))))
   else ret tt) ;;;
  ret (set_Winv (set_W st (fst WW)) (snd WW)).

(** The per-task value [c[k]] at pivot [p], coordinate [m] (lines
    299-306). *)
Definition coordinate_c (p m : nat) (st : state) : vec :=
  let h_12 : rows := fun k i =>
    if i <? m then Winv st i m k               (* Winv[:m, m, :].T *)
    else Winv st (i + 1)%nat m k in            (* Winv[m + 1:, m, :].T *)
  let y_1 : rows := fun k i =>
    if i <? m then y st k i                    (* y[:, :m] *)
    else y st k (i + 1)%nat in                 (* y[:, m + 1:] *)
  fun k => - n_samples k * (
      emp_covs st p p k
      * rsum (n_var - 2) (fun i => h_12 k i * y_1 k i)
      + u st k m).

(** The group norm [c2] at pivot [p], coordinate [m] (line 307). *)
Definition coordinate_c2 (p m : nat) (st : state) : R :=
  let c := coordinate_c p m st in
  sqrt (dot n_tasks c c).

(** One turn of the loop [for m in xrange(n_var - 1)]: coordinate
    descent on [y[:, m]]. *)
Definition coordinate_step (p m : nat) (st : state) : exn + state :=
  let c := coordinate_c p m st in
  let c2 := coordinate_c2 p m st in
  if Rle_dec c2 rho then
    ret (set_y st (fun k i => if Nat.eqb i m then 0 else y st k i))
  else
    let q : vec := fun k => n_samples k * emp_covs st p p k * Winv st m m k in
    (if debug then
       assert (all_range n_tasks (fun k => if Rlt_dec 0 (q k) then true else false))
     else ret tt) ;;;
    let cc : vec := fun k => c k * c k in
    let two_ccq : vec := fun k => 2 * cc k * q k in
    alpha <- or_raise RuntimeError
      (newton (fun a => quad_trust_region n_tasks a q two_ccq cc (rho ^ 2)) 0
              (fun a => quad_trust_region_deriv n_tasks a q two_ccq cc
                          (rho ^ 2))
              50) ;;
    let remainder := quad_trust_region n_tasks alpha q two_ccq cc (rho ^ 2) in
    let st :=
      if Rlt_dec (1 / 10) (Rabs remainder)
      then emit st [Warn "Newton-Raphson step did not converge."]
      else st in
    (if debug then assert (if Rle_dec 0 alpha then true else false)
     else ret tt) ;;;
    ret (set_y st (fun k i =>
      if Nat.eqb i m then (alpha * c k) / (1 + alpha * q k) else y st k i)).

(** Lines 343-346: copy [y] back into column [p] and row [p] of [omega]. *)
Definition copy_back (p : nat) (y : rows) (omega : stack) : stack :=
  let omega : stack := fun i j k =>            (* omega[:p, p, :] *)
    if Nat.eqb j p && (i <? p) then y k i else omega i j k in
  let omega : stack := fun i j k =>            (* omega[p + 1:, p, :] *)
    if Nat.eqb j p && (p <? i) then y k (i - 1)%nat else omega i j k in
  let omega : stack := fun i j k =>            (* omega[p, :p, :] *)
    if Nat.eqb i p && (j <? p) then y k j else omega i j k in
  let omega : stack := fun i j k =>            (* omega[p, p + 1:, :] *)
    if Nat.eqb i p && (p <? j) then y k (j - 1)%nat else omega i j k in
  omega.

(** Line 349: the new diagonal entry of task [k]. *)
Definition pivot_diagonal (p k : nat) (st : state) : R :=
  1 / emp_covs st p p k
  + dot (n_var - 1) (dot_vm (n_var - 1) (y st k) (task (Winv st) k)) (y st k).

(** Lines 249-288 of the body of [for p in xrange(n_var)]: bring [W] and
    [Winv] to pivot [p], extract [y] and [u]. *)
Definition pivot_enter (p : nat) (st : state) : exn + state :=
  st <- (if Nat.eqb p 0 then initial_submatrix st
         else advance_submatrix p st) ;;
  (* Extract y and u *)
  let st := set_y st (fun k i =>
    if i <? p then omega st i p k else omega st (i + 1)%nat p k) in
  let st := set_u st (fun k i =>
    if i <? p then emp_covs st i p k else emp_covs st (i + 1)%nat p k) in
  ret (if (2 <=? verbose)%Z then emit st [PrintCoordinateDescent p] else st).

(** Lines 342-359: write [y] back, set the diagonal, record the cost. *)
Definition pivot_leave (p : nat) (st : state) : exn + state :=
  (* Copy back y in omega (column and row) *)
  let st := set_omega st (copy_back p (y st) (omega st)) in
  st <- for_range n_tasks (fun k st =>
      let st := set_omega st (fun i j k' =>
        if Nat.eqb i p && Nat.eqb j p && Nat.eqb k' k
        then pivot_diagonal p k st else omega st i j k') in
      (if debug then assert (is_spd n_var (task (omega st) k) None)
       else ret tt) ;;;
      ret st) st ;;
  if return_costs then
    let '(cost, printed) :=
      _group_sparse_covariance_cost n_var n_tasks n_samples rho
        (omega st) (emp_covs st) (1 <=? verbose)%Z in
    ret (add_cost (emit st printed) cost)
  else ret st.

(** The body of the loop [for p in xrange(n_var)]. *)
Definition pivot_update (p : nat) (st : state) : exn + state :=
  st <- pivot_enter p st ;;
  st <- for_range (n_var - 1) (coordinate_step p) st ;;
  pivot_leave p st.

(** The body of the loop [for n in xrange(n_iter)]: one sweep. *)
Definition sweep (n : nat) (st : state) : exn + state :=
  let st := if (1 <=? verbose)%Z then emit st [PrintIteration n] else st in
  for_range n_var pivot_update st.

(** The optimisation loop. *)
Definition optimization_loop (n_iter : nat) (st : state) : exn + state :=
  for_range n_iter sweep st.

(** The state after [s] complete sweeps and the first [q] pivot updates
    of the next sweep. *)
Definition state_after (s q : nat) (st : state) : exn + state :=
  st <- optimization_loop s st ;;
  for_range q pivot_update
    (if (1 <=? verbose)%Z then emit st [PrintIteration s] else st).

(** The driver as a state machine over the pairs (sweep, pivot), taken
    in the order of a given schedule; a sweep is announced at its pivot 0. *)
Fixpoint run_schedule (schedule : list (nat * nat)) (st : state)
  : exn + state :=
  match schedule with
  | [] => ret st
  | (n, p) :: schedule' =>
      let st := if Nat.eqb p 0 && (1 <=? verbose)%Z
                then emit st [PrintIteration n] else st in
      st <- pivot_update p st ;;
      run_schedule schedule' st
  end.

End Loop.

(** The pairs (sweep, pivot) with [sweep < n_iter] and [pivot < n_var],
    sweep by sweep. *)
Definition pivot_schedule (n_iter n_var : nat) : list (nat * nat) :=
  flat_map (fun n => map (pair n) (seq 0 n_var)) (seq 0 n_iter).

(** Lines 211-217: the empirical covariance of every task, symmetrized. *)
Definition build_emp_covs (l : list ndarray2) (n_var : nat)
  (assume_centered debug : bool) : exn + stack :=
  let emp_covs : stack := fun _ _ _ => 0 in    (* np.empty *)
  for_range (List.length l) (fun k emp_covs =>
      let s := nth k l (mk_ndarray2 0 0 (fun _ _ => 0)) in
      let emp_covs :=
        set_task emp_covs k (empirical_covariance s assume_centered) in
      let emp_covs := set_task emp_covs k (symmetrize (task emp_covs k)) in
      (if debug then assert (is_spd n_var (task emp_covs k) None)
       else ret tt) ;;;
      ret emp_covs) emp_covs.

(** Lines 220-224: [omega[..., k] = np.diag(1. / np.diag(emp_covs[..., k]))]. *)
Definition initial_omega (emp_covs : stack) : stack :=
  fun i j k => if Nat.eqb i j then 1 / emp_covs i i k else 0.

(** Lines 226-236: the preallocated work arrays. *)
Definition preallocate (n_var n_tasks : nat) : exn + unit :=
  let K := Z.of_nat n_tasks in
  let n := Z.of_nat n_var in
  np_ndarray [K; n - 1]%Z ;;;            (* y *)
  np_ndarray [K; n - 1]%Z ;;;            (* u *)
  np_ndarray [K; n - 2]%Z ;;;            (* y_1 *)
  np_ndarray [K; n - 2]%Z ;;;            (* h_12 *)
  np_ndarray [K] ;;;                     (* q *)
  np_ndarray [K] ;;;                     (* c *)
  np_ndarray [n - 1; n - 1; K]%Z ;;;     (* W *)
  np_ndarray [n - 1; n - 1; K]%Z.        (* Winv *)

(** Lines 208-209: the sample counts, divided by the largest. *)
Definition sample_weights (signals : list ndarray2) : vec :=
  let n_samples : vec :=
    fun k => INR (shape0 (nth k signals (mk_ndarray2 0 0 (fun _ _ => 0)))) in
  let n_samples_max := vmax (List.length signals - 1) n_samples in
  fun k => n_samples k / n_samples_max.        (* n_samples /= n_samples.max() *)

(** The arrays on entry to the optimisation loop; the work arrays are
    uninitialised and [costs] is empty. *)
Definition initial_state (emp_covs0 : stack) : state :=
  mk_state emp_covs0 (initial_omega emp_covs0)
           (fun _ _ _ => 0) (fun _ _ _ => 0) (fun _ _ => 0) (fun _ _ => 0)
           [] [].

(** [group_sparse_covariance(signals, rho, n_iter, assume_centered,
    verbose, dtype, return_costs, debug)].  [dtype] has no counterpart:
    every array holds reals. *)
Definition group_sparse_covariance (signals : pysignals) (rho : pyobject)
  (n_iter : nat) (assume_centered : bool) (verbose : Z)
  (return_costs debug : bool) : exn + output :=
  rho <- match number_of rho with
         | None =>
             raise (ValueError
               "Regularization parameter rho must be a positive number.")
         | Some r =>
             if Rlt_dec r 0
             then raise (ValueError
               "Regularization parameter rho must be a positive number.")
             else ret r
         end ;;
  signals <- match signals with
             | NotIterable =>
                 raise (ValueError
                   "'signals' input argument must be an iterable.")
             | Iterable l => ret l
             end ;;
  let n_tasks := map shape1 signals in
  (if (1 <? List.length (nodup Nat.eq_dec n_tasks))%nat
   then raise (ValueError "All tasks must have the same number of features.")
   else ret tt) ;;;
  let n_tasks := List.length signals in
  n_var <- match signals with
           | [] => raise (IndexError "list index out of range")
           | s :: _ => ret (shape1 s)
           end ;;
  let n_samples := sample_weights signals in
  emp_covs0 <- build_emp_covs signals n_var assume_centered debug ;;
  preallocate n_var n_tasks ;;;
  let st := initial_state emp_covs0 in
  st <- optimization_loop n_var n_tasks n_samples rho verbose return_costs
          debug n_iter st ;;
  if return_costs
  then ret (mk_output (emp_covs st) (omega st) (Some (costs st)) (log st))
  else ret (mk_output (emp_covs st) (omega st) None (log st)).

End Collaborators.

(** ** Vocabulary of the properties *)

(** The index in the full matrix of index [i] of the submatrix that
    leaves out row and column [p]. *)
Definition skip (p i : nat) : nat := if i <? p then i else (i + 1)%nat.

(** Direct deletion of row and column [p]. *)
Definition delete_row_col (p : nat) (full : mat) : mat :=
  fun i j => full (skip p i) (skip p j).

(** Equality of two arrays on an [r] x [c] shape. *)
Definition mat_eq (r c : nat) (A B : mat) : Prop :=
  forall i j, (i < r)%nat -> (j < c)%nat -> A i j = B i j.

(** [B] is the exact inverse of the [N] x [N] matrix [A]. *)
Definition is_inverse (N : nat) (A B : mat) : Prop :=
  mat_eq N N (dot_mm N A B) eye /\ mat_eq N N (dot_mm N B A) eye.

Definition invertible (N : nat) (A : mat) : Prop :=
  exists B, is_inverse N A B.

(** The submatrix half-way through [update_submatrix]: row [p - 1]
    already replaced, column [p - 1] not yet. *)
Definition row_replaced (p : nat) (full : mat) : mat :=
  fun i j => if Nat.eqb i (p - 1) then full (p - 1)%nat (skip p j)
             else delete_row_col (p - 1) full i j.

(** Initialize, then advance the pivot through 1, ..., [p]: the
    submatrix and inverse maintained for a fixed [full], starting from
    the direct inverse [Winv0] of [full[1:, 1:]]. *)
Fixpoint advance_through (N : nat) (full Winv0 : mat) (p : nat) : mat * mat :=
  match p with
  | O => (fun i j => full (i + 1)%nat (j + 1)%nat, Winv0)
  | S p' =>
      let '(sub, sub_inv) := advance_through N full Winv0 p' in
      update_submatrix N full sub sub_inv (S p')
  end.

(** An [n] x [n] matrix equal to its transpose. *)
Definition symmetric (n : nat) (M : mat) : Prop :=
  forall i j, (i < n)%nat -> (j < n)%nat -> M i j = M j i.

(** The three checks of lines 192-204. *)
Definition rho_accepted (rho : pyobject) : Prop :=
  exists r, number_of rho = Some r /\ 0 <= r.

Definition same_features (l : list ndarray2) : Prop :=
  forall s1 s2, In s1 l -> In s2 l -> shape1 s1 = shape1 s2.

Definition passes_validation (signals : pysignals) (rho : pyobject) : Prop :=
  rho_accepted rho /\ exists l, signals = Iterable l /\ same_features l.

(** The exceptions raised by lines 192-204. *)
Definition validation_error (e : exn) : Prop :=
  e = ValueError "Regularization parameter rho must be a positive number."
  \/ e = ValueError "'signals' input argument must be an iterable."
  \/ e = ValueError "All tasks must have the same number of features.".

(** How many times the coordinate-descent loop was announced, how many
    sweeps were announced. *)
Fixpoint count_cd (l : list event) : nat :=
  match l with
  | [] => 0
  | PrintCoordinateDescent _ :: l' => S (count_cd l')
  | _ :: l' => count_cd l'
  end.

Fixpoint count_iteration (l : list event) : nat :=
  match l with
  | [] => 0
  | PrintIteration _ :: l' => S (count_iteration l')
  | _ :: l' => count_iteration l'
  end.

(** The library routine returns on every input. *)
Definition inv_returns (inv : nat -> mat -> option mat) : Prop :=
  forall N M, exists B, inv N M = Some B.

Definition newton_returns
  (newton : (R -> R) -> R -> (R -> R) -> nat -> option R) : Prop :=
  forall func x0 fprime maxiter,
    exists alpha, newton func x0 fprime maxiter = Some alpha.

(** The exception is the one [np.linalg.inv] raised on some matrix, or
    the one [scipy.optimize.newton] raised on some equation. *)
Definition library_error (inv : nat -> mat -> option mat)
  (newton : (R -> R) -> R -> (R -> R) -> nat -> option R) (e : exn) : Prop :=
  (e = LinAlgError /\ exists N M, inv N M = None)
  \/ (e = RuntimeError
      /\ exists func x0 fprime maxiter, newton func x0 fprime maxiter = None).

(** How many warnings were logged. *)
Fixpoint count_warn (l : list event) : nat :=
  match l with
  | [] => 0
  | Warn _ :: l' => S (count_warn l')
  | _ :: l' => count_warn l'
  end.

(** Two states hold the same arrays and, when the two runs agree on
    [return_costs], the same cost trace; their logs may differ. *)
Definition same_results (rc1 rc2 : bool) (st1 st2 : state) : Prop :=
  emp_covs st1 = emp_covs st2 /\ omega st1 = omega st2
  /\ W st1 = W st2 /\ Winv st1 = Winv st2
  /\ y st1 = y st2 /\ u st1 = u st2
  /\ (rc1 = rc2 -> costs st1 = costs st2).

(** Two computations raise the same exception, or return related
    values. *)
Definition same_outcome {A : Type} (R : A -> A -> Prop) (r1 r2 : exn + A)
  : Prop :=
  match r1, r2 with
  | inl e1, inl e2 => e1 = e2
  | inr a1, inr a2 => R a1 a2
  | _, _ => False
  end.

(** ** Concrete inputs *)

(** The array written as a nested list. *)
Definition mat_of_list (l : list (list R)) : mat :=
  fun i j => nth j (nth i l []) 0.

(** A symmetric positive-definite matrix on which the row step of
    [update_submatrix] at [p = 1] divides by zero. *)
Definition full_singular_step : mat :=
  mat_of_list [[2; 2; 1]; [2; 5; 2]; [1; 2; 1]].
Definition sub_singular_step : mat := mat_of_list [[5; 2]; [2; 1]].
Definition sub_inv_singular_step : mat := mat_of_list [[1; -2]; [-2; 5]].

(** A tridiagonal matrix on which every step is regular. *)
Definition full_tridiagonal : mat :=
  mat_of_list [[2; 1; 0]; [1; 2; 1]; [0; 1; 2]].
Definition sub_tridiagonal : mat := mat_of_list [[2; 1]; [1; 2]].
Definition sub_inv_tridiagonal : mat :=
  mat_of_list [[2 / 3; - (1 / 3)]; [- (1 / 3); 2 / 3]].

(** Stand-ins for the library routines, used only to run the functions
    on the concrete inputs below; no property depends on them.  The
    covariance is the uncentered maximum-likelihood estimate, the inverse
    and the log-determinant are those of a diagonal matrix. *)
Definition uncentered_covariance (s : ndarray2) (assume_centered : bool)
  : mat :=
  fun i j => rsum (shape0 s) (fun t => data s t i * data s t j)
             / INR (shape0 s).

Definition inv_diagonal (n : nat) (M : mat) : option mat :=
  Some (fun i j => if Nat.eqb i j then 1 / M i i else 0).

(** Two root-finders.  [newton_raphson] is [scipy.optimize.newton] with
    [fprime] given, as scipy implemented it when the module was written:
    from [p0], at most [maxiter] steps [p = p0 - func(p0) / fprime(p0)];
    it returns [p0] when the derivative is zero (with a RuntimeWarning of
    its own, which is not logged here), returns [p] when [|p - p0| < tol]
    for the default [tol = 1.48e-8], and raises RuntimeError when the
    steps run out.  The runs below return by the tolerance or run out of
    steps; none meets a zero derivative.
    [newton_found alpha] answers [alpha]: it stands for the root-finder
    on an equation whose root is [alpha], and for any root-finder where
    none is called. *)
Definition newton_tol : R := 148 / 10000000000.

Fixpoint newton_raphson (func : R -> R) (p0 : R) (fprime : R -> R)
  (maxiter : nat) : option R :=
  match maxiter with
  | O => None
  | S k =>
      let fder := fprime p0 in
      if Req_dec_T fder 0 then Some p0
      else
        let p := p0 - func p0 / fder in
        if Rlt_dec (Rabs (p - p0)) newton_tol then Some p
        else newton_raphson func p fprime k
  end.

Definition newton_found (alpha : R) (func : R -> R) (x0 : R)
  (fprime : R -> R) (maxiter : nat) : option R :=
  Some alpha.

Definition logdet_diagonal (n : nat) (M : mat) : R :=
  rsum n (fun i => ln (M i i)).

Definition positive_diagonal (n : nat) (M : mat) (decimal : option nat)
  : bool :=
  all_range n (fun i => if Rlt_dec 0 (M i i) then true else false).

Definition equal_cells (decimal : nat) (actual desired : R) : bool :=
  if Req_dec_T actual desired then true else false.

(** Two tasks of two variables, with two and three samples. *)
Definition signals_two_tasks : list ndarray2 :=
  [ mk_ndarray2 2 2 (mat_of_list [[1; 0]; [0; 1]]);
    mk_ndarray2 3 2 (mat_of_list [[1; 1]; [1; -1]; [0; 2]]) ].

(** One task of one variable. *)
Definition signals_one_variable : list ndarray2 :=
  [ mk_ndarray2 3 1 (mat_of_list [[1]; [2]; [4]]) ].

(** One task of two correlated variables, with two samples. *)
Definition signals_correlated : list ndarray2 :=
  [ mk_ndarray2 2 2 (mat_of_list [[1; 0]; [1; 1]]) ].

(** A state of one task and two variables whose empirical covariance is
    the identity, as at the start of the loop. *)
Definition state_identity : state :=
  initial_state (fun i j _ => eye i j).

(** A state of one task and two variables at pivot 0 with [u = 1/2]. *)
Definition state_correlated : state :=
  mk_state (fun i j _ => if Nat.eqb i j then 1 else 1 / 2)
           (fun i j _ => eye i j)
           (fun _ _ _ => 1) (fun _ _ _ => 1)
           (fun _ _ => 0) (fun _ _ => 1 / 2) [] [].

(** A state of two tasks and two variables: in each task the covariance
    of the two variables is 1/2 and the estimate has 3/10 off its
    diagonal. *)
Definition state_two_tasks : state :=
  mk_state (fun i j _ => if Nat.eqb i j then 1 else 1 / 2)
           (fun i j _ => if Nat.eqb i j then 1 else 3 / 10)
           (fun _ _ _ => 1) (fun _ _ _ => 1)
           (fun _ _ => 0) (fun _ _ => 0) [] [].

(** A state of one task and two variables at pivot 0, for variables of
    variance 10000 and covariance 1/2: the estimate is still diagonal and
    [u = 1/2]. *)
Definition state_large_variance : state :=
  mk_state (fun i j _ => if Nat.eqb i j then 10000 else 1 / 2)
           (fun i j _ => if Nat.eqb i j then 1 / 10000 else 0)
           (fun _ _ _ => 1 / 10000) (fun _ _ _ => 10000)
           (fun _ _ => 0) (fun _ _ => 1 / 2) [] [].

(** * Properties *)

(** ** Sums *)

Lemma rsum_ext n f g :
  (forall i, (i < n)%nat -> f i = g i) -> rsum n f = rsum n g.
Proof.
  induction n as [|n IH]; intros H; simpl; [reflexivity|].
  rewrite IH by (intros; apply H; lia). rewrite H by lia. reflexivity.
Qed.

Lemma rsum_zero n f : (forall i, (i < n)%nat -> f i = 0) -> rsum n f = 0.
Proof.
  induction n as [|n IH]; intros H; simpl; [reflexivity|].
  rewrite IH by (intros; apply H; lia). rewrite H by lia. lra.
Qed.

Lemma rsum_plus n f g :
  rsum n (fun i => f i + g i) = rsum n f + rsum n g.
Proof. induction n as [|n IH]; simpl; [lra|]. rewrite IH. lra. Qed.

Lemma rsum_minus n f g :
  rsum n (fun i => f i - g i) = rsum n f - rsum n g.
Proof. induction n as [|n IH]; simpl; [lra|]. rewrite IH. lra. Qed.

Lemma rsum_scal_l n c f : rsum n (fun i => c * f i) = c * rsum n f.
Proof. induction n as [|n IH]; simpl; [lra|]. rewrite IH. lra. Qed.

Lemma rsum_scal_r n c f : rsum n (fun i => f i * c) = rsum n f * c.
Proof. induction n as [|n IH]; simpl; [lra|]. rewrite IH. lra. Qed.

Lemma rsum_swap n m (f : nat -> nat -> R) :
  rsum n (fun i => rsum m (fun j => f i j))
  = rsum m (fun j => rsum n (fun i => f i j)).
Proof.
  induction n as [|n IH]; simpl.
  - symmetry. apply rsum_zero. reflexivity.
  - rewrite IH, <- rsum_plus. reflexivity.
Qed.

(** Summing against a unit vector picks one term. *)
Lemma rsum_pick_l n k f :
  (k < n)%nat -> rsum n (fun i => (if Nat.eqb i k then 1 else 0) * f i) = f k.
Proof.
  induction n as [|n IH]; intros Hk; [lia|]. simpl.
  destruct (Nat.eqb_spec n k) as [->|Hne].
  - rewrite rsum_zero; [lra|]. intros i Hi.
    destruct (Nat.eqb_spec i k); [lia|lra].
  - rewrite IH by lia. lra.
Qed.

Lemma rsum_pick_r n k f :
  (k < n)%nat -> rsum n (fun i => f i * (if Nat.eqb i k then 1 else 0)) = f k.
Proof.
  intros Hk. rewrite <- (rsum_pick_l n k f Hk).
  apply rsum_ext. intros. lra.
Qed.

(** ** Exact inverses and rank-one updates *)

Lemma is_inverse_ext N A A' B B' :
  mat_eq N N A A' -> mat_eq N N B B' -> is_inverse N A B -> is_inverse N A' B'.
Proof.
  intros HA HB [H1 H2]. split; intros i j Hi Hj; unfold dot_mm.
  - rewrite <- (H1 i j Hi Hj). unfold dot_mm. apply rsum_ext. intros k Hk.
    rewrite (HA i k Hi Hk), (HB k j Hk Hj). reflexivity.
  - rewrite <- (H2 i j Hi Hj). unfold dot_mm. apply rsum_ext. intros k Hk.
    rewrite (HB i k Hi Hk), (HA k j Hk Hj). reflexivity.
Qed.

Lemma eye_sym i j : eye i j = eye j i.
Proof. unfold eye. rewrite (Nat.eqb_sym i j). reflexivity. Qed.

Lemma is_inverse_transpose N A B :
  is_inverse N A B -> is_inverse N (transpose A) (transpose B).
Proof.
  intros [H1 H2]. split; intros i j Hi Hj.
  - rewrite eye_sym, <- (H2 j i Hj Hi). unfold dot_mm, transpose.
    apply rsum_ext. intros. lra.
  - rewrite eye_sym, <- (H1 j i Hj Hi). unfold dot_mm, transpose.
    apply rsum_ext. intros. lra.
Qed.

Lemma invertible_transpose N A : invertible N A -> invertible N (transpose A).
Proof.
  intros [B HB]. exists (transpose B). now apply is_inverse_transpose.
Qed.

Lemma dot_comm N a b : dot N a b = dot N b a.
Proof. unfold dot. apply rsum_ext. intros. lra. Qed.

(** Sherman-Morrison for a change of row [n]: [A + e_n V^T]. *)
Lemma sherman_morrison_row N A B n V :
  (n < N)%nat -> is_inverse N A B ->
  1 + dot N V (fun i => B i n) <> 0 ->
  is_inverse N
    (fun i j => A i j + (if Nat.eqb i n then 1 else 0) * V j)
    (fun i j => B i j
                - B i n / (1 + dot N V (fun i => B i n)) * dot_vm N V B j).
Proof.
  intros Hn [HAB HBA] Hd.
  set (d := 1 + dot N V (fun i => B i n)) in *.
  assert (Hdot : rsum N (fun k => V k * B k n) = d - 1).
  { unfold d, dot. lra. }
  split; intros i j Hi Hj; unfold dot_mm.
  - set (e := if Nat.eqb i n then 1 else 0).
    rewrite (rsum_ext _ _ (fun k =>
      (A i k * B k j + e * (V k * B k j))
      - dot_vm N V B j / d * (A i k * B k n + e * (V k * B k n)))).
    2:{ intros k Hk. fold e. field. exact Hd. }
    rewrite rsum_minus, rsum_scal_l, !rsum_plus, !rsum_scal_l.
    change (rsum N (fun k => A i k * B k j)) with (dot_mm N A B i j).
    change (rsum N (fun k => A i k * B k n)) with (dot_mm N A B i n).
    change (rsum N (fun k => V k * B k j)) with (dot_vm N V B j).
    rewrite (HAB i j Hi Hj), (HAB i n Hi Hn), Hdot.
    unfold eye at 2. fold e. field. exact Hd.
  - rewrite (rsum_ext _ _ (fun k =>
      (B i k * A k j + V j * (B i k * (if Nat.eqb k n then 1 else 0)))
      - B i n / d * (dot_vm N V B k * A k j
                     + V j * (dot_vm N V B k * (if Nat.eqb k n then 1 else 0))))).
    2:{ intros k Hk. field. exact Hd. }
    rewrite rsum_minus, rsum_scal_l, !rsum_plus, !rsum_scal_l.
    rewrite !rsum_pick_r by exact Hn.
    change (rsum N (fun k => B i k * A k j)) with (dot_mm N B A i j).
    assert (HwA : rsum N (fun k => dot_vm N V B k * A k j) = V j).
    { unfold dot_vm.
      rewrite (rsum_ext _ _ (fun k => rsum N (fun l => V l * (B l k * A k j)))).
      2:{ intros k Hk. rewrite <- rsum_scal_r. apply rsum_ext. intros. lra. }
      rewrite rsum_swap.
      rewrite (rsum_ext _ _ (fun l => V l * (if Nat.eqb l j then 1 else 0))).
      2:{ intros l Hl. rewrite rsum_scal_l.
          change (rsum N (fun k => B l k * A k j)) with (dot_mm N B A l j).
          rewrite (HBA l j Hl Hj). reflexivity. }
      apply rsum_pick_r. exact Hj. }
    rewrite HwA. rewrite (HBA i j Hi Hj).
    change (dot_vm N V B n) with (rsum N (fun k => V k * B k n)).
    rewrite Hdot. field. exact Hd.
Qed.

(** Sherman-Morrison for a change of column [n]: [A + U e_n^T]. *)
Lemma sherman_morrison_col N A B n U :
  (n < N)%nat -> is_inverse N A B ->
  1 + dot N (fun j => B n j) U <> 0 ->
  is_inverse N
    (fun i j => A i j + U i * (if Nat.eqb j n then 1 else 0))
    (fun i j => B i j
                - dot_mv N B U i * (B n j / (1 + dot N (fun j => B n j) U))).
Proof.
  intros Hn HAB Hd.
  rewrite dot_comm in Hd.
  pose proof (sherman_morrison_row N (transpose A) (transpose B) n U Hn
                (is_inverse_transpose _ _ _ HAB) Hd) as H.
  apply is_inverse_transpose in H.
  revert H. apply is_inverse_ext; intros i j Hi Hj; unfold transpose.
  - lra.
  - rewrite (dot_comm N (fun j0 => B n j0) U).
    unfold dot_vm, dot_mv.
    replace (rsum N (fun i0 => U i0 * B i i0))
      with (rsum N (fun j0 => B i j0 * U j0))
      by (apply rsum_ext; intros; lra).
    unfold Rdiv. lra.
Qed.

Lemma invertible_ext N A A' :
  mat_eq N N A A' -> invertible N A -> invertible N A'.
Proof.
  intros HA [B HB]. exists B. revert HB. apply is_inverse_ext; [exact HA|].
  intros i j _ _. reflexivity.
Qed.

(** The denominator of the row step vanishes only if the matrix with the
    new row is singular. *)
Lemma row_denominator_nonzero N A B n V :
  (n < N)%nat -> is_inverse N A B ->
  invertible N (fun i j => A i j + (if Nat.eqb i n then 1 else 0) * V j) ->
  1 + dot N V (fun i => B i n) <> 0.
Proof.
  intros Hn [HAB HBA] [C [_ HCA]] Hd.
  assert (Hdot : rsum N (fun k => V k * B k n) = -1).
  { unfold dot in Hd. lra. }
  assert (Hker : forall j, (j < N)%nat ->
    rsum N (fun k => (A j k + (if Nat.eqb j n then 1 else 0) * V k) * B k n) = 0).
  { intros j Hj.
    rewrite (rsum_ext _ _ (fun k =>
      A j k * B k n + (if Nat.eqb j n then 1 else 0) * (V k * B k n))).
    2:{ intros. lra. }
    rewrite rsum_plus, rsum_scal_l, Hdot.
    change (rsum N (fun k => A j k * B k n)) with (dot_mm N A B j n).
    rewrite (HAB j n Hj Hn). unfold eye. lra. }
  assert (Hcol : forall i, (i < N)%nat -> B i n = 0).
  { intros i Hi.
    rewrite <- (rsum_pick_l N i (fun k => B k n) Hi).
    rewrite (rsum_ext _ _ (fun k => rsum N (fun j =>
      C i j * ((A j k + (if Nat.eqb j n then 1 else 0) * V k) * B k n)))).
    2:{ intros k Hk. rewrite (Nat.eqb_sym k i).
        change (if Nat.eqb i k then 1 else 0) with (eye i k).
        rewrite <- (HCA i k Hi Hk). unfold dot_mm.
        rewrite <- rsum_scal_r. apply rsum_ext. intros. lra. }
    rewrite rsum_swap. apply rsum_zero. intros j Hj.
    rewrite rsum_scal_l, (Hker j Hj). lra. }
  assert (H0 : rsum N (fun k => V k * B k n) = 0).
  { apply rsum_zero. intros k Hk. rewrite (Hcol k Hk). lra. }
  lra.
Qed.

Lemma col_denominator_nonzero N A B n U :
  (n < N)%nat -> is_inverse N A B ->
  invertible N (fun i j => A i j + U i * (if Nat.eqb j n then 1 else 0)) ->
  1 + dot N (fun j => B n j) U <> 0.
Proof.
  intros Hn HAB Hinv. rewrite dot_comm.
  apply (row_denominator_nonzero N (transpose A) (transpose B) n U Hn).
  - now apply is_inverse_transpose.
  - apply invertible_transpose in Hinv. revert Hinv.
    apply invertible_ext. intros i j _ _. unfold transpose. lra.
Qed.

Lemma skip_pred_lt p i : (1 <= p)%nat -> (i < p - 1)%nat ->
  skip (p - 1) i = skip p i.
Proof.
  intros Hp Hi. unfold skip.
  destruct (Nat.ltb_spec i (p - 1)); destruct (Nat.ltb_spec i p); lia.
Qed.

Lemma skip_pred_gt p i : (1 <= p)%nat -> (p - 1 < i)%nat ->
  skip (p - 1) i = skip p i.
Proof.
  intros Hp Hi. unfold skip.
  destruct (Nat.ltb_spec i (p - 1)); destruct (Nat.ltb_spec i p); lia.
Qed.

Lemma skip_pred_eq p : (1 <= p)%nat -> skip p (p - 1) = (p - 1)%nat.
Proof. intros Hp. unfold skip. destruct (Nat.ltb_spec (p - 1) p); lia. Qed.

(** One call of [update_submatrix], under the three invertibility
    conditions. *)
Lemma update_submatrix_step N full sub sub_inv p :
  (1 <= p)%nat -> (p <= N)%nat ->
  mat_eq N N sub (delete_row_col (p - 1) full) ->
  is_inverse N sub sub_inv ->
  invertible N (row_replaced p full) ->
  invertible N (delete_row_col p full) ->
  mat_eq N N (fst (update_submatrix N full sub sub_inv p))
             (delete_row_col p full)
  /\ is_inverse N (fst (update_submatrix N full sub sub_inv p))
                  (snd (update_submatrix N full sub sub_inv p)).
Proof.
  intros Hp HpN Hsub Hinv Hmid Hnew.
  assert (Hn : (p - 1 < N)%nat) by lia.
  unfold update_submatrix, update_vectors. cbv zeta. cbn [fst snd].
  set (n := (p - 1)%nat) in *.
  set (h := fun j : nat => if j <? n + 1 then full n j else full n (j + 1)%nat).
  set (v := fun i : nat => if i <? n + 1 then full i n else full (i + 1)%nat n).
  set (V := fun j : nat => h j - sub n j).
  set (B1 := fun i j : nat =>
    sub_inv i j
    - outer (fun i0 : nat => sub_inv i0 n / (1 + dot N V (fun i1 => sub_inv i1 n)))
            (dot_vm N V sub_inv) i j).
  set (A1 := fun i j : nat => if Nat.eqb i n then h j else sub i j).
  set (U := fun i : nat => v i - A1 i n).
  assert (Hh : forall j, h j = full n (skip p j)).
  { intros j. unfold h, skip. replace (n + 1)%nat with p by (unfold n; lia).
    destruct (j <? p); reflexivity. }
  assert (Hv : forall i, v i = full (skip p i) n).
  { intros i. unfold v, skip. replace (n + 1)%nat with p by (unfold n; lia).
    destruct (i <? p); reflexivity. }
  (* the row step *)
  assert (HA1 : mat_eq N N A1 (row_replaced p full)).
  { intros i j Hi Hj. unfold A1, row_replaced. fold n.
    destruct (Nat.eqb_spec i n); [apply Hh | apply Hsub; assumption]. }
  assert (HA1' : mat_eq N N
            (fun i j => sub i j + (if Nat.eqb i n then 1 else 0) * V j) A1).
  { intros i j Hi Hj. unfold A1, V.
    destruct (Nat.eqb_spec i n) as [->|]; lra. }
  assert (Hd1 : 1 + dot N V (fun i => sub_inv i n) <> 0).
  { apply (row_denominator_nonzero N sub sub_inv n V Hn Hinv).
    revert Hmid. apply invertible_ext. intros i j Hi Hj.
    rewrite (HA1' i j Hi Hj). symmetry. apply HA1; assumption. }
  assert (H1 : is_inverse N A1 B1).
  { pose proof (sherman_morrison_row N sub sub_inv n V Hn Hinv Hd1) as H.
    revert H. apply is_inverse_ext; [exact HA1'|].
    intros i j _ _. unfold B1, outer. reflexivity. }
  (* the column step *)
  assert (HA2 : mat_eq N N (fun i j => if Nat.eqb j n then v i else A1 i j)
                       (delete_row_col p full)).
  { intros i j Hi Hj. unfold delete_row_col.
    destruct (Nat.eqb_spec j n) as [->|Hj'].
    - rewrite Hv. unfold n at 2. rewrite skip_pred_eq by exact Hp. reflexivity.
    - unfold A1. destruct (Nat.eqb_spec i n) as [->|Hi'].
      + rewrite Hh. unfold n at 2. rewrite skip_pred_eq by exact Hp.
        reflexivity.
      + rewrite (Hsub i j Hi Hj). unfold delete_row_col.
        assert (Hs : forall a, a <> n -> skip n a = skip p a).
        { intros a Ha. destruct (Nat.lt_total a n) as [Hlt|[Heq|Hgt]].
          - apply skip_pred_lt; [exact Hp | exact Hlt].
          - contradiction.
          - apply skip_pred_gt; [exact Hp | exact Hgt]. }
        rewrite (Hs i Hi'), (Hs j Hj'). reflexivity. }
  assert (HA2' : mat_eq N N
            (fun i j => A1 i j + U i * (if Nat.eqb j n then 1 else 0))
            (fun i j => if Nat.eqb j n then v i else A1 i j)).
  { intros i j Hi Hj. unfold U. destruct (Nat.eqb_spec j n) as [->|]; lra. }
  assert (Hd2 : 1 + dot N (fun j => B1 n j) U <> 0).
  { apply (col_denominator_nonzero N A1 B1 n U Hn H1).
    revert Hnew. apply invertible_ext. intros i j Hi Hj.
    rewrite (HA2' i j Hi Hj). symmetry. apply HA2; assumption. }
  split; [exact HA2|].
  pose proof (sherman_morrison_col N A1 B1 n U Hn H1 Hd2) as H.
  revert H. apply is_inverse_ext; [exact HA2'|].
  intros i j _ _. unfold outer. reflexivity.
Qed.

Lemma advance_through_correct N full Winv0 p :
  (p <= N)%nat ->
  is_inverse N (delete_row_col 0 full) Winv0 ->
  (forall q, (1 <= q)%nat -> (q <= p)%nat ->
     invertible N (row_replaced q full)
     /\ invertible N (delete_row_col q full)) ->
  mat_eq N N (fst (advance_through N full Winv0 p)) (delete_row_col p full)
  /\ is_inverse N (fst (advance_through N full Winv0 p))
                  (snd (advance_through N full Winv0 p)).
Proof.
  induction p as [|p IH]; intros HpN H0 Hreg.
  - simpl. split; [|exact H0]. intros i j _ _. reflexivity.
  - simpl.
    destruct (advance_through N full Winv0 p) as [sub sub_inv] eqn:E.
    destruct IH as [IH1 IH2]; [lia | exact H0 | intros; apply Hreg; lia |].
    simpl in IH1, IH2.
    destruct (Hreg (S p)) as [Hmid Hnew]; [lia | lia |].
    apply update_submatrix_step; try lia; try assumption.
    replace (S p - 1)%nat with p by lia. exact IH1.
Qed.

(** C2 (amended): [update_submatrix] turns the submatrix without row and
    column [p - 1], with its exact inverse, into the submatrix without row
    and column [p], with its exact inverse, whenever the old submatrix, the
    new one and the one in between (row [p - 1] replaced, column [p - 1]
    not yet) are invertible; and iterating it from direct deletion and
    direct inversion at pivot 0 gives direct deletion and the exact inverse
    at every later pivot, under the same conditions at every step. *)
Theorem update_submatrix_maintains_inverse :
  (forall N full sub sub_inv p,
     (1 <= p)%nat -> (p <= N)%nat ->
     mat_eq N N sub (delete_row_col (p - 1) full) ->
     is_inverse N sub sub_inv ->
     invertible N (row_replaced p full) ->
     invertible N (delete_row_col p full) ->
     mat_eq N N (fst (update_submatrix N full sub sub_inv p))
                (delete_row_col p full)
     /\ is_inverse N (delete_row_col p full)
                     (snd (update_submatrix N full sub sub_inv p)))
  /\ (forall N full Winv0 p,
        (p <= N)%nat ->
        is_inverse N (delete_row_col 0 full) Winv0 ->
        (forall q, (1 <= q)%nat -> (q <= p)%nat ->
           invertible N (row_replaced q full)
           /\ invertible N (delete_row_col q full)) ->
        mat_eq N N (fst (advance_through N full Winv0 p))
                   (delete_row_col p full)
        /\ is_inverse N (delete_row_col p full)
                        (snd (advance_through N full Winv0 p))).
Proof.
  split.
  - intros N full sub sub_inv p Hp HpN Hsub Hinv Hmid Hnew.
    destruct (update_submatrix_step N full sub sub_inv p Hp HpN Hsub Hinv
                Hmid Hnew) as [H1 H2].
    split; [exact H1|]. revert H2. apply is_inverse_ext; [exact H1|].
    intros i j _ _. reflexivity.
  - intros N full Winv0 p HpN H0 Hreg.
    destruct (advance_through_correct N full Winv0 p HpN H0 Hreg) as [H1 H2].
    split; [exact H1|]. revert H2. apply is_inverse_ext; [exact H1|].
    intros i j _ _. reflexivity.
Qed.

(** Evaluation of small concrete arrays. *)
Ltac two_by_two :=
  let i := fresh "i" in let j := fresh "j" in
  intros i j ? ?; destruct i as [|[|i]]; destruct j as [|[|j]]; try lia.

Ltac eval_arrays :=
  cbv [rsum dot dot_mm dot_vm dot_mv outer transpose delete_row_col
       row_replaced skip eye
       full_singular_step sub_singular_step sub_inv_singular_step
       full_tridiagonal sub_tridiagonal sub_inv_tridiagonal
       mat_of_list nth Nat.ltb Nat.leb Nat.eqb Nat.add Nat.sub].

Ltac eval_arrays_in H :=
  cbv [rsum dot dot_mm dot_vm dot_mv outer transpose delete_row_col
       row_replaced skip eye
       full_singular_step sub_singular_step sub_inv_singular_step
       full_tridiagonal sub_tridiagonal sub_inv_tridiagonal
       mat_of_list nth Nat.ltb Nat.leb Nat.eqb Nat.add Nat.sub] in H.

Ltac inverse_by_evaluation := split; two_by_two; eval_arrays; lra.

(** C2, without the condition on the matrix in between: on a symmetric
    positive-definite [full], with the old and the new submatrix both
    invertible, the row step divides by zero ([1 + V . coln = 0]); numpy
    fills [sub_inv] with inf and nan, the reals give [x / 0 = 0], and
    either way what [update_submatrix] leaves in [sub_inv] is not the
    inverse of the new submatrix. *)
Lemma update_submatrix_singular_row_step :
  mat_eq 2 2 sub_singular_step (delete_row_col 0 full_singular_step)
  /\ is_inverse 2 sub_singular_step sub_inv_singular_step
  /\ invertible 2 (delete_row_col 1 full_singular_step)
  /\ ~ is_inverse 2 (delete_row_col 1 full_singular_step)
         (snd (update_submatrix 2 full_singular_step sub_singular_step
                                sub_inv_singular_step 1)).
Proof.
  split; [|split; [|split]].
  - two_by_two; reflexivity.
  - inverse_by_evaluation.
  - exists (mat_of_list [[1; -1]; [-1; 2]]). inverse_by_evaluation.
  - intros [H _]. specialize (H 0%nat 0%nat ltac:(lia) ltac:(lia)).
    unfold update_submatrix, update_vectors in H.
    cbv zeta in H. cbn [fst snd] in H. eval_arrays_in H.
    replace (1 + (0 + (2 - 5) * 1 + (1 - 2) * -2)) with 0 in H by lra.
    rewrite !Rdiv_0_r in H. lra.
Qed.

Lemma update_submatrix_maintains_inverse_witness :
  (mat_eq 2 2
     (fst (update_submatrix 2 full_tridiagonal sub_tridiagonal
                            sub_inv_tridiagonal 1))
     (delete_row_col 1 full_tridiagonal)
   /\ is_inverse 2 (delete_row_col 1 full_tridiagonal)
        (snd (update_submatrix 2 full_tridiagonal sub_tridiagonal
                               sub_inv_tridiagonal 1)))
  /\ (mat_eq 2 2
        (fst (advance_through 2 full_tridiagonal sub_inv_tridiagonal 2))
        (delete_row_col 2 full_tridiagonal)
      /\ is_inverse 2 (delete_row_col 2 full_tridiagonal)
           (snd (advance_through 2 full_tridiagonal sub_inv_tridiagonal 2))).
Proof.
  assert (Hmid : invertible 2 (mat_of_list [[2; 0]; [1; 2]])).
  { exists (mat_of_list [[1 / 2; 0]; [- (1 / 4); 1 / 2]]).
    inverse_by_evaluation. }
  assert (H1 : invertible 2 (row_replaced 1 full_tridiagonal)).
  { revert Hmid. apply invertible_ext. two_by_two; reflexivity. }
  assert (H2 : invertible 2 (row_replaced 2 full_tridiagonal)).
  { revert Hmid. apply invertible_ext. two_by_two; reflexivity. }
  assert (D1 : invertible 2 (delete_row_col 1 full_tridiagonal)).
  { exists (mat_of_list [[1 / 2; 0]; [0; 1 / 2]]). inverse_by_evaluation. }
  assert (D2 : invertible 2 (delete_row_col 2 full_tridiagonal)).
  { exists sub_inv_tridiagonal. inverse_by_evaluation. }
  assert (H0 : is_inverse 2 (delete_row_col 0 full_tridiagonal)
                 sub_inv_tridiagonal) by inverse_by_evaluation.
  split.
  - apply (proj1 update_submatrix_maintains_inverse);
      [lia | lia | two_by_two; reflexivity | inverse_by_evaluation
      | exact H1 | exact D1].
  - apply (proj2 update_submatrix_maintains_inverse); [lia | exact H0 |].
    intros q Hq1 Hq2. destruct q as [|[|[|q]]]; try lia; split; assumption.
Defined.

(** ** Exceptions and loops *)

Lemma bind_inr {A B : Type} (m : exn + A) (f : A -> exn + B) b :
  bind m f = inr b -> exists a, m = inr a /\ f a = inr b.
Proof. destruct m as [e|a]; simpl; [discriminate|]. intros H. now exists a. Qed.

Lemma bind_inl {A B : Type} (m : exn + A) (f : A -> exn + B) e :
  bind m f = inl e -> m = inl e \/ exists a, m = inr a /\ f a = inl e.
Proof.
  destruct m as [e'|a]; simpl; intros H.
  - left. injection H as ->. reflexivity.
  - right. now exists a.
Qed.

Lemma for_range_invariant {S : Type} (P : nat -> S -> Prop) n body s s' :
  P O s ->
  (forall i t t', (i < n)%nat -> P i t -> body i t = inr t' ->
     P (Datatypes.S i) t') ->
  for_range n body s = inr s' -> P n s'.
Proof.
  intros H0 Hstep. revert s'.
  induction n as [|n IH]; intros s' H; simpl in H.
  - injection H as <-. exact H0.
  - apply bind_inr in H. destruct H as [t [Ht Hb]].
    apply (Hstep n t s'); [lia | | exact Hb].
    apply IH; [|exact Ht]. intros i u u' Hi. apply Hstep. lia.
Qed.

Lemma for_range_returns {S : Type} n (body : nat -> S -> exn + S) s :
  (forall i t, (i < n)%nat -> exists t', body i t = inr t') ->
  exists s', for_range n body s = inr s'.
Proof.
  intros Hbody. induction n as [|n IH]; simpl.
  - now exists s.
  - destruct IH as [t Ht]; [intros; apply Hbody; lia|].
    rewrite Ht. simpl. apply Hbody. lia.
Qed.

(** An exception of a loop is an exception of one of its turns. *)
Lemma for_range_raises {S : Type} n (body : nat -> S -> exn + S) s e :
  for_range n body s = inl e ->
  exists i t, (i < n)%nat /\ body i t = inl e.
Proof.
  induction n as [|n IH]; simpl; intros H; [discriminate|].
  apply bind_inl in H. destruct H as [H|[t [_ H]]].
  - destruct (IH H) as [i [t [Hi Hb]]]. exists i, t. split; [lia|exact Hb].
  - exists n, t. split; [lia|exact H].
Qed.

(** ** Symmetrization *)

Lemma symmetrize_entry M i j : symmetrize M i j = (M i j + M j i) / 2.
Proof. reflexivity. Qed.

Lemma symmetrize_symmetric M i j : symmetrize M i j = symmetrize M j i.
Proof. rewrite !symmetrize_entry. lra. Qed.

(** C10: [symmetrize] applied twice gives what it gives applied once, and
    it leaves a symmetric matrix as it is. *)
Theorem symmetrize_idempotent (n : nat) (M : mat) :
  (forall i j, symmetrize (symmetrize M) i j = symmetrize M i j)
  /\ (symmetric n M -> mat_eq n n (symmetrize M) M).
Proof.
  split.
  - intros i j. rewrite !symmetrize_entry. lra.
  - intros Hsym i j Hi Hj. rewrite symmetrize_entry, (Hsym j i Hj Hi). lra.
Qed.

Lemma symmetrize_idempotent_witness :
  mat_eq 3 3 (symmetrize full_tridiagonal) full_tridiagonal.
Proof.
  apply (proj2 (symmetrize_idempotent 3 full_tridiagonal)).
  intros i j Hi Hj.
  destruct i as [|[|[|i]]]; destruct j as [|[|[|j]]]; try lia; reflexivity.
Defined.

(** ** The checks on the arguments *)

Lemma nodup_at_most_one (L : list nat) :
  (1 <? List.length (nodup Nat.eq_dec L))%nat = false
  <-> (forall a b, In a L -> In b L -> a = b).
Proof.
  split.
  - intros H a b Ha Hb. apply Nat.ltb_ge in H.
    apply (nodup_In Nat.eq_dec) in Ha, Hb.
    destruct (nodup Nat.eq_dec L) as [|x [|z r]]; simpl in H, Ha, Hb.
    + contradiction.
    + destruct Ha as [<-|[]], Hb as [<-|[]]. reflexivity.
    + lia.
  - intros H. apply Nat.ltb_ge.
    pose proof (NoDup_nodup Nat.eq_dec L) as Hnd.
    assert (Hin : forall a, In a (nodup Nat.eq_dec L) -> In a L).
    { intros a. apply nodup_In. }
    destruct (nodup Nat.eq_dec L) as [|x [|z r]]; simpl; try lia.
    exfalso. inversion Hnd as [|? ? Hx _]; subst. apply Hx. left.
    apply H; apply Hin; simpl; tauto.
Qed.

Lemma same_features_check (l : list ndarray2) :
  (1 <? List.length (nodup Nat.eq_dec (map shape1 l)))%nat = false
  <-> same_features l.
Proof.
  rewrite nodup_at_most_one. unfold same_features. split.
  - intros H s1 s2 H1 H2. apply H; apply in_map; assumption.
  - intros H a b Ha Hb. apply in_map_iff in Ha, Hb.
    destruct Ha as [s1 [<- H1]], Hb as [s2 [<- H2]]. now apply H.
Qed.

Lemma rho_accepted_number rho_arg r :
  number_of rho_arg = Some r -> (rho_accepted rho_arg <-> 0 <= r).
Proof.
  intros H. unfold rho_accepted. rewrite H. split.
  - intros [r' [[= <-] Hr]]. exact Hr.
  - intros Hr. now exists r.
Qed.

Set Default Proof Using "Type".

Section CollaboratorProperties.

Variable empirical_covariance : ndarray2 -> bool -> mat.
Variable inv : nat -> mat -> option mat.
Variable newton : (R -> R) -> R -> (R -> R) -> nat -> option R.
Variable fast_logdet : nat -> mat -> R.
Variable is_spd : nat -> mat -> option nat -> bool.
Variable almost_equal : nat -> R -> R -> bool.

(** ** Construction of the empirical covariances *)

Lemma build_emp_covs_entries l n_var assume_centered debug E :
  build_emp_covs empirical_covariance is_spd l n_var assume_centered debug
    = inr E ->
  forall k, (k < List.length l)%nat -> forall i j,
    E i j k
    = symmetrize (empirical_covariance
                    (nth k l (mk_ndarray2 0 0 (fun _ _ => 0)))
                    assume_centered) i j.
Proof.
  unfold build_emp_covs.
  apply (for_range_invariant (fun n (E : stack) =>
    forall k, (k < n)%nat -> forall i j,
      E i j k = symmetrize (empirical_covariance
                  (nth k l (mk_ndarray2 0 0 (fun _ _ => 0)))
                  assume_centered) i j)).
  - intros k Hk. lia.
  - intros n t t' Hn IH Hbody k Hk i j.
    apply bind_inr in Hbody. destruct Hbody as [_ [_ Hret]].
    injection Hret as <-. unfold set_task, task.
    destruct (Nat.eqb_spec k n) as [->|Hne].
    + rewrite !symmetrize_entry, Nat.eqb_refl. reflexivity.
    + apply IH. lia.
Qed.

Lemma build_emp_covs_returns l n_var assume_centered :
  exists E,
    build_emp_covs empirical_covariance is_spd l n_var assume_centered false
    = inr E.
Proof.
  unfold build_emp_covs. apply for_range_returns.
  intros i t _. simpl. eexists. reflexivity.
Qed.

(** C6: every stored empirical covariance is [(C + C.T) / 2] for the
    estimator's output [C], hence symmetric; and the construction
    completes when the debug check is off. *)
Theorem emp_covs_symmetrized l n_var assume_centered debug :
  (forall E,
     build_emp_covs empirical_covariance is_spd l n_var assume_centered debug
       = inr E ->
     forall k, (k < List.length l)%nat -> forall i j,
       let C := empirical_covariance
                  (nth k l (mk_ndarray2 0 0 (fun _ _ => 0)))
                  assume_centered in
       E i j k = (C i j + transpose C i j) / 2 /\ E i j k = E j i k)
  /\ (debug = false ->
      exists E,
        build_emp_covs empirical_covariance is_spd l n_var assume_centered
          debug = inr E).
Proof.
  split.
  - intros E HE k Hk i j C.
    rewrite !(build_emp_covs_entries _ _ _ _ _ HE k Hk). fold C. split.
    + reflexivity.
    + apply symmetrize_symmetric.
  - intros ->. apply build_emp_covs_returns.
Qed.

(** ** The optimisation loop *)

Section LoopProperties.

Variables (n_var n_tasks : nat) (n_samples : vec) (rho : R).
Variables (verbose : Z) (return_costs debug : bool).

Local Abbreviation initial_submatrix_ :=
  (initial_submatrix inv almost_equal n_var n_tasks debug).
Local Abbreviation advance_submatrix_ :=
  (advance_submatrix is_spd almost_equal n_var n_tasks debug).
Local Abbreviation coordinate_c_ := (coordinate_c n_var n_samples).
Local Abbreviation coordinate_c2_ := (coordinate_c2 n_var n_tasks n_samples).
Local Abbreviation coordinate_step_ :=
  (coordinate_step newton n_var n_tasks n_samples rho debug).
Local Abbreviation pivot_enter_ :=
  (pivot_enter inv is_spd almost_equal n_var n_tasks verbose debug).
Local Abbreviation pivot_leave_ :=
  (pivot_leave fast_logdet is_spd n_var n_tasks n_samples rho verbose
               return_costs debug).
Local Abbreviation pivot_update_ :=
  (pivot_update inv newton fast_logdet is_spd almost_equal n_var n_tasks
                n_samples rho verbose return_costs debug).
Local Abbreviation sweep_ :=
  (sweep inv newton fast_logdet is_spd almost_equal n_var n_tasks
         n_samples rho verbose return_costs debug).
Local Abbreviation optimization_loop_ :=
  (optimization_loop inv newton fast_logdet is_spd almost_equal n_var n_tasks
                     n_samples rho verbose return_costs debug).

(** What the two ways of bringing [W] and [Winv] to the pivot leave
    untouched. *)
Lemma initial_submatrix_frame st st' :
  initial_submatrix_ st = inr st' ->
  emp_covs st' = emp_covs st /\ omega st' = omega st
  /\ costs st' = costs st /\ log st' = log st.
Proof.
  unfold initial_submatrix. intros H.
  apply bind_inr in H. destruct H as [a [_ H]]. injection H as <-.
  repeat split.
Qed.

Lemma advance_submatrix_frame p st st' :
  advance_submatrix_ p st = inr st' ->
  emp_covs st' = emp_covs st /\ omega st' = omega st
  /\ costs st' = costs st /\ log st' = log st.
Proof.
  unfold advance_submatrix. intros H.
  apply bind_inr in H. destruct H as [a [_ H]].
  apply bind_inr in H. destruct H as [? [_ H]]. injection H as <-.
  repeat split.
Qed.

(** The state on entry to the coordinate-descent loop. *)
Lemma pivot_enter_frame p st st' :
  pivot_enter_ p st = inr st' ->
  emp_covs st' = emp_covs st /\ omega st' = omega st
  /\ costs st' = costs st
  /\ log st' = log st ++ (if (2 <=? verbose)%Z
                          then [PrintCoordinateDescent p] else [])
  /\ (forall k i, y st' k i = if i <? p then omega st i p k
                              else omega st (i + 1)%nat p k)
  /\ (forall k i, u st' k i = if i <? p then emp_covs st i p k
                              else emp_covs st (i + 1)%nat p k).
Proof.
  unfold pivot_enter. intros H.
  apply bind_inr in H. destruct H as [t [Ht H]]. injection H as <-.
  assert (Hf : emp_covs t = emp_covs st /\ omega t = omega st
               /\ costs t = costs st /\ log t = log st).
  { destruct (Nat.eqb p 0).
    - now apply initial_submatrix_frame.
    - now apply (advance_submatrix_frame p). }
  destruct Hf as (He & Ho & Hc & Hl).
  destruct (2 <=? verbose)%Z; simpl; rewrite ?He, ?Ho, ?Hc, ?Hl, ?app_nil_r;
    repeat split; intros; reflexivity.
Qed.

(** One coordinate step writes column [m] of [y] and may log a warning;
    nothing else. *)
Lemma coordinate_step_frame p m st st' :
  coordinate_step_ p m st = inr st' ->
  emp_covs st' = emp_covs st /\ omega st' = omega st
  /\ W st' = W st /\ Winv st' = Winv st /\ u st' = u st
  /\ costs st' = costs st
  /\ count_cd (log st') = count_cd (log st)
  /\ count_iteration (log st') = count_iteration (log st)
  /\ (forall k i, i <> m -> y st' k i = y st k i).
Proof.
  unfold coordinate_step. intros H.
  destruct (Rle_dec _ _) as [Hle|Hgt].
  - injection H as <-. simpl. repeat split. intros k i Hi.
    destruct (Nat.eqb_spec i m); [contradiction|reflexivity].
  - apply bind_inr in H. destruct H as [? [_ H]].
    apply bind_inr in H. destruct H as [alpha [_ H]].
    apply bind_inr in H. destruct H as [? [_ H]]. injection H as <-.
    assert (Hcd : forall l e, count_cd (l ++ [Warn e]) = count_cd l).
    { intros l e. induction l as [|[] l IH]; simpl; congruence. }
    assert (Hit : forall l e,
              count_iteration (l ++ [Warn e]) = count_iteration l).
    { intros l e. induction l as [|[] l IH]; simpl; congruence. }
    destruct (Rlt_dec _ _); simpl; rewrite ?Hcd, ?Hit; repeat split;
      intros k i Hi; destruct (Nat.eqb_spec i m);
      try contradiction; reflexivity.
Qed.

(** The first [M] coordinate steps. *)
Lemma coordinate_loop_frame p M st st' :
  for_range M (coordinate_step_ p) st = inr st' ->
  emp_covs st' = emp_covs st /\ omega st' = omega st
  /\ W st' = W st /\ Winv st' = Winv st /\ u st' = u st
  /\ costs st' = costs st
  /\ count_cd (log st') = count_cd (log st)
  /\ count_iteration (log st') = count_iteration (log st)
  /\ (forall k i, (M <= i)%nat -> y st' k i = y st k i).
Proof.
  apply (for_range_invariant (fun n t =>
    emp_covs t = emp_covs st /\ omega t = omega st
    /\ W t = W st /\ Winv t = Winv st /\ u t = u st
    /\ costs t = costs st
    /\ count_cd (log t) = count_cd (log st)
    /\ count_iteration (log t) = count_iteration (log st)
    /\ (forall k i, (n <= i)%nat -> y t k i = y st k i))).
  - repeat split.
  - intros n t t' _ (H1 & H2 & H3 & H4 & H5 & H6 & H7 & H8 & H9) Hstep.
    apply coordinate_step_frame in Hstep.
    destruct Hstep as (G1 & G2 & G3 & G4 & G5 & G6 & G7 & G8 & G9).
    repeat split; try congruence.
    intros k i Hi. rewrite G9 by lia. apply H9. lia.
Qed.

(** A coordinate that passed the threshold test stays at zero until the
    end of the pass. *)
Lemma coordinate_zero_persists p m st stm :
  for_range m (coordinate_step_ p) st = inr stm ->
  coordinate_c2_ p m stm <= rho ->
  forall M stM, (m < M)%nat ->
    for_range M (coordinate_step_ p) st = inr stM ->
    forall k, y stM k m = 0.
Proof.
  intros Hm Hc2 M. induction M as [|M IH]; intros stM HM H k; [lia|].
  simpl in H. apply bind_inr in H. destruct H as [t [Ht Hstep]].
  destruct (Nat.eq_dec m M) as [<-|Hne].
  - rewrite Hm in Ht. injection Ht as <-.
    unfold coordinate_step in Hstep.
    destruct (Rle_dec _ _) as [_|Hgt]; [|contradiction].
    injection Hstep as <-. simpl. rewrite Nat.eqb_refl. reflexivity.
  - apply coordinate_step_frame in Hstep.
    destruct Hstep as (_ & _ & _ & _ & _ & _ & _ & _ & Hy).
    rewrite Hy by exact Hne. apply (IH t); [lia | exact Ht].
Qed.

Lemma copy_back_entry p (yv : rows) (o : stack) i j k :
  copy_back p yv o i j k
  = if Nat.eqb i p then
      if Nat.eqb j p then o i j k else yv k (if j <? p then j else (j - 1)%nat)
    else
      if Nat.eqb j p then yv k (if i <? p then i else (i - 1)%nat)
      else o i j k.
Proof.
  unfold copy_back.
  destruct (Nat.eqb_spec i p) as [->|Hi]; destruct (Nat.eqb_spec j p) as [->|Hj];
    simpl.
  - rewrite Nat.ltb_irrefl. simpl. reflexivity.
  - destruct (Nat.ltb_spec p j); destruct (Nat.ltb_spec j p); simpl;
      try reflexivity; lia.
  - destruct (Nat.ltb_spec p i); destruct (Nat.ltb_spec i p); simpl;
      try reflexivity; lia.
  - reflexivity.
Qed.

(** The state on exit from a pivot. *)
Lemma pivot_leave_spec p st st' :
  pivot_leave_ p st = inr st' ->
  emp_covs st' = emp_covs st /\ W st' = W st /\ Winv st' = Winv st
  /\ y st' = y st /\ u st' = u st
  /\ (forall i j k, (i <> p \/ j <> p) ->
        omega st' i j k = copy_back p (y st) (omega st) i j k)
  /\ (forall k, (k < n_tasks)%nat ->
        omega st' p p k = pivot_diagonal n_var p k st)
  /\ List.length (costs st')
     = (List.length (costs st) + if return_costs then 1 else 0)%nat
  /\ count_cd (log st') = count_cd (log st)
  /\ count_iteration (log st') = count_iteration (log st).
Proof.
  unfold pivot_leave. intros H.
  apply bind_inr in H. destruct H as [t [Ht H]].
  set (st1 := set_omega st (copy_back p (y st) (omega st))) in *.
  assert (Hloop :
    emp_covs t = emp_covs st /\ W t = W st /\ Winv t = Winv st
    /\ y t = y st /\ u t = u st /\ costs t = costs st /\ log t = log st
    /\ (forall i j k, (i <> p \/ j <> p) -> omega t i j k = omega st1 i j k)
    /\ (forall k, (k < n_tasks)%nat ->
          omega t p p k = pivot_diagonal n_var p k st)).
  { revert Ht.
    apply (for_range_invariant (fun n t =>
      emp_covs t = emp_covs st /\ W t = W st /\ Winv t = Winv st
      /\ y t = y st /\ u t = u st /\ costs t = costs st /\ log t = log st
      /\ (forall i j k, (i <> p \/ j <> p) -> omega t i j k = omega st1 i j k)
      /\ (forall k, (k < n)%nat ->
            omega t p p k = pivot_diagonal n_var p k st))).
    - repeat split. intros k Hk. lia.
    - intros n a a' _ (H1 & H2 & H3 & H4 & H5 & H6 & H7 & H8 & H9) Hb.
      apply bind_inr in Hb. destruct Hb as [? [_ Hb]]. injection Hb as <-.
      simpl. repeat split; try assumption.
      + intros i j k Hij.
        destruct (Nat.eqb_spec i p) as [->|]; destruct (Nat.eqb_spec j p) as [->|];
          simpl; try (apply H8; exact Hij).
        destruct Hij; contradiction.
      + intros k Hk. rewrite !Nat.eqb_refl. simpl.
        destruct (Nat.eqb_spec k n) as [->|Hne].
        * unfold pivot_diagonal. rewrite H1, H3, H4. reflexivity.
        * apply H9. lia. }
  destruct Hloop as (H1 & H2 & H3 & H4 & H5 & H6 & H7 & H8 & H9).
  assert (Hcd : forall l c, count_cd (l ++ [PrintCost c]) = count_cd l).
  { intros l c. induction l as [|[] l IH]; simpl; congruence. }
  assert (Hit : forall l c,
            count_iteration (l ++ [PrintCost c]) = count_iteration l).
  { intros l c. induction l as [|[] l IH]; simpl; congruence. }
  destruct return_costs.
  - unfold _group_sparse_covariance_cost in H.
    destruct (1 <=? verbose)%Z; injection H as <-; simpl;
      rewrite ?length_app, ?app_nil_r, ?Hcd, ?Hit, ?H6, ?H7; simpl;
      repeat split; assumption.
  - injection H as <-. rewrite H6, H7, Nat.add_0_r.
    repeat split; assumption.
Qed.

(** A pivot update, taken apart. *)
Lemma pivot_update_inr p st st' :
  pivot_update_ p st = inr st' ->
  exists st0 st1,
    pivot_enter_ p st = inr st0
    /\ for_range (n_var - 1) (coordinate_step_ p) st0 = inr st1
    /\ pivot_leave_ p st1 = inr st'.
Proof.
  unfold pivot_update. intros H.
  apply bind_inr in H. destruct H as [st0 [H0 H]].
  apply bind_inr in H. destruct H as [st1 [H1 H]].
  exists st0, st1. repeat split; assumption.
Qed.

Lemma pivot_update_emp_covs p st st' :
  pivot_update_ p st = inr st' -> emp_covs st' = emp_covs st.
Proof.
  intros H. apply pivot_update_inr in H.
  destruct H as (st0 & st1 & H0 & H1 & H2).
  apply pivot_enter_frame in H0. apply coordinate_loop_frame in H1.
  apply pivot_leave_spec in H2.
  destruct H0 as (E0 & _), H1 as (E1 & _), H2 as (E2 & _). congruence.
Qed.

Lemma for_range_pivot_update_emp_covs n st st' :
  for_range n pivot_update_ st = inr st' -> emp_covs st' = emp_covs st.
Proof.
  apply (for_range_invariant (fun _ t => emp_covs t = emp_covs st)).
  - reflexivity.
  - intros i t t' _ IH Hb. rewrite <- IH. now apply (pivot_update_emp_covs i).
Qed.

Lemma sweep_emp_covs n st st' :
  sweep_ n st = inr st' -> emp_covs st' = emp_covs st.
Proof.
  unfold sweep. intros H. apply for_range_pivot_update_emp_covs in H.
  rewrite H. destruct (1 <=? verbose)%Z; reflexivity.
Qed.

Lemma optimization_loop_emp_covs n_iter st st' :
  optimization_loop_ n_iter st = inr st' -> emp_covs st' = emp_covs st.
Proof.
  unfold optimization_loop.
  apply (for_range_invariant (fun _ t => emp_covs t = emp_covs st)).
  - reflexivity.
  - intros i t t' _ IH Hb. rewrite <- IH. now apply (sweep_emp_covs i).
Qed.

(** The precision estimates after a pivot update, entry by entry. *)
Lemma pivot_update_omega p st st' :
  pivot_update_ p st = inr st' ->
  exists st1,
    (pivot_leave_ p st1 = inr st'
     /\ emp_covs st1 = emp_covs st /\ omega st1 = omega st)
    /\ (forall i j k, (i <> p \/ j <> p) ->
          omega st' i j k = copy_back p (y st1) (omega st) i j k)
    /\ (forall k, (k < n_tasks)%nat ->
          omega st' p p k = pivot_diagonal n_var p k st1).
Proof.
  intros H. apply pivot_update_inr in H.
  destruct H as (st0 & st1 & H0 & H1 & H2).
  apply pivot_enter_frame in H0. apply coordinate_loop_frame in H1.
  destruct H0 as (E0 & O0 & _), H1 as (E1 & O1 & _).
  exists st1. split; [repeat split; congruence|].
  apply pivot_leave_spec in H2.
  destruct H2 as (_ & _ & _ & _ & _ & Hoff & Hdiag & _).
  split; [|exact Hdiag].
  intros i j k Hij. rewrite (Hoff i j k Hij). congruence.
Qed.

(** ** Symmetry of the precision estimates *)

Lemma pivot_update_symmetric p st st' k :
  symmetric n_var (task (omega st) k) ->
  pivot_update_ p st = inr st' ->
  symmetric n_var (task (omega st') k).
Proof.
  intros Hsym H i j Hi Hj. unfold task.
  apply pivot_update_omega in H. destruct H as (st1 & _ & Hoff & _).
  destruct (Nat.eq_dec i p) as [->|Hip]; destruct (Nat.eq_dec j p) as [->|Hjp].
  - reflexivity.
  - rewrite !Hoff by tauto. rewrite !copy_back_entry.
    rewrite Nat.eqb_refl. destruct (Nat.eqb_spec j p); [contradiction|].
    reflexivity.
  - rewrite !Hoff by tauto. rewrite !copy_back_entry.
    rewrite Nat.eqb_refl. destruct (Nat.eqb_spec i p); [contradiction|].
    reflexivity.
  - rewrite !Hoff by tauto. rewrite !copy_back_entry.
    destruct (Nat.eqb_spec i p); [contradiction|].
    destruct (Nat.eqb_spec j p); [contradiction|].
    apply (Hsym i j Hi Hj).
Qed.

Lemma initial_omega_symmetric E k : symmetric n_var (task (initial_omega E) k).
Proof.
  intros i j _ _. unfold task, initial_omega.
  rewrite (Nat.eqb_sym j i). destruct (Nat.eqb_spec i j) as [->|]; reflexivity.
Qed.

Lemma for_range_pivot_update_symmetric n st st' :
  (forall k, symmetric n_var (task (omega st) k)) ->
  for_range n pivot_update_ st = inr st' ->
  forall k, symmetric n_var (task (omega st') k).
Proof.
  intros Hsym.
  apply (for_range_invariant (fun _ t =>
           forall k, symmetric n_var (task (omega t) k))).
  - exact Hsym.
  - intros i t t' _ IH Hb k. apply (pivot_update_symmetric i t t' k (IH k) Hb).
Qed.

Lemma sweep_symmetric n st st' :
  (forall k, symmetric n_var (task (omega st) k)) ->
  sweep_ n st = inr st' ->
  forall k, symmetric n_var (task (omega st') k).
Proof.
  unfold sweep. intros Hsym. apply for_range_pivot_update_symmetric.
  destruct (1 <=? verbose)%Z; exact Hsym.
Qed.

Lemma optimization_loop_symmetric n_iter st st' :
  (forall k, symmetric n_var (task (omega st) k)) ->
  optimization_loop_ n_iter st = inr st' ->
  forall k, symmetric n_var (task (omega st') k).
Proof.
  unfold optimization_loop. intros Hsym.
  apply (for_range_invariant (fun _ t =>
           forall k, symmetric n_var (task (omega t) k))).
  - exact Hsym.
  - intros i t t' _ IH Hb. apply (sweep_symmetric i t t' IH Hb).
Qed.

(** ** Completion when the debug checks are off and the library routines
       return *)

Lemma coordinate_step_returns p m st :
  newton_returns newton -> debug = false ->
  exists st', coordinate_step_ p m st = inr st'.
Proof.
  intros Hnewton Hd. unfold coordinate_step. rewrite Hd.
  destruct (Rle_dec _ _); [eexists; reflexivity|]. cbn [bind ret].
  match goal with
  | |- exists st', bind (or_raise _ (newton ?f ?x ?f' ?n)) _ = _ =>
      destruct (Hnewton f x f' n) as [alpha Halpha]; rewrite Halpha
  end.
  cbn [or_raise bind ret]. eexists. reflexivity.
Qed.

Lemma coordinate_loop_returns p M st :
  newton_returns newton -> debug = false ->
  exists st', for_range M (coordinate_step_ p) st = inr st'.
Proof.
  intros Hnewton Hd. apply for_range_returns. intros i t _.
  now apply coordinate_step_returns.
Qed.

Lemma pivot_enter_returns p st :
  inv_returns inv -> debug = false ->
  exists st', pivot_enter_ p st = inr st'.
Proof.
  intros Hinv Hd. unfold pivot_enter.
  assert (H : exists t, (if Nat.eqb p 0 then initial_submatrix_ st
                         else advance_submatrix_ p st) = inr t).
  { destruct (Nat.eqb p 0).
    - unfold initial_submatrix. rewrite Hd.
      match goal with
      | |- exists t, bind (for_range ?n ?b ?s) _ = _ =>
          destruct (for_range_returns n b s) as [a Ha]
      end.
      { intros i t _. cbv beta.
        match goal with
        | |- exists t', bind (or_raise _ (inv ?N ?M)) _ = _ =>
            destruct (Hinv N M) as [B HB]; rewrite HB
        end.
        simpl. eexists. reflexivity. }
      rewrite Ha. simpl. eexists. reflexivity.
    - unfold advance_submatrix. rewrite Hd.
      match goal with
      | |- exists t, bind (for_range ?n ?b ?s) _ = _ =>
          destruct (for_range_returns n b s) as [a Ha]
      end.
      { intros i [Wa Winva] _.
        destruct (update_submatrix (n_var - 1) (task (omega st) i)
                    (task Wa i) (task Winva i) p).
        simpl. eexists. reflexivity. }
      rewrite Ha. simpl. eexists. reflexivity. }
  destruct H as [t Ht]. rewrite Ht. simpl. eexists. reflexivity.
Qed.

Lemma pivot_leave_returns p st :
  debug = false -> exists st', pivot_leave_ p st = inr st'.
Proof.
  intros Hd. unfold pivot_leave. rewrite Hd.
  match goal with
  | |- exists t, bind (for_range ?n ?b ?s) _ = _ =>
      destruct (for_range_returns n b s) as [a Ha]
  end.
  { intros i t _. simpl. eexists. reflexivity. }
  rewrite Ha. simpl.
  unfold _group_sparse_covariance_cost.
  destruct return_costs; eexists; reflexivity.
Qed.

Lemma pivot_update_returns p st :
  inv_returns inv -> newton_returns newton -> debug = false ->
  exists st', pivot_update_ p st = inr st'.
Proof.
  intros Hinv Hnewton Hd. unfold pivot_update.
  destruct (pivot_enter_returns p st Hinv Hd) as [st0 H0]. rewrite H0. simpl.
  destruct (coordinate_loop_returns p (n_var - 1) st0 Hnewton Hd)
    as [st1 H1].
  rewrite H1. simpl. now apply pivot_leave_returns.
Qed.

Lemma optimization_loop_returns n_iter st :
  inv_returns inv -> newton_returns newton -> debug = false ->
  exists st', optimization_loop_ n_iter st = inr st'.
Proof.
  intros Hinv Hnewton Hd. unfold optimization_loop. apply for_range_returns.
  intros n t _. unfold sweep. apply for_range_returns.
  intros p t' _. now apply pivot_update_returns.
Qed.

(** ** The coordinate-descent pass at one pivot *)

Lemma skip_not_pivot p i : skip p i <> p.
Proof. unfold skip. destruct (Nat.ltb_spec i p); lia. Qed.

Lemma skip_back p i :
  (if skip p i <? p then skip p i else (skip p i - 1)%nat) = i.
Proof.
  unfold skip. destruct (Nat.ltb_spec i p) as [H|H].
  - destruct (Nat.ltb_spec i p); lia.
  - destruct (Nat.ltb_spec (i + 1) p); lia.
Qed.

(** After the write-back, [y] is the off-diagonal part of row and of
    column [p]. *)
Lemma copy_back_off_diagonal p (yv : rows) (o : stack) i k :
  copy_back p yv o (skip p i) p k = yv k i
  /\ copy_back p yv o p (skip p i) k = yv k i.
Proof.
  rewrite !copy_back_entry, Nat.eqb_refl.
  destruct (Nat.eqb_spec (skip p i) p) as [H|_].
  - exfalso. exact (skip_not_pivot p i H).
  - rewrite skip_back. split; reflexivity.
Qed.

(** C1: if, when the pass at pivot [p] reaches coordinate [m], the group
    norm [c2] of the per-task values [c] is at most [rho], the step sets
    [y[k][m] = 0] for every task [k], and after the write-back the entries
    of row and of column [p] at that coordinate are zero in every task's
    precision estimate. *)
Theorem shared_sparsity p m st st0 stm st' :
  (m < n_var - 1)%nat ->
  pivot_enter_ p st = inr st0 ->
  for_range m (coordinate_step_ p) st0 = inr stm ->
  coordinate_c2_ p m stm <= rho ->
  pivot_update_ p st = inr st' ->
  coordinate_c2_ p m stm
    = sqrt (dot n_tasks (coordinate_c_ p m stm) (coordinate_c_ p m stm))
  /\ (exists stm', coordinate_step_ p m stm = inr stm'
                   /\ forall k, y stm' k m = 0)
  /\ (forall k, omega st' (skip p m) p k = 0
                /\ omega st' p (skip p m) k = 0).
Proof.
  intros Hm H0 Hpre Hc2 H.
  split; [reflexivity|]. split.
  - unfold coordinate_step.
    destruct (Rle_dec _ _) as [_|Hgt]; [|contradiction].
    eexists. split; [reflexivity|]. intros k. simpl.
    rewrite Nat.eqb_refl. reflexivity.
  - intros k. apply pivot_update_inr in H.
    destruct H as (st0' & st1 & H0' & H1 & H2).
    rewrite H0 in H0'. injection H0' as <-.
    pose proof (coordinate_zero_persists p m st0 stm Hpre Hc2
                  (n_var - 1) st1 Hm H1 k) as Hzero.
    apply pivot_leave_spec in H2.
    destruct H2 as (_ & _ & _ & _ & _ & Hoff & _).
    pose proof (skip_not_pivot p m) as Hne.
    rewrite !Hoff by tauto.
    destruct (copy_back_off_diagonal p (y st1) (omega st1) m k) as [-> ->].
    split; exact Hzero.
Qed.

(** C7: after the pass at pivot [p], the diagonal entry of every task [k]
    is [1 / emp_covs[p, p, k] + y_k . Winv_k . y_k], where [y_k] is the
    updated off-diagonal part of row and column [p] and [Winv_k] the
    maintained inverse. *)
Theorem pivot_diagonal_postcondition p st st' :
  pivot_update_ p st = inr st' ->
  forall k, (k < n_tasks)%nat ->
    omega st' p p k
    = 1 / emp_covs st' p p k
      + dot (n_var - 1)
            (dot_vm (n_var - 1) (y st' k) (task (Winv st') k)) (y st' k)
    /\ (forall i, y st' k i = omega st' (skip p i) p k
                  /\ y st' k i = omega st' p (skip p i) k).
Proof.
  intros H k Hk. apply pivot_update_inr in H.
  destruct H as (st0 & st1 & _ & _ & H2).
  apply pivot_leave_spec in H2.
  destruct H2 as (He & _ & Hw & Hy & _ & Hoff & Hdiag & _).
  split.
  - rewrite (Hdiag k Hk). unfold pivot_diagonal. rewrite He, Hw, Hy.
    reflexivity.
  - intros i. pose proof (skip_not_pivot p i) as Hne.
    rewrite !Hoff by tauto. rewrite Hy.
    destruct (copy_back_off_diagonal p (y st1) (omega st1) i k) as [-> ->].
    split; reflexivity.
Qed.


End LoopProperties.

(** ** The driver *)

Lemma bind_ret_r {A : Type} (m : exn + A) : bind m ret = m.
Proof. destruct m; reflexivity. Qed.

Lemma bind_assoc {A B C : Type} (m : exn + A) (f : A -> exn + B)
      (g : B -> exn + C) :
  bind (bind m f) g = bind m (fun a => bind (f a) g).
Proof. destruct m; reflexivity. Qed.

Lemma for_range_prefix {St : Type} n (body : nat -> St -> exn + St) s s' m :
  for_range n body s = inr s' -> (m <= n)%nat ->
  exists t, for_range m body s = inr t.
Proof.
  revert s'. induction n as [|n IH]; intros s' H Hm.
  - replace m with O by lia. now exists s.
  - destruct (Nat.eq_dec m (S n)) as [->|Hne]; [now exists s'|].
    simpl in H. apply bind_inr in H. destruct H as [t [Ht _]].
    apply (IH t Ht). lia.
Qed.

Lemma assert_raises cond e : assert cond = inl e -> e = AssertionError.
Proof. unfold assert. destruct cond; [discriminate|]. now intros [= <-]. Qed.

Section DriverProperties.

Variables (n_var n_tasks : nat) (n_samples : vec) (rho : R).
Variables (verbose : Z) (return_costs debug : bool).

Local Abbreviation coordinate_step_ :=
  (coordinate_step newton n_var n_tasks n_samples rho debug).
Local Abbreviation pivot_enter_ :=
  (pivot_enter inv is_spd almost_equal n_var n_tasks verbose debug).
Local Abbreviation pivot_leave_ :=
  (pivot_leave fast_logdet is_spd n_var n_tasks n_samples rho verbose
               return_costs debug).
Local Abbreviation pivot_update_ :=
  (pivot_update inv newton fast_logdet is_spd almost_equal n_var n_tasks
                n_samples rho verbose return_costs debug).
Local Abbreviation sweep_ :=
  (sweep inv newton fast_logdet is_spd almost_equal n_var n_tasks
         n_samples rho verbose return_costs debug).
Local Abbreviation optimization_loop_ :=
  (optimization_loop inv newton fast_logdet is_spd almost_equal n_var n_tasks
                     n_samples rho verbose return_costs debug).
Local Abbreviation run_schedule_ :=
  (run_schedule inv newton fast_logdet is_spd almost_equal n_var n_tasks
                n_samples rho verbose return_costs debug).

(** What a pivot update adds to the cost trace and to the log. *)
Lemma pivot_update_counts p st st' :
  pivot_update_ p st = inr st' ->
  List.length (costs st')
  = (List.length (costs st) + if return_costs then 1 else 0)%nat
  /\ count_cd (log st')
     = (count_cd (log st) + if (2 <=? verbose)%Z then 1 else 0)%nat
  /\ count_iteration (log st') = count_iteration (log st).
Proof.
  intros H. apply pivot_update_inr in H.
  destruct H as (st0 & st1 & H0 & H1 & H2).
  apply pivot_enter_frame in H0. apply coordinate_loop_frame in H1.
  apply pivot_leave_spec in H2.
  destruct H0 as (_ & _ & C0 & L0 & _).
  destruct H1 as (_ & _ & _ & _ & _ & C1 & D1 & I1 & _).
  destruct H2 as (_ & _ & _ & _ & _ & _ & _ & C2 & D2 & I2).
  assert (Hcd : forall l q,
            count_cd (l ++ [PrintCoordinateDescent q]) = S (count_cd l)).
  { intros l q. induction l as [|[] l IH]; simpl; congruence. }
  assert (Hit : forall l q,
            count_iteration (l ++ [PrintCoordinateDescent q])
            = count_iteration l).
  { intros l q. induction l as [|[] l IH]; simpl; congruence. }
  rewrite C2, D2, I2, C1, D1, I1, C0, L0.
  destruct (2 <=? verbose)%Z; rewrite ?Hcd, ?Hit, ?app_nil_r;
    repeat split; lia.
Qed.

Lemma for_range_pivot_update_counts q st st' :
  for_range q pivot_update_ st = inr st' ->
  List.length (costs st')
  = (List.length (costs st) + q * if return_costs then 1 else 0)%nat
  /\ count_cd (log st')
     = (count_cd (log st) + q * if (2 <=? verbose)%Z then 1 else 0)%nat
  /\ count_iteration (log st') = count_iteration (log st).
Proof.
  apply (for_range_invariant (fun q t =>
    List.length (costs t)
    = (List.length (costs st) + q * if return_costs then 1 else 0)%nat
    /\ count_cd (log t)
       = (count_cd (log st) + q * if (2 <=? verbose)%Z then 1 else 0)%nat
    /\ count_iteration (log t) = count_iteration (log st))).
  - repeat split; lia.
  - intros i t t' _ (H1 & H2 & H3) Hb. apply pivot_update_counts in Hb.
    destruct Hb as (G1 & G2 & G3). rewrite G1, G2, G3, H1, H2, H3.
    repeat split; lia.
Qed.

Lemma optimization_loop_counts n_iter st st' :
  optimization_loop_ n_iter st = inr st' ->
  List.length (costs st')
  = (List.length (costs st)
     + n_iter * n_var * if return_costs then 1 else 0)%nat
  /\ count_cd (log st')
     = (count_cd (log st)
        + n_iter * n_var * if (2 <=? verbose)%Z then 1 else 0)%nat
  /\ count_iteration (log st')
     = (count_iteration (log st)
        + n_iter * if (1 <=? verbose)%Z then 1 else 0)%nat.
Proof.
  unfold optimization_loop.
  apply (for_range_invariant (fun n t =>
    List.length (costs t)
    = (List.length (costs st) + n * n_var * if return_costs then 1 else 0)%nat
    /\ count_cd (log t)
       = (count_cd (log st)
          + n * n_var * if (2 <=? verbose)%Z then 1 else 0)%nat
    /\ count_iteration (log t)
       = (count_iteration (log st)
          + n * if (1 <=? verbose)%Z then 1 else 0)%nat)).
  - repeat split; lia.
  - intros n t t' _ (H1 & H2 & H3) Hb. unfold sweep in Hb.
    apply for_range_pivot_update_counts in Hb.
    destruct Hb as (G1 & G2 & G3). rewrite G1, G2, G3.
    assert (Hcd : forall l q, count_cd (l ++ [PrintIteration q]) = count_cd l).
    { intros l q. induction l as [|[] l IH]; simpl; congruence. }
    assert (Hit : forall l q,
              count_iteration (l ++ [PrintIteration q])
              = S (count_iteration l)).
    { intros l q. induction l as [|[] l IH]; simpl; congruence. }
    destruct (1 <=? verbose)%Z; simpl; rewrite ?Hcd, ?Hit, H1, H2, H3;
      repeat split; lia.
Qed.

(** The nested loops run the pivot updates of the schedule, in its
    order. *)
Lemma run_schedule_app l1 l2 st :
  run_schedule_ (l1 ++ l2) st = bind (run_schedule_ l1 st) (run_schedule_ l2).
Proof.
  revert st. induction l1 as [|[n p] l1 IH]; intros st; simpl.
  - reflexivity.
  - rewrite bind_assoc. destruct (pivot_update_ p _); simpl; [reflexivity|].
    apply IH.
Qed.

Lemma for_range_pivot_update_schedule n q st :
  (1 <= q)%nat ->
  for_range q pivot_update_
    (if (1 <=? verbose)%Z then emit st [PrintIteration n] else st)
  = run_schedule_ (map (pair n) (seq 0 q)) st.
Proof.
  intros Hq. destruct q as [|q]; [lia|]. clear Hq.
  induction q as [|q IH].
  - simpl. rewrite bind_ret_r. reflexivity.
  - rewrite seq_S, map_app, run_schedule_app, <- IH.
    change (for_range (S (S q)) pivot_update_ ?s)
      with (bind (for_range (S q) pivot_update_ s) (pivot_update_ (S q))).
    destruct (for_range (S q) pivot_update_ _); simpl; [reflexivity|].
    rewrite bind_ret_r. reflexivity.
Qed.

Lemma optimization_loop_schedule n_iter st :
  (1 <= n_var)%nat ->
  optimization_loop_ n_iter st
  = run_schedule_ (pivot_schedule n_iter n_var) st.
Proof.
  intros Hn. unfold optimization_loop, pivot_schedule.
  induction n_iter as [|n IH]; [reflexivity|].
  rewrite seq_S, flat_map_app, run_schedule_app, <- IH. simpl.
  destruct (for_range n sweep_ st); simpl; [reflexivity|].
  rewrite app_nil_r. unfold sweep.
  apply for_range_pivot_update_schedule. exact Hn.
Qed.

(** The only exceptions of the loop are failed debug assertions and what
    the two library routines raise. *)
Lemma pivot_update_raises p st e :
  pivot_update_ p st = inl e ->
  (debug = true /\ e = AssertionError) \/ library_error inv newton e.
Proof.
  intros H. unfold pivot_update in H.
  apply bind_inl in H. destruct H as [H|[st0 [_ H]]].
  { unfold pivot_enter in H.
    apply bind_inl in H. destruct H as [H|[? [_ H]]]; [|discriminate].
    destruct (Nat.eqb p 0).
    - unfold initial_submatrix in H.
      apply bind_inl in H. destruct H as [H|[? [_ H]]]; [|discriminate].
      apply for_range_raises in H. destruct H as (i & t & _ & H).
      apply bind_inl in H. destruct H as [H|[B [_ H]]].
      { right. left. destruct (inv _ _) eqn:Hinv; [discriminate|].
        injection H as <-. eauto. }
      apply bind_inl in H. destruct H as [H|[? [_ H]]]; [|discriminate].
      destruct debug; [|discriminate]. left. split; [reflexivity|].
      apply bind_inl in H. destruct H as [H|[? [_ H]]];
        now apply assert_raises in H.
    - unfold advance_submatrix in H.
      apply bind_inl in H. destruct H as [H|[? [_ H]]].
      + apply for_range_raises in H. destruct H as (i & [Wa Winva] & _ & H).
        destruct (update_submatrix _ _ _ _ _) in H.
        apply bind_inl in H. destruct H as [H|[? [_ H]]]; [|discriminate].
        destruct debug; [|discriminate]. left. split; [reflexivity|].
        apply bind_inl in H. destruct H as [H|[? [_ H]]];
          [now apply assert_raises in H|].
        apply bind_inl in H. destruct H as [H|[? [_ H]]];
          [now apply assert_raises in H|].
        apply bind_inl in H. destruct H as [H|[? [_ H]]];
          now apply assert_raises in H.
      + apply bind_inl in H. destruct H as [H|[? [_ H]]]; [|discriminate].
        destruct debug; [|discriminate]. left. split; [reflexivity|].
        now apply assert_raises in H. }
  apply bind_inl in H. destruct H as [H|[st1 [_ H]]].
  { apply for_range_raises in H. destruct H as (i & t & _ & H).
    unfold coordinate_step in H.
    destruct (Rle_dec _ _); [discriminate|].
    apply bind_inl in H. destruct H as [H|[? [_ H]]].
    { destruct debug; [|discriminate]. left. split; [reflexivity|].
      now apply assert_raises in H. }
    apply bind_inl in H. destruct H as [H|[alpha [_ H]]].
    { right. right. destruct (newton _ _ _ _) eqn:Hnewton; [discriminate|].
      injection H as <-. eauto 8. }
    apply bind_inl in H. destruct H as [H|[? [_ H]]]; [|discriminate].
    destruct debug; [|discriminate]. left. split; [reflexivity|].
    now apply assert_raises in H. }
  unfold pivot_leave in H.
  apply bind_inl in H. destruct H as [H|[? [_ H]]].
  + apply for_range_raises in H. destruct H as (i & t & _ & H).
    apply bind_inl in H. destruct H as [H|[? [_ H]]]; [|discriminate].
    destruct debug; [|discriminate]. left. split; [reflexivity|].
    now apply assert_raises in H.
  + unfold _group_sparse_covariance_cost in H.
    destruct return_costs; discriminate.
Qed.

Lemma optimization_loop_raises n_iter st e :
  optimization_loop_ n_iter st = inl e ->
  (debug = true /\ e = AssertionError) \/ library_error inv newton e.
Proof.
  unfold optimization_loop. intros H.
  apply for_range_raises in H. destruct H as (n & t & _ & H).
  unfold sweep in H.
  apply for_range_raises in H. destruct H as (p & t' & _ & H).
  now apply pivot_update_raises in H.
Qed.

End DriverProperties.

Section IntermediateStates.

Variables (n_var n_tasks : nat) (n_samples : vec) (rho : R).
Variables (verbose : Z) (return_costs debug : bool).

Local Abbreviation pivot_update_ :=
  (pivot_update inv newton fast_logdet is_spd almost_equal n_var n_tasks
                n_samples rho verbose return_costs debug).
Local Abbreviation optimization_loop_ :=
  (optimization_loop inv newton fast_logdet is_spd almost_equal n_var n_tasks
                     n_samples rho verbose return_costs debug).
Local Abbreviation state_after_ :=
  (state_after inv newton fast_logdet is_spd almost_equal n_var n_tasks
               n_samples rho verbose return_costs debug).

(** A run that returns has passed through the state after [s] sweeps and
    [q] pivots, for every [s < n_iter] and [q <= n_var]. *)
Lemma optimization_loop_passes_through n_iter st st' s q :
  optimization_loop_ n_iter st = inr st' ->
  (s < n_iter)%nat -> (q <= n_var)%nat ->
  exists t, state_after_ s q st = inr t.
Proof.
  unfold optimization_loop, state_after. intros H Hs Hq.
  destruct (for_range_prefix _ _ _ _ (S s) H) as [t1 Ht1]; [lia|].
  simpl in Ht1. apply bind_inr in Ht1. destruct Ht1 as [t0 [Ht0 Hsw]].
  unfold optimization_loop. rewrite Ht0. simpl.
  unfold sweep in Hsw.
  apply (for_range_prefix _ _ _ _ q Hsw Hq).
Qed.

Lemma state_after_symmetric s q st t :
  (forall k, symmetric n_var (task (omega st) k)) ->
  state_after_ s q st = inr t ->
  forall k, symmetric n_var (task (omega t) k).
Proof.
  unfold state_after. intros Hsym H.
  apply bind_inr in H. destruct H as [t0 [Ht0 H]].
  pose proof (optimization_loop_symmetric n_var n_tasks n_samples rho verbose
                return_costs debug s st t0 Hsym Ht0) as Hsym0.
  revert H. apply for_range_pivot_update_symmetric.
  destruct (1 <=? verbose)%Z; exact Hsym0.
Qed.

End IntermediateStates.

(** ** The whole call *)

Lemma pivot_schedule_length n_iter n_var :
  List.length (pivot_schedule n_iter n_var) = (n_iter * n_var)%nat.
Proof.
  unfold pivot_schedule. induction n_iter as [|n IH]; [reflexivity|].
  rewrite seq_S, flat_map_app, length_app, IH. simpl.
  rewrite app_nil_r, length_map, length_seq. lia.
Qed.

Lemma pivot_schedule_in n_iter n_var n p :
  In (n, p) (pivot_schedule n_iter n_var)
  <-> (n < n_iter)%nat /\ (p < n_var)%nat.
Proof.
  unfold pivot_schedule. rewrite in_flat_map. split.
  - intros [a [Ha Hin]]. apply in_map_iff in Hin.
    destruct Hin as [b [[= <- <-] Hb]]. apply in_seq in Ha, Hb. lia.
  - intros [Hn Hp]. exists n. split; [apply in_seq; lia|].
    apply in_map. apply in_seq. lia.
Qed.

Lemma preallocate_enough n_var n_tasks :
  (2 <= n_var)%nat -> preallocate n_var n_tasks = inr tt.
Proof.
  intros H. unfold preallocate, np_ndarray. cbn [forallb].
  repeat match goal with
         | |- context [(0 <=? ?x)%Z] =>
             destruct (Z.leb_spec 0 x); [|lia]
         end.
  reflexivity.
Qed.

Lemma preallocate_too_few n_var n_tasks :
  (n_var < 2)%nat ->
  preallocate n_var n_tasks
  = inl (ValueError "negative dimensions are not allowed").
Proof.
  intros H. unfold preallocate, np_ndarray. cbn [forallb].
  destruct (Z.leb_spec 0 (Z.of_nat n_tasks)); [|lia].
  destruct (Z.leb_spec 0 (Z.of_nat n_var - 1)); cbn [andb bind ret raise];
    [|reflexivity].
  destruct (Z.leb_spec 0 (Z.of_nat n_var - 2)); [lia|]. reflexivity.
Qed.

Lemma build_emp_covs_raises l n_var assume_centered debug e :
  build_emp_covs empirical_covariance is_spd l n_var assume_centered debug
    = inl e ->
  debug = true /\ e = AssertionError.
Proof.
  unfold build_emp_covs. intros H.
  apply for_range_raises in H. destruct H as (i & t & _ & H).
  apply bind_inl in H. destruct H as [H|[? [_ H]]]; [|discriminate].
  destruct debug; [|discriminate]. split; [reflexivity|].
  now apply assert_raises in H.
Qed.

(** A call that returns has passed the checks, built the covariances,
    allocated the work arrays and run the loop to its end. *)
Lemma group_sparse_covariance_inr signals rho_arg n_iter assume_centered
      verbose_arg return_costs_arg debug_arg out :
  group_sparse_covariance empirical_covariance inv newton fast_logdet
    is_spd almost_equal signals rho_arg n_iter assume_centered
    verbose_arg return_costs_arg debug_arg = inr out ->
  exists r s l E st',
    number_of rho_arg = Some r /\ 0 <= r
    /\ signals = Iterable (s :: l) /\ same_features (s :: l)
    /\ build_emp_covs empirical_covariance is_spd (s :: l) (shape1 s)
         assume_centered debug_arg = inr E
    /\ preallocate (shape1 s) (List.length (s :: l)) = inr tt
    /\ optimization_loop inv newton fast_logdet is_spd almost_equal
         (shape1 s) (List.length (s :: l)) (sample_weights (s :: l)) r
         verbose_arg return_costs_arg debug_arg n_iter (initial_state E)
       = inr st'
    /\ out = mk_output (emp_covs st') (omega st')
               (if return_costs_arg then Some (costs st') else None)
               (log st').
Proof.
  unfold group_sparse_covariance. intros H.
  apply bind_inr in H. destruct H as [r [Hr H]].
  apply bind_inr in H. destruct H as [l0 [Hl H]].
  apply bind_inr in H. destruct H as [? [Hf H]].
  apply bind_inr in H. destruct H as [nv [Hnv H]].
  apply bind_inr in H. destruct H as [E [HE H]].
  apply bind_inr in H. destruct H as [[] [Hpre H]].
  apply bind_inr in H. destruct H as [st' [Hloop H]].
  destruct (number_of rho_arg) as [r0|] eqn:Hnum; [|discriminate].
  destruct (Rlt_dec r0 0) as [|Hge]; [discriminate|]. injection Hr as ->.
  destruct signals as [|l1]; [discriminate|]. injection Hl as ->.
  destruct (1 <? _)%nat eqn:Hchk; [discriminate|].
  apply same_features_check in Hchk.
  destruct l0 as [|s l]; [discriminate|]. injection Hnv as <-.
  exists r, s, l, E, st'.
  repeat split; try assumption; try reflexivity; try lra.
  destruct return_costs_arg; injection H as <-; reflexivity.
Qed.

Lemma validation_cases signals rho_arg n_iter assume_centered verbose
      return_costs debug :
  let run := group_sparse_covariance empirical_covariance inv newton
               fast_logdet is_spd almost_equal signals rho_arg n_iter
               assume_centered verbose return_costs debug in
  (~ rho_accepted rho_arg
   /\ run = inl (ValueError
              "Regularization parameter rho must be a positive number."))
  \/ (rho_accepted rho_arg /\ signals = NotIterable
      /\ run = inl (ValueError
                 "'signals' input argument must be an iterable."))
  \/ (rho_accepted rho_arg
      /\ (exists l, signals = Iterable l /\ ~ same_features l)
      /\ run = inl (ValueError
                 "All tasks must have the same number of features."))
  \/ (passes_validation signals rho_arg
      /\ forall e, run = inl e -> ~ validation_error e).
Proof.
  unfold group_sparse_covariance. cbv zeta.
  destruct (number_of rho_arg) as [r|] eqn:Hnum.
  2:{ left. split; [|reflexivity]. intros [r [Hr _]]. congruence. }
  pose proof (rho_accepted_number rho_arg r Hnum) as Hacc.
  destruct (Rlt_dec r 0) as [Hneg|Hpos].
  { left. split; [|reflexivity]. intros H. apply Hacc in H. lra. }
  assert (Hrho : rho_accepted rho_arg) by (apply Hacc; lra).
  right.
  destruct signals as [|l]; [left; split; [exact Hrho|split; reflexivity]|].
  right. cbn [bind ret].
  destruct (1 <? List.length (nodup Nat.eq_dec (map shape1 l)))%nat eqn:Hchk.
  { left. split; [exact Hrho|]. split; [|reflexivity].
    exists l. split; [reflexivity|]. intros Hs.
    apply same_features_check in Hs. congruence. }
  right. apply same_features_check in Hchk. split.
  { split; [exact Hrho|]. exists l. split; [reflexivity|exact Hchk]. }
  intros e He [Hv|[Hv|Hv]]; subst e; cbn [bind ret] in He;
    (destruct l as [|s l]; [discriminate|]); cbn [bind ret] in He;
    (apply bind_inl in He; destruct He as [He|[E [_ He]]];
     [apply build_emp_covs_raises in He; destruct He; discriminate|]);
    (apply bind_inl in He; destruct He as [He|[[] [_ He]]];
     [destruct (Nat.le_gt_cases 2 (shape1 s)) as [H2|H2];
      [rewrite (preallocate_enough _ _ H2) in He
      |rewrite (preallocate_too_few _ _ H2) in He]; discriminate|]);
    (apply bind_inl in He; destruct He as [He|[st' [_ He]]];
     [apply optimization_loop_raises in He;
      destruct He as [[_ He]|[[He _]|[He _]]]; discriminate|]);
    destruct return_costs; discriminate.
Qed.

(** C5: [group_sparse_covariance] raises its [ValueError] when [rho] is
    not a non-negative number, when [signals] is not iterable, and when
    two tasks differ in their number of columns; an input that passes the
    three checks raises none of these errors.  The three errors do not
    depend on the covariance estimator, the inversion or the root-finder:
    they are raised before any of them is called. *)
Theorem validation_errors signals rho_arg n_iter assume_centered verbose
        return_costs debug :
  let run := group_sparse_covariance empirical_covariance inv newton
               fast_logdet is_spd almost_equal signals rho_arg n_iter
               assume_centered verbose return_costs debug in
  (~ rho_accepted rho_arg ->
   run = inl (ValueError
           "Regularization parameter rho must be a positive number."))
  /\ (rho_accepted rho_arg -> signals = NotIterable ->
      run = inl (ValueError "'signals' input argument must be an iterable."))
  /\ (rho_accepted rho_arg ->
      forall l, signals = Iterable l -> ~ same_features l ->
      run = inl (ValueError
              "All tasks must have the same number of features."))
  /\ (passes_validation signals rho_arg ->
      forall e, run = inl e -> ~ validation_error e)
  /\ ((exists e, run = inl e /\ validation_error e)
      <-> ~ passes_validation signals rho_arg).
Proof.
  intros run.
  pose proof (validation_cases signals rho_arg n_iter assume_centered verbose
                return_costs debug) as Hcases.
  fold run in Hcases.
  assert (H1 : ~ rho_accepted rho_arg ->
    run = inl (ValueError
            "Regularization parameter rho must be a positive number.")).
  { intros Hn.
    destruct Hcases as [[_ H]|[[Hr _]|[[Hr _]|[[Hr _] _]]]];
      [exact H | contradiction | contradiction | contradiction]. }
  assert (H2 : rho_accepted rho_arg -> signals = NotIterable ->
    run = inl (ValueError "'signals' input argument must be an iterable.")).
  { intros Hr Hs.
    destruct Hcases as [[Hn _]|[[_ [_ H]]|[[_ [[l [Hl _]] _]]|[[_ [l [Hl _]]] _]]]];
      [contradiction | exact H | congruence | congruence]. }
  assert (H3 : rho_accepted rho_arg ->
    forall l, signals = Iterable l -> ~ same_features l ->
    run = inl (ValueError
            "All tasks must have the same number of features.")).
  { intros Hr l Hl Hns.
    destruct Hcases as [[Hn _]|[[_ [Hs _]]|[[_ [_ H]]|[[_ [l' [Hl' Hs']]] _]]]];
      [contradiction | congruence | exact H |].
    rewrite Hl in Hl'. injection Hl' as <-. contradiction. }
  assert (H4 : passes_validation signals rho_arg ->
    forall e, run = inl e -> ~ validation_error e).
  { intros Hp e He.
    destruct Hcases as [[Hn _]|[[_ [Hs _]]|[[_ [[l [Hl Hns]] _]]|[_ H]]]].
    - destruct Hp. contradiction.
    - destruct Hp as [_ [l [Hl _]]]. congruence.
    - destruct Hp as [_ [l' [Hl' Hs']]]. rewrite Hl in Hl'.
      injection Hl' as <-. contradiction.
    - exact (H e He). }
  split; [exact H1|]. split; [exact H2|]. split; [exact H3|].
  split; [exact H4|]. split.
  - intros [e [He Hv]] Hp. exact (H4 Hp e He Hv).
  - intros Hnp.
    destruct Hcases as [[_ H]|[[_ [_ H]]|[[_ [_ H]]|[Hp _]]]];
      [| | |contradiction]; eexists; (split; [exact H|]);
      unfold validation_error; tauto.
Qed.

(** C9: the empirical covariances are written by the construction only:
    no pivot update and no run of the optimisation loop changes
    [emp_covs], and what [group_sparse_covariance] returns as [emp_covs]
    is what the construction produced. *)
Theorem emp_covs_read_only :
  (forall n_var n_tasks n_samples rho verbose return_costs debug p st st',
     pivot_update inv newton fast_logdet is_spd almost_equal n_var n_tasks
       n_samples rho verbose return_costs debug p st = inr st' ->
     emp_covs st' = emp_covs st)
  /\ (forall n_var n_tasks n_samples rho verbose return_costs debug n_iter
             st st',
        optimization_loop inv newton fast_logdet is_spd almost_equal n_var
          n_tasks n_samples rho verbose return_costs debug n_iter st
          = inr st' ->
        emp_covs st' = emp_covs st)
  /\ (forall signals rho_arg n_iter assume_centered verbose return_costs
             debug out,
        group_sparse_covariance empirical_covariance inv newton fast_logdet
          is_spd almost_equal signals rho_arg n_iter assume_centered verbose
          return_costs debug = inr out ->
        exists s l E,
          signals = Iterable (s :: l)
          /\ build_emp_covs empirical_covariance is_spd (s :: l) (shape1 s)
               assume_centered debug = inr E
          /\ out_emp_covs out = E).
Proof.
  split; [|split].
  - intros * H. now apply pivot_update_emp_covs in H.
  - intros * H. now apply optimization_loop_emp_covs in H.
  - intros * H. apply group_sparse_covariance_inr in H.
    destruct H as (r & s & l & E & st' & _ & _ & Hs & _ & HE & _ & Hloop & ->).
    exists s, l, E. split; [exact Hs|]. split; [exact HE|].
    apply optimization_loop_emp_covs in Hloop. exact Hloop.
Qed.

(** C4: a pivot update keeps every task's precision estimate symmetric:
    it writes the vector [y] into row [p] and into column [p] alike (the
    off-diagonal entries), sets the diagonal entry [p, p], and leaves every
    other cell as it was.  The initial estimates are symmetric; hence the
    estimates are symmetric in every state a run passes through (after any
    number of complete sweeps and of pivot updates of the next sweep) and
    in what [group_sparse_covariance] returns. *)
Theorem precision_estimates_symmetric :
  (forall n_var n_tasks n_samples rho verbose return_costs debug p st st' k,
     symmetric n_var (task (omega st) k) ->
     pivot_update inv newton fast_logdet is_spd almost_equal n_var n_tasks
       n_samples rho verbose return_costs debug p st = inr st' ->
     symmetric n_var (task (omega st') k))
  /\ (forall n_var n_tasks n_samples rho verbose return_costs debug p st st',
        pivot_update inv newton fast_logdet is_spd almost_equal n_var n_tasks
          n_samples rho verbose return_costs debug p st = inr st' ->
        (forall i k, omega st' (skip p i) p k = y st' k i
                     /\ omega st' p (skip p i) k = y st' k i)
        /\ (forall k, (k < n_tasks)%nat ->
              omega st' p p k = pivot_diagonal n_var p k st')
        /\ (forall i j k, i <> p -> j <> p ->
              omega st' i j k = omega st i j k))
  /\ (forall n_var n_tasks n_samples rho verbose return_costs debug n_iter
             E st' s q,
        optimization_loop inv newton fast_logdet is_spd almost_equal n_var
          n_tasks n_samples rho verbose return_costs debug n_iter
          (initial_state E) = inr st' ->
        (s < n_iter)%nat -> (q <= n_var)%nat ->
        exists t,
          state_after inv newton fast_logdet is_spd almost_equal n_var
            n_tasks n_samples rho verbose return_costs debug s q
            (initial_state E) = inr t
          /\ forall k, symmetric n_var (task (omega t) k))
  /\ (forall signals rho_arg n_iter assume_centered verbose return_costs
             debug out,
        group_sparse_covariance empirical_covariance inv newton fast_logdet
          is_spd almost_equal signals rho_arg n_iter assume_centered verbose
          return_costs debug = inr out ->
        exists s l,
          signals = Iterable (s :: l)
          /\ forall k, symmetric (shape1 s) (task (out_omega out) k)).
Proof.
  split; [|split; [|split]].
  - intros * Hsym H. exact (pivot_update_symmetric _ _ _ _ _ _ _ _ _ _ _ Hsym H).
  - intros * H. apply pivot_update_omega in H.
    destruct H as (st1 & (Hleave & _ & _) & Hoff & Hdiag).
    apply pivot_leave_spec in Hleave.
    destruct Hleave as (He & _ & Hw & Hy & _).
    split; [|split].
    + intros i k. pose proof (skip_not_pivot p i) as Hne.
      rewrite !Hoff by tauto. rewrite Hy.
      exact (copy_back_off_diagonal p (y st1) (omega st) i k).
    + intros k Hk. rewrite (Hdiag k Hk). unfold pivot_diagonal.
      rewrite He, Hw, Hy. reflexivity.
    + intros i j k Hi Hj. rewrite Hoff by tauto. rewrite copy_back_entry.
      destruct (Nat.eqb_spec i p); [contradiction|].
      destruct (Nat.eqb_spec j p); [contradiction|]. reflexivity.
  - intros * H Hs Hq.
    destruct (optimization_loop_passes_through _ _ _ _ _ _ _ _ _ _ _ _
                H Hs Hq) as [t Ht].
    exists t. split; [exact Ht|].
    apply (state_after_symmetric n_var n_tasks n_samples rho verbose
             return_costs debug s q (initial_state E) t
             (initial_omega_symmetric n_var E) Ht).
  - intros * H. apply group_sparse_covariance_inr in H.
    destruct H as (r & s & l & E & st' & _ & _ & Hs & _ & _ & _ & Hloop & ->).
    exists s, l. split; [exact Hs|]. simpl.
    apply (optimization_loop_symmetric _ _ _ _ _ _ _ _ (initial_state E) st'
             (initial_omega_symmetric (shape1 s) E) Hloop).
Qed.


End CollaboratorProperties.

(** * Runs on concrete inputs *)

Lemma signals_two_tasks_same_features : same_features signals_two_tasks.
Proof.
  intros s1 s2 H1 H2. simpl in H1, H2.
  destruct H1 as [<-|[<-|[]]]; destruct H2 as [<-|[<-|[]]]; reflexivity.
Qed.

(** ** The stand-ins for the library routines *)

Lemma inv_diagonal_returns : inv_returns inv_diagonal.
Proof. intros N M. eexists. reflexivity. Qed.

Lemma newton_found_returns alpha : newton_returns (newton_found alpha).
Proof. intros func x0 fprime maxiter. exists alpha. reflexivity. Qed.

(** scipy's iteration returns after its first step when that step is
    shorter than the tolerance. *)
Lemma newton_raphson_first_step func p0 fprime k :
  fprime p0 <> 0 ->
  Rabs (p0 - func p0 / fprime p0 - p0) < newton_tol ->
  newton_raphson func p0 fprime (S k) = Some (p0 - func p0 / fprime p0).
Proof.
  intros Hder Hstep. cbn [newton_raphson].
  destruct (Req_dec_T (fprime p0) 0) as [H|_]; [contradiction|].
  destruct (Rlt_dec _ _) as [_|H]; [reflexivity|contradiction].
Qed.

(** It runs out of steps, whatever their number, when from every
    non-negative iterate the step goes right by the tolerance or more. *)
Lemma newton_raphson_runs_out func fprime maxiter p0 :
  (forall a, 0 <= a ->
     fprime a <> 0 /\ newton_tol <= - (func a / fprime a)) ->
  0 <= p0 -> newton_raphson func p0 fprime maxiter = None.
Proof.
  intros Hstep. revert p0.
  induction maxiter as [|k IH]; intros p0 Hp0; [reflexivity|].
  cbn [newton_raphson]. destruct (Hstep p0 Hp0) as [Hder Hlong].
  destruct (Req_dec_T _ _) as [H|_]; [contradiction|].
  assert (Htol : 0 < newton_tol) by (unfold newton_tol; lra).
  destruct (Rlt_dec _ _) as [H|_].
  - exfalso.
    replace (p0 - func p0 / fprime p0 - p0)
      with (- (func p0 / fprime p0)) in H by ring.
    rewrite Rabs_pos_eq in H by lra. lra.
  - apply IH. lra.
Qed.

(** ** A root-find that runs out *)

(** With one task and [rho = 0] the equation has no root.  On a
    coordinate with [c <> 0] and [0 < q <= 1] every Newton step is at
    least 1/2 long: scipy's iteration runs out and the step raises. *)
Lemma coordinate_step_runs_out n_var n_samples p m st :
  coordinate_c n_var n_samples p m st 0%nat <> 0 ->
  0 < n_samples 0%nat * emp_covs st p p 0%nat * Winv st m m 0%nat <= 1 ->
  ~ coordinate_c2 n_var 1 n_samples p m st <= 0
  /\ coordinate_step newton_raphson n_var 1 n_samples 0 false p m st
     = inl RuntimeError.
Proof.
  intros Hc Hq.
  assert (Hgt : ~ coordinate_c2 n_var 1 n_samples p m st <= 0).
  { unfold coordinate_c2, dot. cbn [rsum].
    set (c := coordinate_c n_var n_samples p m st 0%nat) in *.
    assert (0 < sqrt (0 + c * c)); [|lra].
    apply sqrt_lt_R0. destruct (Rtotal_order c 0) as [H|[H|H]]; nra. }
  split; [exact Hgt|].
  unfold coordinate_step.
  destruct (Rle_dec _ _) as [Hle|_]; [contradiction|]. cbn [bind ret].
  rewrite newton_raphson_runs_out; [reflexivity| |lra].
  intros a Ha. unfold quad_trust_region, quad_trust_region_deriv.
  cbn [rsum].
  set (c := coordinate_c n_var n_samples p m st 0%nat) in *.
  set (q := n_samples 0%nat * emp_covs st p p 0%nat * Winv st m m 0%nat)
    in *.
  assert (Hpos : 0 < 1 + a * q) by nra.
  split.
  - replace (0 + 2 * (c * c) * q / (1 + a * q) ^ 3)
      with (2 * q * (c * c) * / (1 + a * q) ^ 3) by (field; lra).
    assert (0 < c * c) by (destruct (Rtotal_order c 0) as [H|[H|H]]; nra).
    assert (0 < / (1 + a * q) ^ 3).
    { apply Rinv_0_lt_compat. apply pow_lt. exact Hpos. }
    assert (0 < 2 * q * (c * c)) by nra.
    nra.
  - replace (- ((0 ^ 2 - (0 + c * c / (1 + a * q) ^ 2))
                / (0 + 2 * (c * c) * q / (1 + a * q) ^ 3)))
      with ((1 + a * q) / (2 * q)) by (field; repeat split; lra).
    apply Rle_trans with (1 / 2); [unfold newton_tol; lra|].
    apply Rmult_le_reg_r with (2 * q); [lra|].
    unfold Rdiv. rewrite (Rmult_assoc (1 + a * q)), Rinv_l by lra. nra.
Qed.

(** An exception of the first turn is the exception of the loop. *)
Lemma for_range_first_raises {St : Type} n (body : nat -> St -> exn + St)
      s e :
  body 0%nat s = inl e -> for_range (S n) body s = inl e.
Proof.
  intros H. induction n as [|n IH]; [exact H|].
  change (for_range (S (S n)) body s)
    with (bind (for_range (S n) body s) (body (S n))).
  rewrite IH. reflexivity.
Qed.

(** The one-task input [signals_correlated] with [rho = 0]: the first
    root-find of the first pivot update runs out, and the call raises
    scipy's RuntimeError. *)
Lemma correlated_run_raises n_iter verbose return_costs :
  group_sparse_covariance uncentered_covariance inv_diagonal newton_raphson
    logdet_diagonal positive_diagonal equal_cells
    (Iterable signals_correlated) (PyInt 0) (S n_iter) true verbose
    return_costs false
  = inl RuntimeError.
Proof.
  unfold group_sparse_covariance. cbn [number_of].
  destruct (Rlt_dec 0 0) as [H|_]; [lra|]. cbn [bind ret].
  change (1 <? List.length (nodup Nat.eq_dec (map shape1 signals_correlated)))%nat
    with false.
  cbn [bind ret signals_correlated shape1 List.length].
  destruct (build_emp_covs_returns uncentered_covariance positive_diagonal
              signals_correlated 2 true) as [E HE].
  fold signals_correlated. rewrite HE. cbn [bind ret].
  rewrite preallocate_enough by lia. cbn [bind ret].
  pose proof (build_emp_covs_entries _ _ _ _ _ _ _ HE 0%nat
                ltac:(simpl; lia)) as HE0.
  assert (E00 : E 0%nat 0%nat 0%nat = 1).
  { rewrite HE0.
    cbv [symmetrize transpose uncentered_covariance signals_correlated nth
         shape0 data mat_of_list rsum INR]. field. }
  assert (E10 : E 1%nat 0%nat 0%nat = 1 / 2).
  { rewrite HE0.
    cbv [symmetrize transpose uncentered_covariance signals_correlated nth
         shape0 data mat_of_list rsum INR]. field. }
  assert (E11 : E 1%nat 1%nat 0%nat = 1 / 2).
  { rewrite HE0.
    cbv [symmetrize transpose uncentered_covariance signals_correlated nth
         shape0 data mat_of_list rsum INR]. field. }
  assert (Hw : sample_weights signals_correlated 0%nat = 1).
  { cbv [sample_weights signals_correlated List.length Nat.sub vmax nth
         shape0 INR]. field. }
  assert (Hpu :
    pivot_update inv_diagonal newton_raphson logdet_diagonal
      positive_diagonal equal_cells 2 1 (sample_weights signals_correlated)
      0 verbose return_costs false 0
      (if (1 <=? verbose)%Z
       then emit (initial_state E) [PrintIteration 0]
       else initial_state E)
    = inl RuntimeError).
  { set (st := if (1 <=? verbose)%Z
               then emit (initial_state E) [PrintIteration 0]
               else initial_state E).
    assert (Hst : emp_covs st = E /\ omega st = initial_omega E).
    { unfold st. destruct (1 <=? verbose)%Z; split; reflexivity. }
    destruct Hst as [Hemp Hom].
    unfold pivot_update.
    destruct (pivot_enter_returns inv_diagonal positive_diagonal equal_cells
                2 1 verbose false 0 st inv_diagonal_returns eq_refl)
      as [st0 H0].
    rewrite H0. cbn [bind Nat.sub].
    rewrite (for_range_first_raises 0 _ st0 RuntimeError); [reflexivity|].
    destruct (pivot_enter_frame _ _ _ _ _ _ _ _ _ _ H0)
      as (He0 & _ & _ & _ & _ & Hu).
    assert (HWinv : Winv st0 0%nat 0%nat 0%nat = 1 / 2).
    { unfold pivot_enter, initial_submatrix in H0.
      cbn [Nat.eqb for_range bind ret or_raise inv_diagonal] in H0.
      destruct (2 <=? verbose)%Z; injection H0 as <-;
        cbn [Winv emit set_u set_y set_Winv set_W set_task task Nat.eqb
             Nat.add];
        rewrite Hom; unfold initial_omega, task; cbn [Nat.eqb Nat.add];
        rewrite E11; field. }
    apply coordinate_step_runs_out.
    - unfold coordinate_c. cbn [Nat.sub rsum]. rewrite Hu, Hw, Hemp.
      cbn [Nat.ltb Nat.leb Nat.add]. rewrite E10. lra.
    - rewrite Hw, He0, Hemp, E00, HWinv. lra. }
  unfold optimization_loop.
  rewrite (for_range_first_raises n_iter _ (initial_state E) RuntimeError);
    [reflexivity|].
  unfold sweep.
  rewrite (for_range_first_raises 1 _ _ RuntimeError); [reflexivity|].
  exact Hpu.
Qed.

(** ** A pivot update that solves for a non-zero entry *)

(** At pivot 0 of [state_correlated] with [rho = 1/4], [c = -1/2] and
    [q = 1]: the root of the equation is 1 and the update writes
    [y = -1/4]. *)
Lemma state_correlated_pivot_update st' :
  pivot_update inv_diagonal (newton_found 1) logdet_diagonal
    positive_diagonal equal_cells 2 1 (fun _ => 1) (1 / 4) 0%Z false false 0
    state_correlated = inr st' ->
  y st' 0%nat 0%nat = - (1 / 4)
  /\ Winv st' 0%nat 0%nat 0%nat = 1
  /\ emp_covs st' 0%nat 0%nat 0%nat = 1.
Proof.
  intros H. apply pivot_update_inr in H.
  destruct H as (st0 & st1 & H0 & H1 & H2).
  unfold pivot_enter, initial_submatrix in H0.
  change (2 <=? 0)%Z with false in H0.
  cbn [Nat.eqb for_range bind ret or_raise inv_diagonal] in H0.
  injection H0 as <-.
  cbn [Nat.sub for_range bind ret] in H1.
  unfold coordinate_step in H1.
  match type of H1 with
  | context [Rle_dec ?a ?b] => destruct (Rle_dec a b) as [Hle|_]
  end.
  { exfalso. unfold coordinate_c2, coordinate_c, dot in Hle.
    cbn [rsum Nat.sub emp_covs u y Winv set_u set_y set_Winv set_W
         state_correlated Nat.eqb Nat.ltb Nat.leb Nat.add] in Hle.
    match type of Hle with
    | sqrt ?x <= _ =>
        replace x with ((1 / 2) * (1 / 2)) in Hle by field
    end.
    rewrite sqrt_square in Hle by lra. lra. }
  cbn [bind ret or_raise newton_found] in H1.
  apply pivot_leave_spec in H2.
  destruct H2 as (He & _ & Hw & Hy & _).
  rewrite He, Hw, Hy.
  match type of H1 with
  | context [Rlt_dec ?a ?b] => destruct (Rlt_dec a b)
  end; injection H1 as <-;
    unfold coordinate_c;
    cbn [rsum Nat.sub emp_covs u y Winv emit set_u set_y set_Winv set_W
         set_task task omega state_correlated Nat.eqb Nat.ltb Nat.leb
         Nat.add eye];
    (split; [field|split; [field|reflexivity]]).
Qed.

(** On entry to pivot 0 of [state_two_tasks], [c = -1/2] in both tasks:
    the group norm is below [rho = 1]. *)
Lemma state_two_tasks_thresholded st0 :
  pivot_enter inv_diagonal positive_diagonal equal_cells 2 2 0%Z false 0
    state_two_tasks = inr st0 ->
  coordinate_c2 2 2 (fun _ => 1) 0 0 st0 <= 1.
Proof.
  intros H0.
  destruct (pivot_enter_frame _ _ _ _ _ _ _ _ _ _ H0)
    as (_ & _ & _ & _ & _ & Hu).
  unfold coordinate_c2, coordinate_c, dot. cbn [rsum Nat.sub].
  rewrite !Hu.
  cbn [Nat.ltb Nat.leb Nat.add emp_covs state_two_tasks Nat.eqb].
  match goal with
  | |- sqrt ?x <= 1 => replace x with (1 / 2) by field
  end.
  rewrite <- sqrt_1 at 2. apply sqrt_le_1_alt. lra.
Qed.

Lemma state_two_tasks_symmetric k :
  symmetric 2 (task (omega state_two_tasks) k).
Proof.
  intros i j _ _. unfold task, state_two_tasks. cbn [omega].
  rewrite (Nat.eqb_sym j i). reflexivity.
Qed.

(** ** The properties on these inputs *)

Lemma shared_sparsity_witness :
  omega state_two_tasks 1%nat 0%nat 0%nat = 3 / 10
  /\ exists st',
       pivot_update inv_diagonal (newton_found 1) logdet_diagonal
         positive_diagonal equal_cells 2 2 (fun _ => 1) 1 0%Z false false 0
         state_two_tasks
       = inr st'
       /\ forall k, omega st' 1%nat 0%nat k = 0 /\ omega st' 0%nat 1%nat k = 0.
Proof.
  split; [reflexivity|].
  destruct (pivot_enter_returns inv_diagonal positive_diagonal equal_cells
              2 2 0%Z false 0 state_two_tasks inv_diagonal_returns eq_refl)
    as [st0 H0].
  destruct (pivot_update_returns inv_diagonal (newton_found 1)
              logdet_diagonal positive_diagonal equal_cells 2 2 (fun _ => 1)
              1 0%Z false false 0 state_two_tasks inv_diagonal_returns
              (newton_found_returns 1) eq_refl) as [st' H'].
  exists st'. split; [exact H'|].
  exact (proj2 (proj2 (shared_sparsity inv_diagonal (newton_found 1)
           logdet_diagonal positive_diagonal equal_cells 2 2 (fun _ => 1) 1
           0%Z false false 0 0 state_two_tasks st0 st0 st'
           ltac:(simpl; lia) H0 eq_refl
           (state_two_tasks_thresholded st0 H0) H'))).
Defined.

Lemma pivot_diagonal_postcondition_witness :
  exists st',
    pivot_update inv_diagonal (newton_found 1) logdet_diagonal
      positive_diagonal equal_cells 2 1 (fun _ => 1) (1 / 4) 0%Z false false
      0 state_correlated
    = inr st'
    /\ y st' 0%nat 0%nat = - (1 / 4)
    /\ omega st' 0%nat 0%nat 0%nat
       = 1 / emp_covs st' 0%nat 0%nat 0%nat
         + dot 1 (dot_vm 1 (y st' 0%nat) (task (Winv st') 0)) (y st' 0%nat)
    /\ omega st' 0%nat 0%nat 0%nat = 17 / 16.
Proof.
  destruct (pivot_update_returns inv_diagonal (newton_found 1)
              logdet_diagonal positive_diagonal equal_cells 2 1 (fun _ => 1)
              (1 / 4) 0%Z false false 0 state_correlated
              inv_diagonal_returns (newton_found_returns 1) eq_refl)
    as [st' H'].
  exists st'. split; [exact H'|].
  destruct (state_correlated_pivot_update st' H') as (Hy & Hw & He).
  split; [exact Hy|].
  pose proof (proj1 (pivot_diagonal_postcondition inv_diagonal
                (newton_found 1) logdet_diagonal positive_diagonal
                equal_cells 2 1 (fun _ => 1) (1 / 4) 0%Z false false 0
                state_correlated st' H' 0%nat ltac:(lia))) as Hdiag.
  split; [exact Hdiag|].
  rewrite Hdiag. cbv [dot dot_vm task rsum Nat.sub].
  rewrite He, Hy, Hw. field.
Defined.



Lemma emp_covs_symmetrized_witness :
  exists E,
    build_emp_covs uncentered_covariance positive_diagonal signals_two_tasks
      2 true false = inr E
    /\ forall k, (k < 2)%nat -> forall i j, E i j k = E j i k.
Proof.
  destruct (proj2 (emp_covs_symmetrized uncentered_covariance
              positive_diagonal signals_two_tasks 2 true false) eq_refl)
    as [E HE].
  exists E. split; [exact HE|]. intros k Hk i j.
  exact (proj2 (proj1 (emp_covs_symmetrized uncentered_covariance
           positive_diagonal signals_two_tasks 2 true false) E HE k Hk i j)).
Defined.

Lemma validation_errors_witness :
  group_sparse_covariance uncentered_covariance inv_diagonal newton_raphson
    logdet_diagonal positive_diagonal equal_cells
    (Iterable signals_two_tasks) (PyInt (-1)) 10 false 0 false false
  = inl (ValueError
           "Regularization parameter rho must be a positive number.").
Proof.
  apply (proj1 (validation_errors uncentered_covariance inv_diagonal
           newton_raphson logdet_diagonal positive_diagonal equal_cells
           (Iterable signals_two_tasks) (PyInt (-1)) 10 false 0 false false)).
  intros [r [Hr Hge]]. simpl in Hr. injection Hr as <-. lra.
Defined.

Lemma precision_estimates_symmetric_witness :
  exists st',
    pivot_update inv_diagonal (newton_found 1) logdet_diagonal
      positive_diagonal equal_cells 2 1 (fun _ => 1) (1 / 4) 0%Z false false
      0 state_correlated
    = inr st'
    /\ symmetric 2 (task (omega st') 0)
    /\ omega st' 1%nat 0%nat 0%nat = - (1 / 4)
    /\ omega st' 0%nat 1%nat 0%nat = - (1 / 4)
    /\ omega st' 1%nat 1%nat 0%nat = omega state_correlated 1%nat 1%nat 0%nat.
Proof.
  destruct (pivot_update_returns inv_diagonal (newton_found 1)
              logdet_diagonal positive_diagonal equal_cells 2 1 (fun _ => 1)
              (1 / 4) 0%Z false false 0 state_correlated
              inv_diagonal_returns (newton_found_returns 1) eq_refl)
    as [st' H'].
  exists st'. split; [exact H'|].
  destruct (state_correlated_pivot_update st' H') as (Hy & _ & _).
  pose proof (precision_estimates_symmetric uncentered_covariance
                inv_diagonal (newton_found 1) logdet_diagonal
                positive_diagonal equal_cells) as (Hsym & Hwrite & _).
  destruct (Hwrite 2%nat 1%nat (fun _ => 1) (1 / 4) 0%Z false false 0%nat
              state_correlated st' H') as (Hoff & _ & Hframe).
  split; [|split; [|split]].
  - apply (Hsym 2%nat 1%nat (fun _ => 1) (1 / 4) 0%Z false false 0%nat
             state_correlated st' 0%nat); [|exact H'].
    intros i j _ _. unfold task, state_correlated, eye. cbn [omega].
    rewrite (Nat.eqb_sym j i). reflexivity.
  - rewrite <- Hy. exact (proj1 (Hoff 0%nat 0%nat)).
  - rewrite <- Hy. exact (proj2 (Hoff 0%nat 0%nat)).
  - apply Hframe; lia.
Defined.

Lemma emp_covs_read_only_witness :
  exists st',
    pivot_update inv_diagonal (newton_found 1) logdet_diagonal
      positive_diagonal equal_cells 2 1 (fun _ => 1) (1 / 4) 0%Z false false
      0 state_correlated
    = inr st'
    /\ emp_covs st' = emp_covs state_correlated.
Proof.
  destruct (pivot_update_returns inv_diagonal (newton_found 1)
              logdet_diagonal positive_diagonal equal_cells 2 1 (fun _ => 1)
              (1 / 4) 0%Z false false 0 state_correlated
              inv_diagonal_returns (newton_found_returns 1) eq_refl)
    as [st' H'].
  exists st'. split; [exact H'|].
  exact (proj1 (emp_covs_read_only uncentered_covariance inv_diagonal
           (newton_found 1) logdet_diagonal positive_diagonal equal_cells)
           2%nat 1%nat (fun _ => 1) (1 / 4) 0%Z false false 0%nat
           state_correlated st' H').
Defined.



(** * Further properties *)

(** ** The equation solved for [alpha] *)

Lemma rsum_le n f g :
  (forall i, (i < n)%nat -> f i <= g i) -> rsum n f <= rsum n g.
Proof.
  induction n as [|n IH]; intros H; simpl; [lra|].
  assert (rsum n f <= rsum n g) by (apply IH; intros; apply H; lia).
  assert (f n <= g n) by (apply H; lia). lra.
Qed.

Lemma rsum_lt n f g k :
  (k < n)%nat -> f k < g k ->
  (forall i, (i < n)%nat -> f i <= g i) -> rsum n f < rsum n g.
Proof.
  induction n as [|n IH]; intros Hk Hlt H; [lia|]. simpl.
  assert (Hn : f n <= g n) by (apply H; lia).
  destruct (Nat.eq_dec k n) as [->|Hne].
  - assert (rsum n f <= rsum n g) by (apply rsum_le; intros; apply H; lia).
    lra.
  - assert (rsum n f < rsum n g).
    { apply IH; [lia | exact Hlt | intros; apply H; lia]. }
    lra.
Qed.

Lemma rsum_nonneg n f : (forall i, (i < n)%nat -> 0 <= f i) -> 0 <= rsum n f.
Proof.
  intros H. rewrite <- (rsum_zero n (fun _ => 0)) by reflexivity.
  now apply rsum_le.
Qed.

Lemma derivable_pt_lim_rsum K (f : nat -> R -> R) (f' : nat -> R) x :
  (forall k, (k < K)%nat -> derivable_pt_lim (f k) x (f' k)) ->
  derivable_pt_lim (fun a => rsum K (fun k => f k a)) x (rsum K f').
Proof.
  induction K as [|K IH]; intros H; simpl.
  - apply (derivable_pt_lim_const 0).
  - apply (derivable_pt_lim_plus (fun a => rsum K (fun k => f k a)) (f K)).
    + apply IH. intros k Hk. apply H. lia.
    + apply H. lia.
Qed.

Lemma derivable_pt_lim_term c q x :
  1 + x * q <> 0 ->
  derivable_pt_lim (fun a => c / (1 + a * q) ^ 2) x
                   (- (2 * c * q / (1 + x * q) ^ 3)).
Proof.
  intros Hx.
  assert (Haff : derivable_pt_lim (fun a => 1 + a * q) x q).
  { pose proof (derivable_pt_lim_plus (fct_cte 1) (fun a => id a * q) x
                  0 (1 * q) (derivable_pt_lim_const 1 x)
                  (derivable_pt_lim_scal_right id x 1 q
                     (derivable_pt_lim_id x))) as H.
    replace (0 + 1 * q) with q in H by ring. exact H. }
  assert (Hsq : derivable_pt_lim (fun a => (1 + a * q) ^ 2) x
                  (2 * (1 + x * q) * q)).
  { pose proof (derivable_pt_lim_comp (fun a => 1 + a * q) (fun y => y ^ 2)
                  x q (INR 2 * (1 + x * q) ^ pred 2) Haff
                  (derivable_pt_lim_pow (1 + x * q) 2)) as H.
    replace (INR 2 * (1 + x * q) ^ pred 2 * q) with (2 * (1 + x * q) * q)
      in H by (simpl; ring).
    exact H. }
  pose proof (derivable_pt_lim_div (fct_cte c) (fun a => (1 + a * q) ^ 2) x
                0 (2 * (1 + x * q) * q) (derivable_pt_lim_const c x) Hsq) as H.
  specialize (H (pow_nonzero _ 2 Hx)).
  match type of H with
  | derivable_pt_lim _ _ ?l =>
      replace (- (2 * c * q / (1 + x * q) ^ 3)) with l;
        [exact H | unfold fct_cte, Rsqr; field; exact Hx]
  end.
Qed.

Lemma quad_trust_region_derivable K alpha q two_ccq cc rho2 :
  (forall k, (k < K)%nat -> 1 + alpha * q k <> 0) ->
  derivable_pt_lim (fun a => quad_trust_region K a q two_ccq cc rho2) alpha
    (0 - rsum K (fun k => - (2 * cc k * q k / (1 + alpha * q k) ^ 3))).
Proof.
  intros Hne. unfold quad_trust_region.
  exact (derivable_pt_lim_minus (fct_cte rho2)
           (fun a => rsum K (fun k => cc k / (1 + a * q k) ^ 2)) alpha
           0 (rsum K (fun k => - (2 * cc k * q k / (1 + alpha * q k) ^ 3)))
           (derivable_pt_lim_const rho2 alpha)
           (derivable_pt_lim_rsum K
              (fun k a => cc k / (1 + a * q k) ^ 2) _ alpha
              (fun k Hk => derivable_pt_lim_term (cc k) (q k) alpha
                             (Hne k Hk)))).
Qed.

(** X1: [quad_trust_region_deriv] is the derivative of [quad_trust_region] in
    [alpha], for the [two_ccq] the solver passes ([2 * cc * q]), wherever
    no [1 + alpha * q[k]] vanishes. *)
Theorem quad_trust_region_deriv_is_derivative K alpha q two_ccq cc rho2 :
  (forall k, (k < K)%nat -> two_ccq k = 2 * cc k * q k) ->
  (forall k, (k < K)%nat -> 1 + alpha * q k <> 0) ->
  derivable_pt_lim (fun a => quad_trust_region K a q two_ccq cc rho2) alpha
                   (quad_trust_region_deriv K alpha q two_ccq cc rho2).
Proof.
  intros Htwo Hne. unfold quad_trust_region_deriv.
  replace (rsum K (fun k => two_ccq k / (1 + alpha * q k) ^ 3))
    with (0 - rsum K (fun k => - (2 * cc k * q k / (1 + alpha * q k) ^ 3))).
  - now apply quad_trust_region_derivable.
  - symmetry. rewrite (rsum_ext K (fun k => two_ccq k / (1 + alpha * q k) ^ 3)
               (fun k => -1 * - (2 * cc k * q k / (1 + alpha * q k) ^ 3))).
    + rewrite rsum_scal_l. ring.
    + intros k Hk. rewrite (Htwo k Hk). lra.
Qed.

Lemma quad_trust_region_deriv_is_derivative_witness :
  1 + 1 * 1 <> 0
  /\ derivable_pt_lim
       (fun a => quad_trust_region 1 a (fun _ => 1) (fun _ => 2) (fun _ => 1) 0)
       1
       (quad_trust_region_deriv 1 1 (fun _ => 1) (fun _ => 2) (fun _ => 1) 0).
Proof.
  split; [lra|].
  apply quad_trust_region_deriv_is_derivative; intros k Hk; lra.
Defined.

Lemma quad_trust_region_strictly_increasing K q two_ccq cc rho2 x z :
  (forall k, (k < K)%nat -> 0 < q k) ->
  (forall k, (k < K)%nat -> 0 <= cc k) ->
  (exists k, (k < K)%nat /\ 0 < cc k) ->
  0 <= x -> x < z ->
  quad_trust_region K x q two_ccq cc rho2
  < quad_trust_region K z q two_ccq cc rho2.
Proof.
  intros Hq Hcc [k0 [Hk0 Hpos]] Hx Hxz. unfold quad_trust_region.
  assert (Hterm : forall k, (k < K)%nat ->
            / (1 + z * q k) ^ 2 < / (1 + x * q k) ^ 2).
  { intros k Hk. pose proof (Hq k Hk) as Hqk.
    assert (0 < 1 + x * q k) by nra.
    assert (1 + x * q k < 1 + z * q k) by nra.
    apply Rinv_lt_contravar; [|nra].
    apply Rmult_lt_0_compat; apply pow_lt; lra. }
  assert (rsum K (fun k => cc k / (1 + z * q k) ^ 2)
          < rsum K (fun k => cc k / (1 + x * q k) ^ 2)).
  { apply (rsum_lt K _ _ k0 Hk0).
    - unfold Rdiv. apply Rmult_lt_compat_l; [exact Hpos|]. now apply Hterm.
    - intros k Hk. unfold Rdiv. apply Rmult_le_compat_l; [now apply Hcc|].
      left. now apply Hterm. }
  lra.
Qed.

(** X2: for positive [q] and squares [cc] that are not all zero,
    [quad_trust_region] is strictly increasing on [alpha >= 0]: it has at
    most one non-negative root. *)
Theorem quad_trust_region_increasing K q two_ccq cc rho2 a b :
  (forall k, (k < K)%nat -> 0 < q k) ->
  (forall k, (k < K)%nat -> 0 <= cc k) ->
  (exists k, (k < K)%nat /\ 0 < cc k) ->
  0 <= a -> 0 <= b ->
  (a < b ->
   quad_trust_region K a q two_ccq cc rho2
   < quad_trust_region K b q two_ccq cc rho2)
  /\ (quad_trust_region K a q two_ccq cc rho2 = 0 ->
      quad_trust_region K b q two_ccq cc rho2 = 0 -> a = b).
Proof.
  intros Hq Hcc Hsome Ha Hb.
  split; [now apply quad_trust_region_strictly_increasing|].
  intros Hra Hrb. destruct (Rtotal_order a b) as [Hlt|[Heq|Hgt]].
  - pose proof (quad_trust_region_strictly_increasing K q two_ccq cc rho2
                  a b Hq Hcc Hsome Ha Hlt). lra.
  - exact Heq.
  - pose proof (quad_trust_region_strictly_increasing K q two_ccq cc rho2
                  b a Hq Hcc Hsome Hb Hgt). lra.
Qed.

Lemma quad_trust_region_increasing_witness :
  quad_trust_region 1 0 (fun _ => 1) (fun _ => 2) (fun _ => 1) 1
  < quad_trust_region 1 1 (fun _ => 1) (fun _ => 2) (fun _ => 1) 1.
Proof.
  apply (proj1 (quad_trust_region_increasing 1 (fun _ => 1) (fun _ => 2)
                  (fun _ => 1) 1 0 1
                  ltac:(intros; lra) ltac:(intros; lra)
                  (ex_intro _ 0%nat (conj (Nat.lt_0_1) Rlt_0_1))
                  ltac:(lra) ltac:(lra))).
  lra.
Defined.

(** ** Existence of the root *)

Lemma quad_trust_region_continuous K q two_ccq cc rho2 a :
  (forall k, (k < K)%nat -> 0 < q k) -> 0 <= a ->
  continuity_pt (fun x => quad_trust_region K x q two_ccq cc rho2) a.
Proof.
  intros Hq Ha. apply derivable_continuous_pt.
  eexists. apply (quad_trust_region_derivable K a q two_ccq cc rho2).
  intros k Hk. pose proof (Hq k Hk). nra.
Qed.

Lemma quad_trust_region_at_zero K q two_ccq cc rho2 :
  quad_trust_region K 0 q two_ccq cc rho2 = rho2 - rsum K cc.
Proof.
  unfold quad_trust_region. f_equal. apply rsum_ext. intros k _. field.
Qed.

Lemma rsum_positive_term n f :
  (forall i, (i < n)%nat -> 0 <= f i) -> 0 < rsum n f ->
  exists i, (i < n)%nat /\ 0 < f i.
Proof.
  induction n as [|n IH]; intros Hf Hpos; simpl in Hpos; [lra|].
  destruct (Rlt_dec 0 (f n)) as [Hn|Hn].
  - exists n. split; [lia|exact Hn].
  - assert (f n = 0) by (pose proof (Hf n ltac:(lia)); lra).
    destruct IH as [i [Hi Hfi]]; [intros; apply Hf; lia | lra |].
    exists i. split; [lia|exact Hfi].
Qed.

(** Far enough to the right the function is positive. *)
Lemma quad_trust_region_eventually_positive K q two_ccq cc rho2 :
  (forall k, (k < K)%nat -> 0 < q k) ->
  (forall k, (k < K)%nat -> 0 <= cc k) ->
  0 < rho2 ->
  exists M, 0 < M /\ 0 < quad_trust_region K M q two_ccq cc rho2.
Proof.
  intros Hq Hcc Hrho.
  set (S := rsum K (fun k => cc k / q k)).
  assert (HS : 0 <= S).
  { apply rsum_nonneg. intros k Hk. pose proof (Hq k Hk).
    apply Rmult_le_pos; [now apply Hcc|]. left. now apply Rinv_0_lt_compat. }
  set (M := S / rho2 + 1).
  assert (HM : 1 <= M).
  { unfold M. assert (0 <= S / rho2); [|lra].
    apply Rmult_le_pos; [exact HS|]. left. now apply Rinv_0_lt_compat. }
  exists M. split; [lra|]. unfold quad_trust_region.
  assert (Hle : rsum K (fun k => cc k / (1 + M * q k) ^ 2)
                <= rsum K (fun k => cc k / q k * / M)).
  { apply rsum_le. intros k Hk. pose proof (Hq k Hk) as Hqk.
    pose proof (Hcc k Hk) as Hck.
    assert (HMq : 0 < M * q k) by nra.
    replace (cc k / q k * / M) with (cc k * / (M * q k)) by (field; lra).
    unfold Rdiv. apply Rmult_le_compat_l; [exact Hck|].
    apply Rinv_le_contravar; [exact HMq|]. nra. }
  rewrite rsum_scal_r in Hle. fold S in Hle.
  assert (S * / M < rho2); [|lra].
  apply Rmult_lt_reg_r with M; [lra|].
  rewrite Rmult_assoc, Rinv_l by lra.
  unfold M. replace (rho2 * (S / rho2 + 1)) with (S + rho2) by (field; lra).
  lra.
Qed.

(** X22: above the threshold ([rho2 < sum cc], that is [rho < c2]) and for
    positive [q], the equation handed to the root-finder has exactly one
    root [alpha > 0] when [rho2 > 0], and none on [alpha >= 0] when
    [rho2 = 0]: there the residual is negative whatever the root-finder
    returns. *)
Theorem newton_equation_roots K q two_ccq cc rho2 :
  (forall k, (k < K)%nat -> 0 < q k) ->
  (forall k, (k < K)%nat -> 0 <= cc k) ->
  rho2 < rsum K cc ->
  (0 < rho2 ->
   exists alpha,
     0 < alpha /\ quad_trust_region K alpha q two_ccq cc rho2 = 0
     /\ forall beta, 0 <= beta ->
          quad_trust_region K beta q two_ccq cc rho2 = 0 -> beta = alpha)
  /\ (rho2 = 0 ->
      forall alpha, 0 <= alpha ->
        quad_trust_region K alpha q two_ccq cc rho2 < 0).
Proof.
  intros Hq Hcc Habove. split.
  - intros Hrho.
    assert (Hsome : exists k, (k < K)%nat /\ 0 < cc k).
    { apply rsum_positive_term; [exact Hcc|lra]. }
    destruct (quad_trust_region_eventually_positive K q two_ccq cc rho2
                Hq Hcc Hrho) as [M [HM HfM]].
    assert (Hf0 : quad_trust_region K 0 q two_ccq cc rho2 < 0).
    { rewrite quad_trust_region_at_zero. lra. }
    destruct (IVT_interv (fun a => quad_trust_region K a q two_ccq cc rho2)
                0 M) as [alpha [[Ha0 HaM] Hroot]]; try assumption.
    { intros a [Ha _]. now apply quad_trust_region_continuous. }
    assert (Hpos : 0 < alpha).
    { destruct Ha0 as [Hlt|Heq]; [exact Hlt|].
      rewrite <- Heq in Hroot. lra. }
    exists alpha. split; [exact Hpos|]. split; [exact Hroot|].
    intros beta Hb Hrb.
    destruct (Rtotal_order beta alpha) as [Hlt|[Heq|Hgt]]; [|exact Heq|].
    + pose proof (quad_trust_region_strictly_increasing K q two_ccq cc rho2
                    beta alpha Hq Hcc Hsome Hb Hlt). lra.
    + pose proof (quad_trust_region_strictly_increasing K q two_ccq cc rho2
                    alpha beta Hq Hcc Hsome (Rlt_le _ _ Hpos) Hgt). lra.
  - intros -> alpha Ha.
    assert (Hsome : exists k, (k < K)%nat /\ 0 < cc k).
    { apply rsum_positive_term; [exact Hcc|exact Habove]. }
    destruct Hsome as [k0 [Hk0 Hc0]].
    unfold quad_trust_region.
    assert (0 < rsum K (fun k => cc k / (1 + alpha * q k) ^ 2)); [|lra].
    rewrite <- (rsum_zero K (fun _ => 0)) by reflexivity.
    assert (Hinv : forall k, (k < K)%nat -> 0 < / (1 + alpha * q k) ^ 2).
    { intros k Hk. pose proof (Hq k Hk). apply Rinv_0_lt_compat.
      apply pow_lt. nra. }
    apply (rsum_lt K _ _ k0 Hk0).
    + apply Rmult_lt_0_compat; [exact Hc0|now apply Hinv].
    + intros k Hk. apply Rmult_le_pos; [now apply Hcc|].
      left. now apply Hinv.
Qed.

Lemma newton_equation_roots_witness :
  1 < rsum 1 (fun _ => 4)
  /\ exists alpha,
       0 < alpha
       /\ quad_trust_region 1 alpha (fun _ => 1) (fun _ => 8) (fun _ => 4) 1
          = 0.
Proof.
  assert (Habove : 1 < rsum 1 (fun _ => 4)) by (simpl; lra).
  split; [exact Habove|].
  destruct (proj1 (newton_equation_roots 1 (fun _ => 1) (fun _ => 8)
                     (fun _ => 4) 1
                     ltac:(intros; lra) ltac:(intros; lra) Habove)
              Rlt_0_1) as [alpha [Hpos [Hroot _]]].
  exists alpha. split; assumption.
Defined.

(** ** The submatrix without its inverse *)

Lemma submatrix_after_update N full sub sub_inv p :
  (1 <= p)%nat ->
  mat_eq N N sub (delete_row_col (p - 1) full) ->
  mat_eq N N (fst (update_submatrix N full sub sub_inv p))
             (delete_row_col p full).
Proof.
  intros Hp. unfold update_submatrix, update_vectors. cbv zeta. cbn [fst].
  intros Hsub i j Hi Hj. unfold delete_row_col.
  replace (p - 1 + 1)%nat with p by lia.
  destruct (Nat.eqb_spec j (p - 1)) as [->|Hj'].
  - rewrite skip_pred_eq by exact Hp. unfold skip.
    destruct (i <? p); reflexivity.
  - destruct (Nat.eqb_spec i (p - 1)) as [->|Hi'].
    + rewrite skip_pred_eq by exact Hp. unfold skip.
      destruct (j <? p); reflexivity.
    + rewrite (Hsub i j Hi Hj). unfold delete_row_col.
      assert (Hs : forall a, a <> (p - 1)%nat -> skip (p - 1) a = skip p a).
      { intros a Ha. destruct (Nat.lt_total a (p - 1)) as [Hlt|[Heq|Hgt]].
        - apply skip_pred_lt; [exact Hp | exact Hlt].
        - contradiction.
        - apply skip_pred_gt; [exact Hp | exact Hgt]. }
      rewrite (Hs i Hi'), (Hs j Hj'). reflexivity.
Qed.

(** X4: [update_submatrix] rewrites row and column [p - 1] of [sub] only, and
    turns direct deletion at [p - 1] into direct deletion at [p] whatever
    [sub_inv] holds: no invertibility is needed for [sub]. *)
Theorem update_submatrix_sub N full sub sub_inv p :
  (1 <= p)%nat ->
  (forall i j, i <> (p - 1)%nat -> j <> (p - 1)%nat ->
     fst (update_submatrix N full sub sub_inv p) i j = sub i j)
  /\ (mat_eq N N sub (delete_row_col (p - 1) full) ->
      mat_eq N N (fst (update_submatrix N full sub sub_inv p))
                 (delete_row_col p full)).
Proof.
  intros Hp. split.
  - intros i j Hi Hj. unfold update_submatrix, update_vectors.
    cbv zeta. cbn [fst].
    destruct (Nat.eqb_spec j (p - 1)); [contradiction|].
    destruct (Nat.eqb_spec i (p - 1)); [contradiction|]. reflexivity.
  - now apply submatrix_after_update.
Qed.

Lemma update_submatrix_sub_witness :
  mat_eq 2 2 sub_singular_step (delete_row_col (1 - 1) full_singular_step)
  /\ mat_eq 2 2
       (fst (update_submatrix 2 full_singular_step sub_singular_step
                              sub_inv_singular_step 1))
       (delete_row_col 1 full_singular_step).
Proof.
  assert (Hsub : mat_eq 2 2 sub_singular_step
                   (delete_row_col (1 - 1) full_singular_step)).
  { intros i j Hi Hj.
    destruct i as [|[|i]]; destruct j as [|[|j]]; try lia; reflexivity. }
  split; [exact Hsub|].
  exact (proj2 (update_submatrix_sub 2 full_singular_step sub_singular_step
                  sub_inv_singular_step 1 ltac:(lia)) Hsub).
Defined.

Lemma all_range_ext n f g :
  (forall i, (i < n)%nat -> f i = g i) -> all_range n f = all_range n g.
Proof.
  induction n as [|n IH]; intros H; simpl; [reflexivity|].
  rewrite IH by (intros; apply H; lia). rewrite H by lia. reflexivity.
Qed.

Lemma all_range_true n f :
  all_range n f = true <-> (forall i, (i < n)%nat -> f i = true).
Proof.
  induction n as [|n IH]; simpl.
  - split; [intros _ i Hi; lia | reflexivity].
  - rewrite andb_true_iff, IH. split.
    + intros [H Hn] i Hi. destruct (Nat.eq_dec i n) as [->|]; [exact Hn|].
      apply H. lia.
    + intros H. split; [intros i Hi; apply H; lia | apply H; lia].
Qed.

Section DebugAssertions.

Variable almost_equal : nat -> R -> R -> bool.

Lemma true_sub_is_deletion (full : mat) n i j :
  (if (i <? n) && (j <? n) then full i j
   else if (n <=? i) && (n <=? j) then full (i + 1)%nat (j + 1)%nat
   else if (i <? n) && (n <=? j) then full i (j + 1)%nat
   else full (i + 1)%nat j)
  = delete_row_col n full i j.
Proof.
  unfold delete_row_col, skip.
  destruct (Nat.ltb_spec i n); destruct (Nat.ltb_spec j n);
    destruct (Nat.leb_spec n i); destruct (Nat.leb_spec n j);
    simpl; try reflexivity; lia.
Qed.

(** X6: the four blocks [assert_submatrix] assembles are exactly the matrix
    without row and column [n]: the check passes iff every cell of [sub]
    passes the cell test against direct deletion. *)
Theorem assert_submatrix_checks_deletion N full sub n :
  assert_submatrix almost_equal N full sub n = inr tt
  <-> (forall i j, (i < N)%nat -> (j < N)%nat ->
         almost_equal 7 (delete_row_col n full i j) (sub i j) = true).
Proof.
  unfold assert_submatrix, assert_almost_equal, assert.
  match goal with
  | |- (if ?b then _ else _) = _ <-> _ =>
      assert (Hb : b = true <->
        (forall i j, (i < N)%nat -> (j < N)%nat ->
           almost_equal 7 (delete_row_col n full i j) (sub i j) = true))
  end.
  { rewrite all_range_true. split.
    - intros H i j Hi Hj. specialize (H i Hi).
      rewrite all_range_true in H. specialize (H j Hj).
      rewrite true_sub_is_deletion in H. exact H.
    - intros H i Hi. rewrite all_range_true. intros j Hj.
      rewrite true_sub_is_deletion. now apply H. }
  split.
  - intros H. apply Hb.
    match goal with
    | H : (if ?b then _ else _) = _ |- _ => destruct b; [reflexivity|]
    end.
    discriminate.
  - intros H. apply Hb in H. rewrite H. reflexivity.
Qed.

End DebugAssertions.

(** ** Sample weights *)

Lemma vmax_upper n v k : (k <= n)%nat -> v k <= vmax n v.
Proof.
  induction n as [|n IH]; intros Hk; simpl.
  - replace k with O by lia. lra.
  - destruct (Nat.eq_dec k (S n)) as [->|Hne]; [apply Rmax_r|].
    eapply Rle_trans; [apply IH; lia | apply Rmax_l].
Qed.

Lemma vmax_attained n v : exists k, (k <= n)%nat /\ vmax n v = v k.
Proof.
  induction n as [|n [k [Hk IH]]]; simpl.
  - exists O. split; [lia|reflexivity].
  - apply Rmax_case_strong; intros _.
    + exists k. split; [lia|exact IH].
    + exists (S n). split; [lia|reflexivity].
Qed.

(** X8: with at least one sample in some task, every weight lies in [0, 1]
    and the largest task has weight 1. *)
Theorem sample_weights_normalized (signals : list ndarray2) :
  (exists s, In s signals /\ (0 < shape0 s)%nat) ->
  (forall k, (k < List.length signals)%nat ->
     0 <= sample_weights signals k <= 1)
  /\ (exists k, (k < List.length signals)%nat
                /\ sample_weights signals k = 1).
Proof.
  intros [s [Hin Hpos]].
  destruct (In_nth _ _ (mk_ndarray2 0 0 (fun _ _ => 0)) Hin) as [k0 [Hk0 Hs]].
  unfold sample_weights.
  set (ns := fun k : nat =>
         INR (shape0 (nth k signals (mk_ndarray2 0 0 (fun _ _ => 0))))).
  set (mx := vmax (List.length signals - 1) ns).
  assert (Hmx : 0 < mx).
  { apply Rlt_le_trans with (ns k0).
    - unfold ns. rewrite Hs. apply lt_0_INR. exact Hpos.
    - apply vmax_upper. lia. }
  split.
  - intros k Hk. assert (0 <= ns k) by (unfold ns; apply pos_INR).
    assert (ns k <= mx) by (apply vmax_upper; lia).
    split.
    + apply Rmult_le_pos; [assumption|]. left. now apply Rinv_0_lt_compat.
    + apply Rmult_le_reg_r with mx; [exact Hmx|].
      unfold Rdiv. rewrite Rmult_assoc, Rinv_l by lra.
      change (ns k * 1 <= 1 * mx). lra.
  - destruct (vmax_attained (List.length signals - 1) ns) as [k [Hk Hv]].
    exists k. split; [lia|]. fold mx in Hv. change (ns k / mx = 1).
    rewrite <- Hv. unfold Rdiv. rewrite Rinv_r by lra. reflexivity.
Qed.

Lemma sample_weights_normalized_witness :
  0 <= sample_weights signals_two_tasks 0%nat <= 1
  /\ exists k, (k < 2)%nat /\ sample_weights signals_two_tasks k = 1.
Proof.
  assert (H : exists s, In s signals_two_tasks /\ (0 < shape0 s)%nat).
  { eexists. split; [left; reflexivity|]. simpl. lia. }
  destruct (sample_weights_normalized signals_two_tasks H) as [Hall Hone].
  split; [apply (Hall 0%nat); simpl; lia | exact Hone].
Defined.

(** ** The cost *)

Lemma rsum_remove n i f :
  (i < n)%nat ->
  rsum n f - f i = rsum n (fun j => if Nat.eqb j i then 0 else f j).
Proof.
  intros Hi.
  rewrite (rsum_ext n f (fun j =>
    (if Nat.eqb j i then 0 else f j) + (if Nat.eqb j i then 1 else 0) * f j)).
  - rewrite rsum_plus, rsum_pick_l by exact Hi. ring.
  - intros j _. destruct (Nat.eqb j i); ring.
Qed.

(** The sum over all pairs minus the sum over the diagonal is the sum
    over the off-diagonal pairs. *)
Lemma off_diagonal_sum n (l2 : mat) :
  rsum n (fun i => rsum n (fun j => l2 i j)) - rsum n (fun i => l2 i i)
  = rsum n (fun i => rsum n (fun j => if Nat.eqb j i then 0 else l2 i j)).
Proof.
  rewrite <- rsum_minus. apply rsum_ext. intros i Hi.
  apply (rsum_remove n i (fun j => l2 i j) Hi).
Qed.

Section Cost.

Variable fast_logdet : nat -> mat -> R.

(** X7: the cost is the unpenalised cost plus [rho] times a non-negative
    penalty, which vanishes when every off-diagonal entry of every
    precision estimate is zero: for [rho >= 0] the penalty never lowers
    the cost. *)
Theorem cost_penalty n_var n_tasks n_samples rho omega emp_covs display :
  0 <= rho ->
  fst (_group_sparse_covariance_cost fast_logdet n_var n_tasks n_samples 0
         omega emp_covs display)
  <= fst (_group_sparse_covariance_cost fast_logdet n_var n_tasks n_samples
            rho omega emp_covs display)
  /\ ((forall i j k, (i < n_var)%nat -> (j < n_var)%nat -> (k < n_tasks)%nat ->
         i <> j -> omega i j k = 0) ->
      fst (_group_sparse_covariance_cost fast_logdet n_var n_tasks n_samples
             rho omega emp_covs display)
      = fst (_group_sparse_covariance_cost fast_logdet n_var n_tasks
               n_samples 0 omega emp_covs display)).
Proof.
  intros Hrho. unfold _group_sparse_covariance_cost. cbv zeta. cbn [fst].
  pose proof (off_diagonal_sum n_var
    (fun i j => sqrt (rsum n_tasks (fun k => omega i j k ^ 2)))) as Hl12.
  cbv beta in Hl12. rewrite Hl12. clear Hl12. split.
  - assert (0 <= rsum n_var (fun i => rsum n_var (fun j =>
              if Nat.eqb j i then 0
              else sqrt (rsum n_tasks (fun k => omega i j k ^ 2))))).
    { apply rsum_nonneg. intros i _. apply rsum_nonneg. intros j _.
      destruct (Nat.eqb j i); [lra | apply sqrt_pos]. }
    nra.
  - intros Hdiag.
    assert (Hz : rsum n_var (fun i => rsum n_var (fun j =>
                   if Nat.eqb j i then 0
                   else sqrt (rsum n_tasks (fun k => omega i j k ^ 2)))) = 0).
    { apply rsum_zero. intros i Hi. apply rsum_zero. intros j Hj.
      destruct (Nat.eqb_spec j i) as [|Hne]; [reflexivity|].
      rewrite rsum_zero; [apply sqrt_0|].
      intros k Hk. rewrite (Hdiag i j k Hi Hj Hk) by congruence. ring. }
    rewrite Hz. ring.
Qed.

End Cost.

Lemma cost_penalty_witness :
  fst (_group_sparse_covariance_cost logdet_diagonal 2 1 (fun _ => 1) 0
         (fun i j _ => eye i j) (fun i j _ => eye i j) false)
  <= fst (_group_sparse_covariance_cost logdet_diagonal 2 1 (fun _ => 1)
            (1 / 2) (fun i j _ => eye i j) (fun i j _ => eye i j) false).
Proof.
  apply (proj1 (cost_penalty logdet_diagonal 2 1 (fun _ => 1) (1 / 2)
                  (fun i j _ => eye i j) (fun i j _ => eye i j) false
                  ltac:(lra))).
Defined.

Section PassProperties.

Variable inv : nat -> mat -> option mat.
Variable newton : (R -> R) -> R -> (R -> R) -> nat -> option R.
Variable fast_logdet : nat -> mat -> R.
Variable is_spd : nat -> mat -> option nat -> bool.
Variable almost_equal : nat -> R -> R -> bool.
Variables (n_var n_tasks : nat) (n_samples : vec) (rho : R).
Variables (verbose : Z) (return_costs debug : bool).

Local Abbreviation coordinate_c_ := (coordinate_c n_var n_samples).
Local Abbreviation coordinate_c2_ := (coordinate_c2 n_var n_tasks n_samples).
Local Abbreviation coordinate_step_ :=
  (coordinate_step newton n_var n_tasks n_samples rho debug).
Local Abbreviation pivot_enter_ :=
  (pivot_enter inv is_spd almost_equal n_var n_tasks verbose debug).
Local Abbreviation pivot_leave_ :=
  (pivot_leave fast_logdet is_spd n_var n_tasks n_samples rho verbose
               return_costs debug).
Local Abbreviation pivot_update_ :=
  (pivot_update inv newton fast_logdet is_spd almost_equal n_var n_tasks
                n_samples rho verbose return_costs debug).

(** ** The root-find at one coordinate *)

Lemma dot_self_nonneg n (c : vec) : 0 <= dot n c c.
Proof. apply rsum_nonneg. intros i _. nra. Qed.

(** X9: where the threshold test fails ([c2 > rho >= 0]), the function handed
    to the root-finder is [rho^2 - c2^2 < 0] at its starting point
    [alpha = 0]. *)
Theorem newton_starts_below_root p m st q two_ccq :
  0 <= rho -> ~ coordinate_c2_ p m st <= rho ->
  let c := coordinate_c_ p m st in
  quad_trust_region n_tasks 0 q two_ccq (fun k => c k * c k) (rho ^ 2)
  = rho ^ 2 - coordinate_c2_ p m st ^ 2
  /\ quad_trust_region n_tasks 0 q two_ccq (fun k => c k * c k) (rho ^ 2) < 0.
Proof.
  intros Hrho Hgt c.
  assert (Hsum : quad_trust_region n_tasks 0 q two_ccq (fun k => c k * c k)
                   (rho ^ 2) = rho ^ 2 - dot n_tasks c c).
  { unfold quad_trust_region, dot. f_equal. apply rsum_ext. intros k _.
    field. }
  assert (Hsq : coordinate_c2_ p m st ^ 2 = dot n_tasks c c).
  { unfold coordinate_c2. fold c. simpl. rewrite Rmult_1_r.
    apply sqrt_sqrt. apply dot_self_nonneg. }
  split; [rewrite Hsum, Hsq; reflexivity|].
  rewrite Hsum, <- Hsq.
  assert (rho < coordinate_c2_ p m st) by lra.
  nra.
Qed.

Lemma or_raise_inr {A : Type} e (r : option A) a :
  or_raise e r = inr a -> r = Some a.
Proof. destruct r; simpl; [intros [= ->]; reflexivity|discriminate]. Qed.

Lemma coordinate_step_above p m st st' :
  ~ coordinate_c2_ p m st <= rho ->
  coordinate_step_ p m st = inr st' ->
  let c := coordinate_c_ p m st in
  let q : vec := fun k => n_samples k * emp_covs st p p k * Winv st m m k in
  let cc : vec := fun k => c k * c k in
  let two_ccq : vec := fun k => 2 * cc k * q k in
  exists alpha,
    newton (fun a => quad_trust_region n_tasks a q two_ccq cc (rho ^ 2)) 0
           (fun a => quad_trust_region_deriv n_tasks a q two_ccq cc (rho ^ 2))
           50 = Some alpha
    /\ forall k, y st' k m = alpha * c k / (1 + alpha * q k).
Proof.
  intros Hgt H c q cc two_ccq.
  unfold two_ccq, cc, q, c. unfold coordinate_step in H.
  cbv beta zeta in H.
  destruct (Rle_dec _ _) as [Hle|_]; [contradiction|].
  apply bind_inr in H. destruct H as [? [_ H]].
  apply bind_inr in H. destruct H as [alpha [Hfound H]].
  apply or_raise_inr in Hfound.
  apply bind_inr in H. destruct H as [? [_ H]]. injection H as <-.
  exists alpha. split; [exact Hfound|]. intros k.
  cbn [y set_y]. rewrite Nat.eqb_refl. reflexivity.
Qed.

(** X10: when the [alpha] the root-finder returned is an exact root (zero
    residual), the group norm of the updated coordinate is [alpha * rho]:
    [sum_k y[k][m]^2 = alpha^2 * rho^2]. *)
Theorem root_fixes_group_norm p m st st' :
  ~ coordinate_c2_ p m st <= rho ->
  coordinate_step_ p m st = inr st' ->
  let c := coordinate_c_ p m st in
  let q : vec := fun k => n_samples k * emp_covs st p p k * Winv st m m k in
  let cc : vec := fun k => c k * c k in
  let two_ccq : vec := fun k => 2 * cc k * q k in
  exists alpha,
    newton (fun a => quad_trust_region n_tasks a q two_ccq cc (rho ^ 2)) 0
           (fun a => quad_trust_region_deriv n_tasks a q two_ccq cc (rho ^ 2))
           50 = Some alpha
    /\ (quad_trust_region n_tasks alpha q two_ccq cc (rho ^ 2) = 0 ->
        rsum n_tasks (fun k => y st' k m ^ 2) = alpha ^ 2 * rho ^ 2).
Proof.
  intros Hgt H c q cc two_ccq.
  pose proof (coordinate_step_above p m st st' Hgt H) as Habove.
  cbv zeta in Habove. fold c in Habove. fold q in Habove.
  fold cc in Habove. fold two_ccq in Habove.
  destruct Habove as [alpha [Hfound Hy]].
  exists alpha. split; [exact Hfound|]. intros Hroot.
  rewrite (rsum_ext _ _ (fun k =>
             alpha ^ 2 * (cc k / (1 + alpha * q k) ^ 2))).
  - rewrite rsum_scal_l. unfold quad_trust_region in Hroot.
    replace (rsum n_tasks (fun k => cc k / (1 + alpha * q k) ^ 2))
      with (rho ^ 2) by lra.
    reflexivity.
  - intros k _. rewrite Hy. unfold cc, Rdiv. rewrite <- pow_inv. ring.
Qed.

(** ** What a pivot update writes *)

Lemma pivot_update_omega_frame p st st' i j k :
  pivot_update_ p st = inr st' -> i <> p -> j <> p ->
  omega st' i j k = omega st i j k.
Proof.
  intros H Hi Hj. apply pivot_update_omega in H.
  destruct H as (st1 & _ & Hoff & _).
  rewrite Hoff by tauto. rewrite copy_back_entry.
  destruct (Nat.eqb_spec i p); [contradiction|].
  destruct (Nat.eqb_spec j p); [contradiction|]. reflexivity.
Qed.

(** X11: a pivot update changes only row [p] and column [p] of the precision
    estimates. *)
Theorem pivot_update_touches_pivot_only p st st' :
  pivot_update inv newton fast_logdet is_spd almost_equal n_var n_tasks
    n_samples rho verbose return_costs debug p st = inr st' ->
  forall i j k, i <> p -> j <> p -> omega st' i j k = omega st i j k.
Proof.
  intros H i j k Hi Hj. exact (pivot_update_omega_frame p st st' i j k H Hi Hj).
Qed.

(** X12: extracting [y] from a symmetric estimate and writing it back
    unchanged restores the estimate. *)
Theorem extract_copy_back_round_trip p st st0 k :
  pivot_enter_ p st = inr st0 ->
  symmetric n_var (task (omega st) k) -> (p < n_var)%nat ->
  forall i j, (i < n_var)%nat -> (j < n_var)%nat ->
    copy_back p (y st0) (omega st0) i j k = omega st i j k.
Proof.
  intros H Hsym Hp i j Hi Hj. apply pivot_enter_frame in H.
  destruct H as (_ & Ho & _ & _ & Hy & _).
  assert (Hcol : forall a, a <> p ->
            y st0 k (if a <? p then a else (a - 1)%nat) = omega st a p k).
  { intros a Ha. rewrite Hy.
    destruct (Nat.ltb_spec a p) as [Hlt|Hge].
    - destruct (Nat.ltb_spec a p); [reflexivity|lia].
    - destruct (Nat.ltb_spec (a - 1) p); [lia|].
      replace (a - 1 + 1)%nat with a by lia. reflexivity. }
  rewrite copy_back_entry, Ho.
  destruct (Nat.eqb_spec i p) as [->|Hip];
    destruct (Nat.eqb_spec j p) as [->|Hjp]; try reflexivity.
  - rewrite (Hcol j Hjp). apply (Hsym j p Hj Hp).
  - apply (Hcol i Hip).
Qed.

(** X13: if the threshold test passes at every coordinate of the pass at
    pivot [p], the update leaves row and column [p] zero off the diagonal
    and sets the diagonal entry to [1 / emp_covs[p, p, k]]. *)
Theorem fully_thresholded_pivot p st st0 st' :
  pivot_enter_ p st = inr st0 ->
  (forall m stm, (m < n_var - 1)%nat ->
     for_range m (coordinate_step_ p) st0 = inr stm ->
     coordinate_c2_ p m stm <= rho) ->
  pivot_update_ p st = inr st' ->
  forall k,
    (forall i, (i < n_var - 1)%nat ->
       omega st' (skip p i) p k = 0 /\ omega st' p (skip p i) k = 0)
    /\ ((k < n_tasks)%nat -> omega st' p p k = 1 / emp_covs st p p k).
Proof.
  intros H0 Hall H k. apply pivot_update_inr in H.
  destruct H as (st0' & st1 & H0' & H1 & H2).
  rewrite H0 in H0'. injection H0' as <-.
  assert (Hy : forall i, (i < n_var - 1)%nat -> y st1 k i = 0).
  { intros i Hi.
    destruct (for_range_prefix _ _ _ _ i H1) as [sti Hsti]; [lia|].
    exact (coordinate_zero_persists newton n_var n_tasks n_samples rho debug
             p i st0 sti Hsti (Hall i sti Hi Hsti) (n_var - 1)%nat st1 Hi H1
             k). }
  pose proof (coordinate_loop_frame _ _ _ _ _ _ _ _ _ _ H1)
    as (He1 & _).
  pose proof (pivot_enter_frame _ _ _ _ _ _ _ _ _ _ H0) as (He0 & _).
  apply pivot_leave_spec in H2.
  destruct H2 as (_ & _ & _ & _ & _ & Hoff & Hdiag & _).
  split.
  - intros i Hi. pose proof (skip_not_pivot p i) as Hne.
    rewrite !Hoff by tauto.
    destruct (copy_back_off_diagonal p (y st1) (omega st1) i k) as [-> ->].
    split; apply Hy; exact Hi.
  - intros Hk. rewrite (Hdiag k Hk). unfold pivot_diagonal.
    rewrite He1, He0.
    assert (Hz : dot (n_var - 1)
                   (dot_vm (n_var - 1) (y st1 k) (task (Winv st1) k))
                   (y st1 k) = 0).
    { apply rsum_zero. intros i Hi. rewrite (Hy i Hi). ring. }
    rewrite Hz. ring.
Qed.

End PassProperties.

Lemma count_warn_app l1 l2 :
  count_warn (l1 ++ l2) = (count_warn l1 + count_warn l2)%nat.
Proof. induction l1 as [|[] l1 IH]; simpl; congruence. Qed.

Section SubmatrixProperties.

Variable empirical_covariance : ndarray2 -> bool -> mat.
Variable inv : nat -> mat -> option mat.
Variable newton : (R -> R) -> R -> (R -> R) -> nat -> option R.
Variable fast_logdet : nat -> mat -> R.
Variable is_spd : nat -> mat -> option nat -> bool.
Variable almost_equal : nat -> R -> R -> bool.

Section AtOnePivot.

Variables (n_var n_tasks : nat) (n_samples : vec) (rho : R).
Variables (verbose : Z) (return_costs debug : bool).

Local Abbreviation initial_submatrix_ :=
  (initial_submatrix inv almost_equal n_var n_tasks debug).
Local Abbreviation advance_submatrix_ :=
  (advance_submatrix is_spd almost_equal n_var n_tasks debug).
Local Abbreviation coordinate_step_ :=
  (coordinate_step newton n_var n_tasks n_samples rho debug).
Local Abbreviation pivot_enter_ :=
  (pivot_enter inv is_spd almost_equal n_var n_tasks verbose debug).
Local Abbreviation pivot_leave_ :=
  (pivot_leave fast_logdet is_spd n_var n_tasks n_samples rho verbose
               return_costs debug).
Local Abbreviation pivot_update_ :=
  (pivot_update inv newton fast_logdet is_spd almost_equal n_var n_tasks
                n_samples rho verbose return_costs debug).
Local Abbreviation sweep_ :=
  (sweep inv newton fast_logdet is_spd almost_equal n_var n_tasks
         n_samples rho verbose return_costs debug).
Local Abbreviation optimization_loop_ :=
  (optimization_loop inv newton fast_logdet is_spd almost_equal n_var n_tasks
                     n_samples rho verbose return_costs debug).

(** ** [W] and [Winv] along a sweep *)

(** Branch [p == 0]: [W] is direct deletion, and every task's [Winv] is
    what [np.linalg.inv] returned for its [W]. *)
Lemma initial_submatrix_tasks st st' :
  initial_submatrix_ st = inr st' ->
  (forall a b k, W st' a b k = omega st (a + 1)%nat (b + 1)%nat k)
  /\ (forall k, (k < n_tasks)%nat ->
        exists B, inv (n_var - 1) (task (W st') k) = Some B
                  /\ forall a b, Winv st' a b k = B a b).
Proof.
  unfold initial_submatrix. intros H.
  apply bind_inr in H. destruct H as [Winv' [Hloop H]]. injection H as <-.
  split; [reflexivity|]. cbn [W Winv set_W set_Winv].
  revert Hloop.
  apply (for_range_invariant (fun n (A : stack) =>
    forall k, (k < n)%nat ->
      exists B,
        inv (n_var - 1)
          (task (fun i j k0 => omega st (i + 1)%nat (j + 1)%nat k0) k)
        = Some B
        /\ forall a b, A a b k = B a b)).
  - intros k Hk. lia.
  - intros n A A' _ IH Hb k Hk.
    apply bind_inr in Hb. destruct Hb as [B [HB Hb]].
    apply or_raise_inr in HB.
    apply bind_inr in Hb. destruct Hb as [? [_ Hb]]. injection Hb as <-.
    unfold set_task. destruct (Nat.eqb_spec k n) as [->|Hne].
    + exists B. split; [exact HB|]. intros a b. reflexivity.
    + apply IH. lia.
Qed.

(** Branch [p != 0]: every task's slices of [W] and [Winv] become what
    [update_submatrix] makes of (copies of) the old slices. *)
Lemma advance_submatrix_tasks p st st' k :
  advance_submatrix_ p st = inr st' -> (k < n_tasks)%nat ->
  exists sub sub_inv : mat,
    (forall a b, sub a b = W st a b k)
    /\ (forall a b, sub_inv a b = Winv st a b k)
    /\ (forall a b,
          W st' a b k
          = fst (update_submatrix (n_var - 1) (task (omega st) k)
                                  sub sub_inv p) a b)
    /\ (forall a b,
          Winv st' a b k
          = snd (update_submatrix (n_var - 1) (task (omega st) k)
                                  sub sub_inv p) a b).
Proof.
  unfold advance_submatrix. intros H Hk.
  apply bind_inr in H. destruct H as [WW [Hloop H]].
  apply bind_inr in H. destruct H as [? [_ H]]. injection H as <-.
  cbn [W Winv set_W set_Winv].
  assert (Hinv :
    (k < n_tasks -> exists sub sub_inv : mat,
       (forall a b, sub a b = W st a b k)
       /\ (forall a b, sub_inv a b = Winv st a b k)
       /\ (forall a b,
             fst WW a b k
             = fst (update_submatrix (n_var - 1) (task (omega st) k)
                                     sub sub_inv p) a b)
       /\ (forall a b,
             snd WW a b k
             = snd (update_submatrix (n_var - 1) (task (omega st) k)
                                     sub sub_inv p) a b))%nat
    /\ ((n_tasks <= k)%nat -> forall a b,
          fst WW a b k = W st a b k /\ snd WW a b k = Winv st a b k)).
  { revert Hloop.
    apply (for_range_invariant (fun n (X : stack * stack) =>
      (k < n -> exists sub sub_inv : mat,
         (forall a b, sub a b = W st a b k)
         /\ (forall a b, sub_inv a b = Winv st a b k)
         /\ (forall a b,
               fst X a b k
               = fst (update_submatrix (n_var - 1) (task (omega st) k)
                                       sub sub_inv p) a b)
         /\ (forall a b,
               snd X a b k
               = snd (update_submatrix (n_var - 1) (task (omega st) k)
                                       sub sub_inv p) a b))%nat
      /\ ((n <= k)%nat -> forall a b,
            fst X a b k = W st a b k /\ snd X a b k = Winv st a b k))).
    - split; [intros Hlt; lia|]. intros _ a b. split; reflexivity.
    - intros n [Wa Winva] X' _ [IHdone IHtodo] Hb.
      destruct (update_submatrix (n_var - 1) (task (omega st) n)
                  (task Wa n) (task Winva n) p) as [Wk Winvk] eqn:Hupd.
      apply bind_inr in Hb. destruct Hb as [? [_ Hb]]. injection Hb as <-.
      cbn [fst snd] in *. unfold set_task. split.
      + intros Hlt. destruct (Nat.eqb_spec k n) as [->|Hne].
        * exists (task Wa n), (task Winva n).
          split; [intros a b; apply (IHtodo (Nat.le_refl n))|].
          split; [intros a b; apply (IHtodo (Nat.le_refl n))|].
          rewrite Hupd. split; reflexivity.
        * apply IHdone. lia.
      + intros Hle a b. destruct (Nat.eqb_spec k n) as [->|Hne]; [lia|].
        apply IHtodo. lia. }
  destruct Hinv as [Hdone _]. exact (Hdone Hk).
Qed.

(** [W] and [Winv] are set on entry to a pivot and left alone by the
    coordinate loop and the write-back. *)
Lemma pivot_update_keeps_submatrix p st st' :
  pivot_update_ p st = inr st' ->
  exists st0, pivot_enter_ p st = inr st0
              /\ W st' = W st0 /\ Winv st' = Winv st0.
Proof.
  intros H. apply pivot_update_inr in H.
  destruct H as (st0 & st1 & H0 & H1 & H2). exists st0.
  apply coordinate_loop_frame in H1. apply pivot_leave_spec in H2.
  destruct H1 as (_ & _ & W1 & Wi1 & _), H2 as (_ & W2 & Wi2 & _).
  repeat split; congruence.
Qed.

Lemma pivot_enter_submatrix p st st0 :
  pivot_enter_ p st = inr st0 ->
  exists t, (if Nat.eqb p 0 then initial_submatrix_ st
             else advance_submatrix_ p st) = inr t
            /\ W st0 = W t /\ Winv st0 = Winv t.
Proof.
  unfold pivot_enter. intros H.
  apply bind_inr in H. destruct H as [t [Ht H]]. injection H as <-.
  exists t. split; [exact Ht|].
  destruct (2 <=? verbose)%Z; split; reflexivity.
Qed.

Lemma delete_after_pivot_update p st st' k a b :
  pivot_update_ p st = inr st' ->
  delete_row_col p (task (omega st') k) a b
  = delete_row_col p (task (omega st) k) a b.
Proof.
  intros H. unfold delete_row_col, task.
  apply (pivot_update_omega_frame inv newton fast_logdet is_spd almost_equal
           n_var n_tasks n_samples rho verbose return_costs debug
           p st st' _ _ k H); apply skip_not_pivot.
Qed.

(** One pivot update keeps [W] in step with the pivot. *)
Lemma pivot_update_tracks p st st' :
  ((1 <= p)%nat ->
   forall k, (k < n_tasks)%nat ->
     mat_eq (n_var - 1) (n_var - 1) (task (W st) k)
            (delete_row_col (p - 1) (task (omega st) k))) ->
  pivot_update_ p st = inr st' ->
  forall k, (k < n_tasks)%nat ->
    mat_eq (n_var - 1) (n_var - 1) (task (W st') k)
           (delete_row_col p (task (omega st') k)).
Proof.
  intros Hbefore H k Hk a b Ha Hb.
  rewrite (delete_after_pivot_update p st st' k a b H).
  destruct (pivot_update_keeps_submatrix p st st' H) as (st0 & H0 & HW & _).
  destruct (pivot_enter_submatrix p st st0 H0) as (t & Ht & HWt & _).
  unfold task at 1. rewrite HW, HWt.
  destruct (Nat.eqb_spec p 0) as [->|Hp].
  - apply initial_submatrix_tasks in Ht. destruct Ht as [HW0 _].
    rewrite HW0. reflexivity.
  - destruct (advance_submatrix_tasks p st t k Ht Hk)
      as (sub & sub_inv & Hsub & _ & HWk & _).
    rewrite HWk.
    apply (submatrix_after_update (n_var - 1) (task (omega st) k)
             sub sub_inv p ltac:(lia)); [|exact Ha|exact Hb].
    intros i j Hi Hj. rewrite Hsub. apply (Hbefore ltac:(lia) k Hk i j Hi Hj).
Qed.

End AtOnePivot.

End SubmatrixProperties.

Section SweepProperties.

Variable empirical_covariance : ndarray2 -> bool -> mat.
Variable inv : nat -> mat -> option mat.
Variable newton : (R -> R) -> R -> (R -> R) -> nat -> option R.
Variable fast_logdet : nat -> mat -> R.
Variable is_spd : nat -> mat -> option nat -> bool.
Variable almost_equal : nat -> R -> R -> bool.

Section InOneSweep.

Variables (n_var n_tasks : nat) (n_samples : vec) (rho : R).
Variables (verbose : Z) (return_costs debug : bool).

Local Abbreviation coordinate_step_ :=
  (coordinate_step newton n_var n_tasks n_samples rho debug).
Local Abbreviation pivot_enter_ :=
  (pivot_enter inv is_spd almost_equal n_var n_tasks verbose debug).
Local Abbreviation pivot_leave_ :=
  (pivot_leave fast_logdet is_spd n_var n_tasks n_samples rho verbose
               return_costs debug).
Local Abbreviation pivot_update_ :=
  (pivot_update inv newton fast_logdet is_spd almost_equal n_var n_tasks
                n_samples rho verbose return_costs debug).
Local Abbreviation optimization_loop_ :=
  (optimization_loop inv newton fast_logdet is_spd almost_equal n_var n_tasks
                     n_samples rho verbose return_costs debug).

(** X14: after the first [q >= 1] pivot updates of a sweep, started in any
    state, [W] holds for every task the precision estimate without row
    and column [q - 1]: the submatrix is maintained exactly, whatever
    happens to its inverse. *)
Theorem submatrix_tracks_pivot q st st' :
  (1 <= q)%nat ->
  for_range q pivot_update_ st = inr st' ->
  forall k, (k < n_tasks)%nat ->
    mat_eq (n_var - 1) (n_var - 1) (task (W st') k)
           (delete_row_col (q - 1) (task (omega st') k)).
Proof.
  intros Hq H.
  assert (Hinv : (1 <= q)%nat ->
    forall k, (k < n_tasks)%nat ->
      mat_eq (n_var - 1) (n_var - 1) (task (W st') k)
             (delete_row_col (q - 1) (task (omega st') k))).
  { revert H.
    apply (for_range_invariant (fun i t =>
      (1 <= i)%nat ->
      forall k, (k < n_tasks)%nat ->
        mat_eq (n_var - 1) (n_var - 1) (task (W t) k)
               (delete_row_col (i - 1) (task (omega t) k)))).
    - intros Hi. lia.
    - intros i t t' _ IH Hb _ k Hk.
      replace (S i - 1)%nat with i by lia.
      exact (pivot_update_tracks inv newton fast_logdet is_spd almost_equal
               n_var n_tasks n_samples rho verbose return_costs debug
               i t t' IH Hb k Hk). }
  exact (Hinv Hq).
Qed.

(** X15: at a pivot [p >= 1], if [W] and [Winv] held the submatrix without row
    and column [p - 1] and its exact inverse, and the Sherman-Morrison
    steps are regular, the pivot update leaves in [W] and [Winv] the
    submatrix without row and column [p] of the updated estimate and its
    exact inverse.  At pivot 0, [np.linalg.inv] has returned, and [Winv]
    is exact as soon as what it returned is. *)
Theorem inverse_maintained_at_pivot p st st' k :
  pivot_update_ p st = inr st' -> (k < n_tasks)%nat ->
  ((1 <= p)%nat -> (p <= n_var - 1)%nat ->
   mat_eq (n_var - 1) (n_var - 1) (task (W st) k)
          (delete_row_col (p - 1) (task (omega st) k)) ->
   is_inverse (n_var - 1) (task (W st) k) (task (Winv st) k) ->
   invertible (n_var - 1) (row_replaced p (task (omega st) k)) ->
   invertible (n_var - 1) (delete_row_col p (task (omega st) k)) ->
   mat_eq (n_var - 1) (n_var - 1) (task (W st') k)
          (delete_row_col p (task (omega st') k))
   /\ is_inverse (n_var - 1) (task (W st') k) (task (Winv st') k))
  /\ (p = 0%nat ->
      exists B,
        inv (n_var - 1) (task (W st') k) = Some B
        /\ mat_eq (n_var - 1) (n_var - 1) (task (W st') k)
                  (delete_row_col 0 (task (omega st') k))
        /\ (is_inverse (n_var - 1) (task (W st') k) B ->
            is_inverse (n_var - 1) (task (W st') k) (task (Winv st') k))).
Proof.
  intros H Hk.
  destruct (pivot_update_keeps_submatrix inv newton fast_logdet is_spd
              almost_equal n_var n_tasks n_samples rho verbose return_costs
              debug p st st' H) as (st0 & H0 & HW & HWi).
  destruct (pivot_enter_submatrix inv is_spd almost_equal n_var n_tasks
              verbose debug p st st0 H0) as (t & Ht & HWt & HWit).
  assert (Hdel : forall a b,
            delete_row_col p (task (omega st') k) a b
            = delete_row_col p (task (omega st) k) a b).
  { intros a b.
    apply (delete_after_pivot_update inv newton fast_logdet is_spd
             almost_equal n_var n_tasks n_samples rho verbose return_costs
             debug p st st' k a b H). }
  split.
  - intros Hp HpN Hsub Hinv Hmid Hnew.
    destruct (Nat.eqb_spec p 0) as [->|_]; [lia|].
    destruct (advance_submatrix_tasks is_spd almost_equal n_var n_tasks debug
                p st t k Ht Hk) as (sub & sub_inv & Es & Ei & HWk & HWik).
    destruct (update_submatrix_step (n_var - 1) (task (omega st) k)
                sub sub_inv p Hp HpN) as [S1 S2]; try assumption.
    + intros i j Hi Hj. rewrite Es. apply (Hsub i j Hi Hj).
    + revert Hinv. apply is_inverse_ext; intros i j _ _; unfold task;
        symmetry; [apply Es | apply Ei].
    + split.
      * intros a b Ha Hb. rewrite Hdel. unfold task at 1.
        rewrite HW, HWt, HWk. apply (S1 a b Ha Hb).
      * revert S2. apply is_inverse_ext; intros a b _ _; unfold task.
        -- rewrite HW, HWt, HWk. reflexivity.
        -- rewrite HWi, HWit, HWik. reflexivity.
  - intros ->. cbn [Nat.eqb] in Ht.
    apply (initial_submatrix_tasks inv almost_equal n_var n_tasks debug)
      in Ht.
    destruct Ht as [HW0 HWi0]. destruct (HWi0 k Hk) as [B [HB HWiB]].
    exists B. split; [rewrite HW, HWt; exact HB|]. split.
    + intros a b _ _. rewrite Hdel. unfold task at 1.
      rewrite HW, HWt, HW0. reflexivity.
    + apply is_inverse_ext; intros a b _ _.
      * reflexivity.
      * unfold task. rewrite HWi, HWit, HWiB. reflexivity.
Qed.

(** ** Warnings *)

Lemma coordinate_step_warns_once p m st st' :
  coordinate_step_ p m st = inr st' ->
  (count_warn (log st') <= count_warn (log st) + 1)%nat.
Proof.
  unfold coordinate_step. intros H.
  destruct (Rle_dec _ _).
  - injection H as <-. simpl. lia.
  - apply bind_inr in H. destruct H as [? [_ H]].
    apply bind_inr in H. destruct H as [alpha [_ H]].
    apply bind_inr in H. destruct H as [? [_ H]]. injection H as <-.
    destruct (Rlt_dec _ _); simpl; rewrite ?count_warn_app; simpl; lia.
Qed.

Lemma pivot_leave_no_warning p st st' :
  pivot_leave_ p st = inr st' -> count_warn (log st') = count_warn (log st).
Proof.
  unfold pivot_leave. intros H.
  apply bind_inr in H. destruct H as [t [Ht H]].
  assert (Hlog : log t = log st).
  { revert Ht.
    apply (for_range_invariant (fun _ a => log a = log st)).
    - reflexivity.
    - intros i a a' _ IH Hb.
      apply bind_inr in Hb. destruct Hb as [? [_ Hb]]. injection Hb as <-.
      exact IH. }
  unfold _group_sparse_covariance_cost in H.
  destruct return_costs; [|injection H as <-; congruence].
  destruct (1 <=? verbose)%Z; injection H as <-; simpl;
    rewrite ?count_warn_app, Hlog; simpl; lia.
Qed.

Lemma pivot_update_warnings p st st' :
  pivot_update_ p st = inr st' ->
  (count_warn (log st') <= count_warn (log st) + (n_var - 1))%nat.
Proof.
  intros H. apply pivot_update_inr in H.
  destruct H as (st0 & st1 & H0 & H1 & H2).
  apply pivot_enter_frame in H0. destruct H0 as (_ & _ & _ & L0 & _).
  apply pivot_leave_no_warning in H2.
  assert (Hloop : (count_warn (log st1)
                   <= count_warn (log st0) + (n_var - 1))%nat).
  { revert H1.
    apply (for_range_invariant (fun i t =>
             (count_warn (log t) <= count_warn (log st0) + i)%nat)).
    - lia.
    - intros i t t' _ IH Hb. apply coordinate_step_warns_once in Hb. lia. }
  assert (count_warn (log st0) = count_warn (log st)).
  { rewrite L0, count_warn_app. destruct (2 <=? verbose)%Z; simpl; lia. }
  lia.
Qed.

Lemma optimization_loop_warnings n_iter st st' :
  optimization_loop_ n_iter st = inr st' ->
  (count_warn (log st')
   <= count_warn (log st) + n_iter * (n_var * (n_var - 1)))%nat.
Proof.
  unfold optimization_loop.
  apply (for_range_invariant (fun n t =>
    (count_warn (log t)
     <= count_warn (log st) + n * (n_var * (n_var - 1)))%nat)).
  - lia.
  - intros n t t' _ IH Hb. unfold sweep in Hb.
    assert (Hsweep : (count_warn (log t')
                      <= count_warn (log t) + n_var * (n_var - 1))%nat).
    { assert (Hstart :
        count_warn (log (if (1 <=? verbose)%Z
                         then emit t [PrintIteration n] else t))
        = count_warn (log t)).
      { destruct (1 <=? verbose)%Z; [|reflexivity].
        simpl. rewrite count_warn_app. simpl. lia. }
      rewrite <- Hstart. revert Hb.
      apply (for_range_invariant (fun i a =>
        (count_warn (log a)
         <= count_warn (log (if (1 <=? verbose)%Z
                             then emit t [PrintIteration n] else t))
            + i * (n_var - 1))%nat)).
      - lia.
      - intros i a a' _ IHa Ha. apply pivot_update_warnings in Ha. lia. }
    lia.
Qed.

End InOneSweep.

(** ** The whole call, at its edges *)

(** X16: at most one warning is logged per coordinate step: a call that
    returns has logged at most [n_iter * n_var * (n_var - 1)] warnings. *)
Theorem warnings_bounded signals rho_arg n_iter assume_centered verbose
        return_costs debug out :
  group_sparse_covariance empirical_covariance inv newton fast_logdet is_spd
    almost_equal signals rho_arg n_iter assume_centered verbose return_costs
    debug = inr out ->
  exists s l,
    signals = Iterable (s :: l)
    /\ (count_warn (out_log out)
        <= n_iter * (shape1 s * (shape1 s - 1)))%nat.
Proof.
  intros H. apply group_sparse_covariance_inr in H.
  destruct H as (r & s & l & E & st' & _ & _ & Hs & _ & _ & _ & Hloop & ->).
  exists s, l. split; [exact Hs|].
  apply optimization_loop_warnings in Hloop. simpl in Hloop. exact Hloop.
Qed.

(** X17: an input that passes the three checks but has no task, or fewer than
    two variables, never returns: no task gives IndexError, fewer than
    two variables gives numpy's ValueError at the preallocation (or, in
    debug mode, a failed assertion before it), for every [n_iter]. *)
Theorem degenerate_inputs_raise rho_arg n_iter assume_centered verbose
        return_costs debug :
  rho_accepted rho_arg ->
  group_sparse_covariance empirical_covariance inv newton fast_logdet is_spd
    almost_equal (Iterable []) rho_arg n_iter assume_centered verbose
    return_costs debug
  = inl (IndexError "list index out of range")
  /\ (forall s l,
        same_features (s :: l) -> (shape1 s < 2)%nat ->
        exists e,
          group_sparse_covariance empirical_covariance inv newton fast_logdet
            is_spd almost_equal (Iterable (s :: l)) rho_arg n_iter
            assume_centered verbose return_costs debug = inl e
          /\ (e = ValueError "negative dimensions are not allowed"
              \/ (debug = true /\ e = AssertionError))).
Proof.
  intros [r [Hnum Hr]]. unfold group_sparse_covariance. rewrite Hnum.
  destruct (Rlt_dec r 0) as [Hneg|_]; [lra|]. cbn [bind ret]. split.
  - reflexivity.
  - intros s l Hs Hn. apply same_features_check in Hs. rewrite Hs.
    cbn [bind ret].
    destruct (build_emp_covs empirical_covariance is_spd (s :: l) (shape1 s)
                assume_centered debug) as [e|E] eqn:HE.
    + exists e. split; [reflexivity|]. right.
      now apply build_emp_covs_raises in HE.
    + cbn [bind ret]. rewrite (preallocate_too_few _ _ Hn).
      eexists. split; [reflexivity|]. left. reflexivity.
Qed.

(** X18: with [n_iter = 0] the loop body never runs: a call that returns
    gives back the initial precision estimates, diagonal with the inverses
    of the returned variances, an empty cost trace (iff [return_costs]) and
    an empty log. *)
Theorem zero_iterations signals rho_arg assume_centered verbose return_costs
        debug out :
  group_sparse_covariance empirical_covariance inv newton fast_logdet is_spd
    almost_equal signals rho_arg 0 assume_centered verbose return_costs
    debug = inr out ->
  exists s l,
    signals = Iterable (s :: l)
    /\ (forall i j k, (i < shape1 s)%nat -> (j < shape1 s)%nat ->
          (k < List.length (s :: l))%nat ->
          out_omega out i j k
          = if Nat.eqb i j then 1 / out_emp_covs out i i k else 0)
    /\ out_costs out = (if return_costs then Some [] else None)
    /\ out_log out = [].
Proof.
  intros H. apply group_sparse_covariance_inr in H.
  destruct H as (r & s & l & E & st' & _ & _ & Hs & _ & _ & _ & Hloop & ->).
  unfold optimization_loop in Hloop. simpl in Hloop. injection Hloop as <-.
  exists s, l. split; [exact Hs|]. repeat split.
Qed.

End SweepProperties.

(** ** Symmetry of the maintained inverse *)

Lemma inverse_unique N A B C :
  is_inverse N A B -> is_inverse N A C -> mat_eq N N B C.
Proof.
  intros [_ HBA] [HAC _] i j Hi Hj.
  (* B = B (A C) = (B A) C = C *)
  rewrite <- (rsum_pick_r N j (fun k => B i k) Hj).
  rewrite (rsum_ext _ _ (fun k => rsum N (fun l => B i k * (A k l * C l j)))).
  2:{ intros k Hk. change (if Nat.eqb k j then 1 else 0) with (eye k j).
      rewrite <- (HAC k j Hk Hj). unfold dot_mm.
      rewrite <- rsum_scal_l. reflexivity. }
  rewrite rsum_swap.
  rewrite (rsum_ext _ _ (fun l => (if Nat.eqb i l then 1 else 0) * C l j)).
  2:{ intros l Hl. change (if Nat.eqb i l then 1 else 0) with (eye i l).
      rewrite <- (HBA i l Hi Hl). unfold dot_mm.
      rewrite <- rsum_scal_r. apply rsum_ext. intros. ring. }
  rewrite (rsum_ext _ _ (fun l => (if Nat.eqb l i then 1 else 0) * C l j)).
  2:{ intros l _. rewrite (Nat.eqb_sym l i). reflexivity. }
  apply (rsum_pick_l N i (fun l => C l j) Hi).
Qed.

Lemma inverse_of_symmetric N A B :
  symmetric N A -> is_inverse N A B -> symmetric N B.
Proof.
  intros Hsym Hinv i j Hi Hj.
  assert (Ht : is_inverse N A (transpose B)).
  { apply is_inverse_transpose in Hinv. revert Hinv.
    apply is_inverse_ext.
    - intros a b Ha Hb. unfold transpose. symmetry. now apply Hsym.
    - intros a b _ _. reflexivity. }
  exact (inverse_unique N A B (transpose B) Hinv Ht i j Hi Hj).
Qed.

Lemma delete_row_col_symmetric N p full :
  symmetric (S N) full -> symmetric N (delete_row_col p full).
Proof.
  intros Hsym i j Hi Hj. unfold delete_row_col, skip.
  apply Hsym; destruct (_ <? _); lia.
Qed.

(** X5: on a symmetric [full], under the conditions that keep the inverse
    exact, what [update_submatrix] leaves in [sub] and in [sub_inv] is
    symmetric: the two rank-one corrections together preserve symmetry. *)
Theorem update_submatrix_keeps_symmetry N full sub sub_inv p :
  (1 <= p)%nat -> (p <= N)%nat ->
  symmetric (S N) full ->
  mat_eq N N sub (delete_row_col (p - 1) full) ->
  is_inverse N sub sub_inv ->
  invertible N (row_replaced p full) ->
  invertible N (delete_row_col p full) ->
  symmetric N (fst (update_submatrix N full sub sub_inv p))
  /\ symmetric N (snd (update_submatrix N full sub sub_inv p)).
Proof.
  intros Hp HpN Hsym Hsub Hinv Hmid Hnew.
  destruct (update_submatrix_step N full sub sub_inv p Hp HpN Hsub Hinv
              Hmid Hnew) as [H1 H2].
  assert (Hs : symmetric N (fst (update_submatrix N full sub sub_inv p))).
  { intros i j Hi Hj. rewrite (H1 i j Hi Hj), (H1 j i Hj Hi).
    now apply (delete_row_col_symmetric N p full Hsym). }
  split; [exact Hs|]. exact (inverse_of_symmetric N _ _ Hs H2).
Qed.

(** ** The vectors of the rank-one updates *)

(** X3: [update_vectors(full, n)] returns row [n] and column [n] of [full]
    without row and column [n + 1]; on a symmetric [full] the two are
    equal. *)
Theorem update_vectors_row_and_column N full n :
  (forall j, fst (update_vectors full n) j
             = delete_row_col (n + 1) full n j)
  /\ (forall i, snd (update_vectors full n) i
                = delete_row_col (n + 1) full i n)
  /\ (symmetric (S N) full -> (n < N)%nat ->
      forall i, (i < N)%nat ->
        fst (update_vectors full n) i = snd (update_vectors full n) i).
Proof.
  assert (Hn : skip (n + 1) n = n).
  { unfold skip. destruct (Nat.ltb_spec n (n + 1)); [reflexivity|lia]. }
  assert (Hh : forall j, fst (update_vectors full n) j
                         = delete_row_col (n + 1) full n j).
  { intros j. unfold delete_row_col. rewrite Hn. unfold update_vectors, skip.
    cbn [fst]. destruct (j <? n + 1); reflexivity. }
  assert (Hv : forall i, snd (update_vectors full n) i
                         = delete_row_col (n + 1) full i n).
  { intros i. unfold delete_row_col. rewrite Hn. unfold update_vectors, skip.
    cbn [snd]. destruct (i <? n + 1); reflexivity. }
  split; [exact Hh|]. split; [exact Hv|].
  intros Hsym HnN i Hi. rewrite Hh, Hv.
  now apply (delete_row_col_symmetric N (n + 1) full Hsym).
Qed.

Section ResultProperties.

Variable empirical_covariance : ndarray2 -> bool -> mat.
Variable inv : nat -> mat -> option mat.
Variable newton : (R -> R) -> R -> (R -> R) -> nat -> option R.
Variable fast_logdet : nat -> mat -> R.
Variable is_spd : nat -> mat -> option nat -> bool.
Variable almost_equal : nat -> R -> R -> bool.

Section TracedLoop.

Variables (n_var n_tasks : nat) (n_samples : vec) (rho : R).
Variables (verbose : Z) (debug : bool).

Local Abbreviation cost_of st :=
  (fst (_group_sparse_covariance_cost fast_logdet n_var n_tasks n_samples rho
          (omega st) (emp_covs st) false)).
Local Abbreviation pivot_leave_ rc :=
  (pivot_leave fast_logdet is_spd n_var n_tasks n_samples rho verbose rc
               debug).
Local Abbreviation pivot_update_ rc :=
  (pivot_update inv newton fast_logdet is_spd almost_equal n_var n_tasks
                n_samples rho verbose rc debug).
Local Abbreviation optimization_loop_ rc :=
  (optimization_loop inv newton fast_logdet is_spd almost_equal n_var n_tasks
                     n_samples rho verbose rc debug).

(** ** The cost trace *)

Lemma pivot_leave_last_cost p st st' :
  pivot_leave_ true p st = inr st' ->
  exists l, costs st' = l ++ [cost_of st'].
Proof.
  unfold pivot_leave. intros H.
  apply bind_inr in H. destruct H as [t [_ H]].
  unfold _group_sparse_covariance_cost in H. cbv zeta in H.
  injection H as <-. exists (costs t). reflexivity.
Qed.

Lemma pivot_update_last_cost p st st' :
  pivot_update_ true p st = inr st' ->
  exists l, costs st' = l ++ [cost_of st'].
Proof.
  intros H. apply pivot_update_inr in H.
  destruct H as (st0 & st1 & _ & _ & H2).
  exact (pivot_leave_last_cost p st1 st' H2).
Qed.

Lemma optimization_loop_last_cost n_iter st st' :
  (1 <= n_iter)%nat -> (1 <= n_var)%nat ->
  optimization_loop_ true n_iter st = inr st' ->
  exists l, costs st' = l ++ [cost_of st'].
Proof.
  intros Hit Hvar H. unfold optimization_loop in H.
  assert (Hinv : (1 <= n_iter)%nat ->
                 exists l, costs st' = l ++ [cost_of st']).
  { revert H.
    apply (for_range_invariant (fun n t =>
             (1 <= n)%nat -> exists l, costs t = l ++ [cost_of t])).
    - intros Hn. lia.
    - intros n t t' _ _ Hb _. unfold sweep in Hb.
      assert (Hq : (1 <= n_var)%nat ->
                   exists l, costs t' = l ++ [cost_of t']).
      { revert Hb.
        apply (for_range_invariant (fun q a =>
                 (1 <= q)%nat -> exists l, costs a = l ++ [cost_of a])).
        - intros Hq. lia.
        - intros q a a' _ _ Ha _. exact (pivot_update_last_cost q a a' Ha). }
      exact (Hq Hvar). }
  exact (Hinv Hit).
Qed.

(** ** What the debug checks have seen *)

Lemma pivot_leave_checked rc p st st' :
  debug = true ->
  pivot_leave_ rc p st = inr st' ->
  forall k, (k < n_tasks)%nat ->
    exists M : mat,
      (forall i j, M i j = omega st' i j k)
      /\ is_spd n_var M None = true.
Proof.
  intros Hd H. unfold pivot_leave in H.
  apply bind_inr in H. destruct H as [t [Ht H]].
  assert (Hloop : forall k, (k < n_tasks)%nat ->
            exists M : mat,
              (forall i j, M i j = omega t i j k)
              /\ is_spd n_var M None = true).
  { revert Ht.
    apply (for_range_invariant (fun n a =>
      forall k, (k < n)%nat ->
        exists M : mat,
          (forall i j, M i j = omega a i j k)
          /\ is_spd n_var M None = true)).
    - intros k Hk. lia.
    - intros n a a' _ IH Hb k Hk. rewrite Hd in Hb.
      apply bind_inr in Hb. destruct Hb as [[] [Hchk Hb]].
      injection Hb as <-.
      destruct (Nat.eq_dec k n) as [->|Hne].
      + unfold assert in Hchk.
        destruct (is_spd n_var _ None) eqn:Hspd; [|discriminate].
        eexists. split; [|exact Hspd]. intros i j. reflexivity.
      + destruct (IH k ltac:(lia)) as [M [HM Hspd]].
        exists M. split; [|exact Hspd].
        intros i j. rewrite HM. cbn [omega set_omega].
        destruct (Nat.eqb_spec k n) as [|_]; [contradiction|].
        rewrite andb_false_r. reflexivity. }
  assert (Ho : omega st' = omega t).
  { unfold _group_sparse_covariance_cost in H.
    destruct rc; injection H as <-; reflexivity. }
  rewrite Ho. exact Hloop.
Qed.

Lemma optimization_loop_checked rc n_iter st st' :
  debug = true -> (1 <= n_iter)%nat -> (1 <= n_var)%nat ->
  optimization_loop_ rc n_iter st = inr st' ->
  forall k, (k < n_tasks)%nat ->
    exists M : mat,
      (forall i j, M i j = omega st' i j k)
      /\ is_spd n_var M None = true.
Proof.
  intros Hd Hit Hvar H. unfold optimization_loop in H.
  assert (Hinv : (1 <= n_iter)%nat ->
    forall k, (k < n_tasks)%nat ->
      exists M : mat,
        (forall i j, M i j = omega st' i j k)
        /\ is_spd n_var M None = true).
  { revert H.
    apply (for_range_invariant (fun n t =>
      (1 <= n)%nat ->
      forall k, (k < n_tasks)%nat ->
        exists M : mat,
          (forall i j, M i j = omega t i j k)
          /\ is_spd n_var M None = true)).
    - intros Hn. lia.
    - intros n t t' _ _ Hb _. unfold sweep in Hb.
      assert (Hq : (1 <= n_var)%nat ->
        forall k, (k < n_tasks)%nat ->
          exists M : mat,
            (forall i j, M i j = omega t' i j k)
            /\ is_spd n_var M None = true).
      { revert Hb.
        apply (for_range_invariant (fun q a =>
          (1 <= q)%nat ->
          forall k, (k < n_tasks)%nat ->
            exists M : mat,
              (forall i j, M i j = omega a i j k)
              /\ is_spd n_var M None = true)).
        - intros Hq. lia.
        - intros q a a' _ _ Ha _. apply pivot_update_inr in Ha.
          destruct Ha as (st0 & st1 & _ & _ & H2).
          exact (pivot_leave_checked rc q st1 a' Hd H2). }
      exact (Hq Hvar). }
  exact (Hinv Hit).
Qed.

End TracedLoop.

Lemma build_emp_covs_checked l n_var assume_centered E :
  build_emp_covs empirical_covariance is_spd l n_var assume_centered true
    = inr E ->
  forall k, (k < List.length l)%nat ->
    exists M : mat,
      (forall i j, M i j = E i j k) /\ is_spd n_var M None = true.
Proof.
  unfold build_emp_covs.
  apply (for_range_invariant (fun n (A : stack) =>
    forall k, (k < n)%nat ->
      exists M : mat,
        (forall i j, M i j = A i j k) /\ is_spd n_var M None = true)).
  - intros k Hk. lia.
  - intros n A A' _ IH Hb k Hk.
    apply bind_inr in Hb. destruct Hb as [[] [Hchk Hb]]. injection Hb as <-.
    destruct (Nat.eq_dec k n) as [->|Hne].
    + unfold assert in Hchk.
      destruct (is_spd n_var _ None) eqn:Hspd; [|discriminate].
      eexists. split; [|exact Hspd]. intros i j. reflexivity.
    + destruct (IH k ltac:(lia)) as [M [HM Hspd]].
      exists M. split; [|exact Hspd].
      intros i j. rewrite HM. unfold set_task.
      destruct (Nat.eqb_spec k n) as [|_]; [contradiction|]. reflexivity.
Qed.

Lemma preallocate_inr n_var n_tasks :
  preallocate n_var n_tasks = inr tt -> (2 <= n_var)%nat.
Proof.
  intros H. destruct (le_lt_dec 2 n_var) as [|Hlt]; [assumption|].
  rewrite (preallocate_too_few _ _ Hlt) in H. discriminate.
Qed.

(** X19: with [return_costs] on and at least one sweep, the last entry of the
    returned cost trace is the cost of the returned precision estimates
    on the returned covariances. *)
Theorem final_cost_is_cost_of_result signals rho_arg n_iter assume_centered
        verbose debug out :
  (1 <= n_iter)%nat ->
  group_sparse_covariance empirical_covariance inv newton fast_logdet is_spd
    almost_equal signals rho_arg n_iter assume_centered verbose true debug
  = inr out ->
  exists r s l trace,
    number_of rho_arg = Some r /\ signals = Iterable (s :: l)
    /\ out_costs out = Some trace
    /\ last trace 0
       = fst (_group_sparse_covariance_cost fast_logdet (shape1 s)
                (List.length (s :: l)) (sample_weights (s :: l)) r
                (out_omega out) (out_emp_covs out) false).
Proof.
  intros Hit H. apply group_sparse_covariance_inr in H.
  destruct H as (r & s & l & E & st' & Hr & _ & Hs & _ & _ & Hpre & Hloop
                 & ->).
  apply preallocate_inr in Hpre.
  apply optimization_loop_last_cost in Hloop; [|exact Hit|lia].
  destruct Hloop as [tr Htr].
  exists r, s, l, (costs st'). repeat split; try assumption.
  cbn [out_omega out_emp_covs]. rewrite Htr at 1. apply last_last.
Qed.

(** X20: a call in debug mode that returns has seen [is_spd] pass on every
    returned covariance and, when at least one sweep was run, on every
    returned precision estimate. *)
Theorem debug_run_certifies_result signals rho_arg n_iter assume_centered
        verbose return_costs out :
  group_sparse_covariance empirical_covariance inv newton fast_logdet is_spd
    almost_equal signals rho_arg n_iter assume_centered verbose return_costs
    true = inr out ->
  exists s l,
    signals = Iterable (s :: l)
    /\ forall k, (k < List.length (s :: l))%nat ->
         (exists M : mat,
            (forall i j, M i j = out_emp_covs out i j k)
            /\ is_spd (shape1 s) M None = true)
         /\ ((1 <= n_iter)%nat ->
             exists M : mat,
               (forall i j, M i j = out_omega out i j k)
               /\ is_spd (shape1 s) M None = true).
Proof.
  intros H. apply group_sparse_covariance_inr in H.
  destruct H as (r & s & l & E & st' & _ & _ & Hs & _ & HE & Hpre & Hloop
                 & ->).
  apply preallocate_inr in Hpre.
  exists s, l. split; [exact Hs|]. intros k Hk. split.
  - cbn [out_emp_covs].
    rewrite (optimization_loop_emp_covs _ _ _ _ _ _ _ _ _ _ _ _ _ _ _
               Hloop).
    exact (build_emp_covs_checked _ _ _ _ HE k Hk).
  - intros Hit. cbn [out_omega].
    assert (Hvar : (1 <= shape1 s)%nat) by lia.
    exact (optimization_loop_checked _ _ _ _ _ true return_costs n_iter
             (initial_state E) st' eq_refl Hit Hvar Hloop k Hk).
Qed.

(** With the debug checks off and library routines that return, an input
    that passes the three checks and has at least one task and two
    variables returns. *)
Lemma group_sparse_covariance_returns s l rho_arg n_iter assume_centered
      verbose return_costs :
  inv_returns inv -> newton_returns newton ->
  rho_accepted rho_arg -> same_features (s :: l) -> (2 <= shape1 s)%nat ->
  exists out,
    group_sparse_covariance empirical_covariance inv newton fast_logdet
      is_spd almost_equal (Iterable (s :: l)) rho_arg n_iter assume_centered
      verbose return_costs false = inr out.
Proof.
  intros Hinv Hnewton [r [Hnum Hr]] Hs Hn.
  unfold group_sparse_covariance. rewrite Hnum.
  destruct (Rlt_dec r 0) as [Hneg|_]; [lra|]. cbn [bind ret].
  apply same_features_check in Hs. rewrite Hs. cbn [bind ret].
  destruct (build_emp_covs_returns empirical_covariance is_spd (s :: l)
              (shape1 s) assume_centered) as [E HE].
  rewrite HE. cbn [bind ret]. rewrite (preallocate_enough _ _ Hn).
  cbn [bind ret].
  destruct (optimization_loop_returns inv newton fast_logdet is_spd
              almost_equal (shape1 s) (List.length (s :: l))
              (sample_weights (s :: l)) r verbose return_costs false
              n_iter (initial_state E) Hinv Hnewton eq_refl)
    as [st' Hloop].
  rewrite Hloop. cbn [bind ret]. destruct return_costs; eexists; reflexivity.
Qed.

End ResultProperties.

Section UncorrelatedInputs.

Variable empirical_covariance : ndarray2 -> bool -> mat.
Variable inv : nat -> mat -> option mat.
Variable newton : (R -> R) -> R -> (R -> R) -> nat -> option R.
Variable fast_logdet : nat -> mat -> R.
Variable is_spd : nat -> mat -> option nat -> bool.
Variable almost_equal : nat -> R -> R -> bool.

Section DiagonalLoop.

Variables (n_var n_tasks : nat) (n_samples : vec) (rho : R).
Variables (verbose : Z) (return_costs debug : bool).

Local Abbreviation coordinate_c_ := (coordinate_c n_var n_samples).
Local Abbreviation coordinate_c2_ := (coordinate_c2 n_var n_tasks n_samples).
Local Abbreviation coordinate_step_ :=
  (coordinate_step newton n_var n_tasks n_samples rho debug).
Local Abbreviation pivot_update_ :=
  (pivot_update inv newton fast_logdet is_spd almost_equal n_var n_tasks
                n_samples rho verbose return_costs debug).
Local Abbreviation optimization_loop_ :=
  (optimization_loop inv newton fast_logdet is_spd almost_equal n_var n_tasks
                     n_samples rho verbose return_costs debug).

(** ** Diagonal covariances *)

Lemma coordinate_c_uncorrelated p m st k :
  (forall i, (i < n_var - 1)%nat -> y st k i = 0) -> u st k m = 0 ->
  coordinate_c_ p m st k = 0.
Proof.
  intros Hy Hu. unfold coordinate_c. rewrite Hu, rsum_zero; [ring|].
  intros i Hi. destruct (i <? m); rewrite Hy by lia; ring.
Qed.

Lemma coordinate_step_uncorrelated p m st st' :
  0 <= rho -> (m < n_var - 1)%nat ->
  (forall k i, (k < n_tasks)%nat -> (i < n_var - 1)%nat ->
     y st k i = 0 /\ u st k i = 0) ->
  coordinate_step_ p m st = inr st' ->
  (forall k i, (k < n_tasks)%nat -> (i < n_var - 1)%nat -> y st' k i = 0)
  /\ log st' = log st.
Proof.
  intros Hrho Hm Hzero H.
  assert (Hc2 : coordinate_c2_ p m st <= rho).
  { unfold coordinate_c2, dot. rewrite rsum_zero; [rewrite sqrt_0; exact Hrho|].
    intros k Hk. rewrite coordinate_c_uncorrelated; [ring| |].
    - intros i Hi. apply (Hzero k i Hk Hi).
    - apply (Hzero k m Hk Hm). }
  unfold coordinate_step in H.
  destruct (Rle_dec _ _) as [_|Hgt]; [|contradiction].
  injection H as <-. split; [|reflexivity].
  intros k i Hk Hi. cbn [y set_y].
  destruct (Nat.eqb i m); [reflexivity|]. apply (Hzero k i Hk Hi).
Qed.

Lemma pivot_update_uncorrelated p st st' :
  0 <= rho -> (p < n_var)%nat ->
  (forall i j k, (i < n_var)%nat -> (j < n_var)%nat -> (k < n_tasks)%nat ->
     i <> j -> emp_covs st i j k = 0) ->
  (forall i j k, (i < n_var)%nat -> (j < n_var)%nat -> (k < n_tasks)%nat ->
     omega st i j k = initial_omega (emp_covs st) i j k) ->
  pivot_update_ p st = inr st' ->
  emp_covs st' = emp_covs st
  /\ (forall i j k, (i < n_var)%nat -> (j < n_var)%nat -> (k < n_tasks)%nat ->
        omega st' i j k = initial_omega (emp_covs st) i j k)
  /\ count_warn (log st') = count_warn (log st).
Proof.
  intros Hrho Hp Hdiag Hinit H.
  pose proof (pivot_update_emp_covs _ _ _ _ _ _ _ _ _ _ _ _ _ _ _ H) as He.
  apply pivot_update_inr in H. destruct H as (st0 & st1 & H0 & H1 & H2).
  apply pivot_enter_frame in H0.
  destruct H0 as (E0 & O0 & _ & L0 & Y0 & U0).
  assert (Hstart : forall k i, (k < n_tasks)%nat -> (i < n_var - 1)%nat ->
            y st0 k i = 0 /\ u st0 k i = 0).
  { intros k i Hk Hi. rewrite Y0, U0.
    destruct (Nat.ltb_spec i p).
    - rewrite Hinit, Hdiag by lia. unfold initial_omega.
      destruct (Nat.eqb_spec i p); [lia|]. split; reflexivity.
    - rewrite Hinit, Hdiag by lia. unfold initial_omega.
      destruct (Nat.eqb_spec (i + 1) p); [lia|]. split; reflexivity. }
  assert (Hloop :
    emp_covs st1 = emp_covs st0 /\ omega st1 = omega st0
    /\ log st1 = log st0
    /\ (forall k i, (k < n_tasks)%nat -> (i < n_var - 1)%nat ->
          y st1 k i = 0 /\ u st1 k i = 0)).
  { revert H1.
    apply (for_range_invariant (fun (n : nat) t =>
      emp_covs t = emp_covs st0 /\ omega t = omega st0
      /\ log t = log st0
      /\ (forall k i, (k < n_tasks)%nat -> (i < n_var - 1)%nat ->
            y t k i = 0 /\ u t k i = 0))).
    - repeat split; apply Hstart; assumption.
    - intros n t t' Hn (I1 & I2 & I3 & I4) Hb.
      destruct (coordinate_step_uncorrelated p n t t' Hrho Hn I4 Hb)
        as [Hy' Hl'].
      apply coordinate_step_frame in Hb.
      destruct Hb as (G1 & G2 & _ & _ & G5 & _).
      repeat split; try congruence.
      + now apply Hy'.
      + rewrite G5. now apply I4. }
  destruct Hloop as (E1 & O1 & L1 & Z1).
  pose proof (pivot_leave_no_warning _ _ _ _ _ _ _ _ _ _ _ _ H2) as L2.
  apply pivot_leave_spec in H2.
  destruct H2 as (_ & _ & _ & _ & _ & Hoff & Hdg & _).
  split; [exact He|]. split.
  - intros i j k Hi Hj Hk.
    destruct (Nat.eq_dec i p) as [->|Hip];
      [destruct (Nat.eq_dec j p) as [->|Hjp]|].
    + rewrite (Hdg k Hk). unfold pivot_diagonal, initial_omega, dot.
      rewrite Nat.eqb_refl, E1, E0.
      rewrite (rsum_zero (n_var - 1)); [ring|].
      intros a Ha. rewrite (proj1 (Z1 k a Hk Ha)). ring.
    + rewrite Hoff by tauto. rewrite copy_back_entry, Nat.eqb_refl.
      destruct (Nat.eqb_spec j p) as [|_]; [contradiction|].
      unfold initial_omega. destruct (Nat.eqb_spec p j) as [|_]; [congruence|].
      apply Z1; [exact Hk|]. destruct (Nat.ltb_spec j p); lia.
    + rewrite Hoff by tauto. rewrite copy_back_entry.
      destruct (Nat.eqb_spec i p) as [|_]; [contradiction|].
      destruct (Nat.eqb_spec j p) as [->|Hjp].
      * unfold initial_omega. destruct (Nat.eqb_spec i p) as [|_];
          [contradiction|].
        apply Z1; [exact Hk|]. destruct (Nat.ltb_spec i p); lia.
      * rewrite O1, O0. now apply Hinit.
  - rewrite L2, L1, L0, count_warn_app.
    destruct (2 <=? verbose)%Z; simpl; lia.
Qed.

Lemma optimization_loop_uncorrelated n_iter st st' :
  0 <= rho ->
  (forall i j k, (i < n_var)%nat -> (j < n_var)%nat -> (k < n_tasks)%nat ->
     i <> j -> emp_covs st i j k = 0) ->
  (forall i j k, (i < n_var)%nat -> (j < n_var)%nat -> (k < n_tasks)%nat ->
     omega st i j k = initial_omega (emp_covs st) i j k) ->
  optimization_loop_ n_iter st = inr st' ->
  (forall i j k, (i < n_var)%nat -> (j < n_var)%nat -> (k < n_tasks)%nat ->
     omega st' i j k = initial_omega (emp_covs st) i j k)
  /\ count_warn (log st') = count_warn (log st).
Proof.
  intros Hrho Hdiag Hinit H.
  assert (Hinv :
    emp_covs st' = emp_covs st
    /\ (forall i j k, (i < n_var)%nat -> (j < n_var)%nat ->
          (k < n_tasks)%nat ->
          omega st' i j k = initial_omega (emp_covs st) i j k)
    /\ count_warn (log st') = count_warn (log st)).
  { revert H. unfold optimization_loop.
    apply (for_range_invariant (fun (n : nat) t =>
      emp_covs t = emp_covs st
      /\ (forall i j k, (i < n_var)%nat -> (j < n_var)%nat ->
            (k < n_tasks)%nat ->
            omega t i j k = initial_omega (emp_covs st) i j k)
      /\ count_warn (log t) = count_warn (log st))).
    - repeat split. exact Hinit.
    - intros n t t' _ (I1 & I2 & I3) Hb. unfold sweep in Hb. revert Hb.
      apply (for_range_invariant (fun (q : nat) a =>
        emp_covs a = emp_covs st
        /\ (forall i j k, (i < n_var)%nat -> (j < n_var)%nat ->
              (k < n_tasks)%nat ->
              omega a i j k = initial_omega (emp_covs st) i j k)
        /\ count_warn (log a) = count_warn (log st))).
      + destruct (1 <=? verbose)%Z; cbn [emp_covs omega log emit];
          rewrite ?count_warn_app; simpl; repeat split;
          try assumption; lia.
      + intros q a a' Hq (J1 & J2 & J3) Ha.
        destruct (pivot_update_uncorrelated q a a' Hrho Hq) as (K1 & K2 & K3);
          try assumption.
        * intros i j k Hi Hj Hk Hij. rewrite J1. now apply Hdiag.
        * intros i j k Hi Hj Hk. rewrite J1. now apply J2.
        * repeat split; try congruence.
          intros i j k Hi Hj Hk. rewrite <- J1. now apply K2. }
  destruct Hinv as (_ & H1 & H2). split; assumption.
Qed.

End DiagonalLoop.

(** X21: when every empirical covariance is diagonal, every coordinate is
    thresholded at every pivot of every sweep: the returned precision
    estimates are diagonal with the inverse variances, whatever [rho] and
    [n_iter], the root-finder is never needed and nothing is warned. *)
Theorem uncorrelated_inputs_stay_diagonal signals rho_arg n_iter
        assume_centered verbose return_costs debug out :
  group_sparse_covariance empirical_covariance inv newton fast_logdet is_spd
    almost_equal signals rho_arg n_iter assume_centered verbose return_costs
    debug = inr out ->
  exists s l,
    signals = Iterable (s :: l)
    /\ ((forall i j k, (i < shape1 s)%nat -> (j < shape1 s)%nat ->
           (k < List.length (s :: l))%nat -> i <> j ->
           out_emp_covs out i j k = 0) ->
        (forall i j k, (i < shape1 s)%nat -> (j < shape1 s)%nat ->
           (k < List.length (s :: l))%nat ->
           out_omega out i j k
           = if Nat.eqb i j then 1 / out_emp_covs out i i k else 0)
        /\ count_warn (out_log out) = 0%nat).
Proof.
  intros H. apply group_sparse_covariance_inr in H.
  destruct H as (r & s & l & E & st' & _ & Hr & Hs & _ & _ & _ & Hloop & ->).
  exists s, l. split; [exact Hs|]. cbn [out_emp_covs out_omega out_log].
  pose proof (optimization_loop_emp_covs _ _ _ _ _ _ _ _ _ _ _ _ _ _ _ Hloop)
    as He.
  rewrite He. cbn [emp_covs initial_state]. intros Hdiag.
  destruct (optimization_loop_uncorrelated _ _ _ _ _ _ _ _
              (initial_state E) st' Hr Hdiag
              (fun i j k _ _ _ => eq_refl) Hloop) as [Ho Hl].
  split; [|exact Hl]. intros i j k Hi Hj Hk.
  rewrite (Ho i j k Hi Hj Hk). reflexivity.
Qed.

End UncorrelatedInputs.

(** ** Completion of a checked run *)

Lemma for_range_returns_invariant {St : Type} (P : nat -> St -> Prop) n
      (body : nat -> St -> exn + St) s :
  P O s ->
  (forall i t, (i < n)%nat -> P i t ->
     exists t', body i t = inr t' /\ P (S i) t') ->
  exists s', for_range n body s = inr s' /\ P n s'.
Proof.
  intros H0 Hstep. induction n as [|n IH]; simpl.
  - exists s. split; [reflexivity|exact H0].
  - destruct IH as [t [Ht Pt]]; [intros i a Hi; apply Hstep; lia|].
    rewrite Ht. simpl. apply Hstep; [lia|exact Pt].
Qed.

Section CheckedRun.

Variable empirical_covariance : ndarray2 -> bool -> mat.
Variable inv : nat -> mat -> option mat.
Variable newton : (R -> R) -> R -> (R -> R) -> nat -> option R.
Variable fast_logdet : nat -> mat -> R.
Variable is_spd : nat -> mat -> option nat -> bool.
Variable almost_equal : nat -> R -> R -> bool.

(** The debug checks pass whenever they are asked, and the inversion
    returns. *)
Hypothesis is_spd_passes : forall n M d, is_spd n M d = true.
Hypothesis almost_equal_passes : forall d a b, almost_equal d a b = true.
Hypothesis inv_does_return : inv_returns inv.

Lemma assert_almost_equal_passes d r c A B :
  assert_almost_equal almost_equal d r c A B = inr tt.
Proof using almost_equal_passes.
  unfold assert_almost_equal.
  assert (H : all_range r (fun i => all_range c (fun j =>
                almost_equal d (A i j) (B i j))) = true).
  { apply all_range_true. intros i _. apply all_range_true. intros j _.
    apply almost_equal_passes. }
  rewrite H. reflexivity.
Qed.

Lemma assert_submatrix_passes N full sub n :
  assert_submatrix almost_equal N full sub n = inr tt.
Proof using almost_equal_passes.
  unfold assert_submatrix. apply assert_almost_equal_passes.
Qed.

Lemma build_emp_covs_checked_returns l n_var assume_centered debug :
  exists E,
    build_emp_covs empirical_covariance is_spd l n_var assume_centered debug
    = inr E.
Proof using is_spd_passes.
  unfold build_emp_covs. apply for_range_returns.
  intros i t _. cbv beta zeta. rewrite is_spd_passes.
  destruct debug; simpl; eexists; reflexivity.
Qed.

Section CheckedLoop.

Variables (n_var n_tasks : nat) (n_samples : vec) (rho : R).
Variables (verbose : Z) (return_costs debug : bool).

Local Abbreviation coordinate_step_ :=
  (coordinate_step newton n_var n_tasks n_samples rho debug).
Local Abbreviation pivot_enter_ :=
  (pivot_enter inv is_spd almost_equal n_var n_tasks verbose debug).
Local Abbreviation pivot_leave_ :=
  (pivot_leave fast_logdet is_spd n_var n_tasks n_samples rho verbose
               return_costs debug).
Local Abbreviation pivot_update_ :=
  (pivot_update inv newton fast_logdet is_spd almost_equal n_var n_tasks
                n_samples rho verbose return_costs debug).
Local Abbreviation optimization_loop_ :=
  (optimization_loop inv newton fast_logdet is_spd almost_equal n_var n_tasks
                     n_samples rho verbose return_costs debug).

Lemma pivot_enter_checked_returns p st :
  exists st', pivot_enter_ p st = inr st'.
Proof using is_spd_passes almost_equal_passes inv_does_return.
  unfold pivot_enter.
  assert (H : exists t,
            (if Nat.eqb p 0
             then initial_submatrix inv almost_equal n_var n_tasks debug st
             else advance_submatrix is_spd almost_equal n_var n_tasks debug
                    p st) = inr t).
  { destruct (Nat.eqb p 0).
    - unfold initial_submatrix.
      match goal with
      | |- exists t, bind (for_range ?n ?b ?s) _ = _ =>
          destruct (for_range_returns n b s) as [a Ha]
      end.
      { intros i t _. cbv beta zeta.
        match goal with
        | |- exists t', bind (or_raise _ (inv ?N ?M)) _ = _ =>
            destruct (inv_does_return N M) as [B HB]; rewrite HB
        end.
        cbn [or_raise bind ret].
        rewrite assert_almost_equal_passes, assert_submatrix_passes.
        destruct debug; simpl; eexists; reflexivity. }
      rewrite Ha. simpl. eexists. reflexivity.
    - unfold advance_submatrix.
      match goal with
      | |- exists t, bind (for_range ?n ?b ?s) _ = _ =>
          destruct (for_range_returns n b s) as [a Ha]
      end.
      { intros i [Wa Winva] _.
        destruct (update_submatrix (n_var - 1) (task (omega st) i)
                    (task Wa i) (task Winva i) p).
        cbv beta iota zeta.
        rewrite assert_almost_equal_passes, assert_submatrix_passes,
          !is_spd_passes.
        destruct debug; simpl; eexists; reflexivity. }
      rewrite Ha. cbv beta zeta.
      assert (Hall : all_range n_tasks (fun k =>
                all_range n_var (fun i => all_range n_var (fun j =>
                  almost_equal 7 (omega st i j k) (omega st i j k)))) = true).
      { apply all_range_true. intros k _. apply all_range_true. intros i _.
        apply all_range_true. intros j _. apply almost_equal_passes. }
      rewrite Hall.
      destruct debug; simpl; eexists; reflexivity. }
  destruct H as [t Ht]. rewrite Ht. simpl. eexists. reflexivity.
Qed.

Lemma pivot_leave_checked_returns p st :
  exists st', pivot_leave_ p st = inr st'.
Proof using is_spd_passes.
  unfold pivot_leave.
  match goal with
  | |- exists t, bind (for_range ?n ?b ?s) _ = _ =>
      destruct (for_range_returns n b s) as [a Ha]
  end.
  { intros i t _. cbv beta zeta. rewrite is_spd_passes.
    destruct debug; simpl; eexists; reflexivity. }
  rewrite Ha. simpl.
  unfold _group_sparse_covariance_cost.
  destruct return_costs; eexists; reflexivity.
Qed.

Lemma pivot_update_uncorrelated_returns p st :
  0 <= rho -> (p < n_var)%nat ->
  (forall i j k, (i < n_var)%nat -> (j < n_var)%nat -> (k < n_tasks)%nat ->
     i <> j -> emp_covs st i j k = 0) ->
  (forall i j k, (i < n_var)%nat -> (j < n_var)%nat -> (k < n_tasks)%nat ->
     omega st i j k = initial_omega (emp_covs st) i j k) ->
  exists st', pivot_update_ p st = inr st'.
Proof using is_spd_passes almost_equal_passes inv_does_return.
  intros Hrho Hp Hdiag Hinit. unfold pivot_update.
  destruct (pivot_enter_checked_returns p st) as [st0 H0]. rewrite H0.
  cbn [bind]. apply pivot_enter_frame in H0.
  destruct H0 as (_ & _ & _ & _ & Y0 & U0).
  assert (Hstart : forall k i, (k < n_tasks)%nat -> (i < n_var - 1)%nat ->
            y st0 k i = 0 /\ u st0 k i = 0).
  { intros k i Hk Hi. rewrite Y0, U0.
    destruct (Nat.ltb_spec i p).
    - rewrite Hinit, Hdiag by lia. unfold initial_omega.
      destruct (Nat.eqb_spec i p); [lia|]. split; reflexivity.
    - rewrite Hinit, Hdiag by lia. unfold initial_omega.
      destruct (Nat.eqb_spec (i + 1) p); [lia|]. split; reflexivity. }
  destruct (for_range_returns_invariant
              (fun (_ : nat) t =>
                 forall k i, (k < n_tasks)%nat -> (i < n_var - 1)%nat ->
                   y t k i = 0 /\ u t k i = 0)
              (n_var - 1) (coordinate_step_ p) st0 Hstart) as [st1 [H1 _]].
  { intros m t Hm Hz.
    assert (Hc2 : coordinate_c2 n_var n_tasks n_samples p m t <= rho).
    { unfold coordinate_c2, dot.
      rewrite rsum_zero; [rewrite sqrt_0; exact Hrho|].
      intros k Hk. rewrite coordinate_c_uncorrelated; [ring| |].
      - intros i Hi. apply (Hz k i Hk Hi).
      - apply (Hz k m Hk Hm). }
    assert (Hret : exists t', coordinate_step_ p m t = inr t').
    { unfold coordinate_step.
      destruct (Rle_dec _ _) as [_|Hgt]; [|contradiction].
      eexists. reflexivity. }
    destruct Hret as [t' Ht']. exists t'. split; [exact Ht'|].
    destruct (coordinate_step_uncorrelated newton n_var n_tasks n_samples
                rho debug p m t t' Hrho Hm Hz Ht') as [Hy' _].
    apply coordinate_step_frame in Ht'.
    destruct Ht' as (_ & _ & _ & _ & G5 & _).
    intros k i Hk Hi. split; [now apply Hy'|].
    rewrite G5. now apply Hz. }
  rewrite H1. cbn [bind]. apply pivot_leave_checked_returns.
Qed.

Lemma optimization_loop_uncorrelated_returns n_iter st :
  0 <= rho ->
  (forall i j k, (i < n_var)%nat -> (j < n_var)%nat -> (k < n_tasks)%nat ->
     i <> j -> emp_covs st i j k = 0) ->
  (forall i j k, (i < n_var)%nat -> (j < n_var)%nat -> (k < n_tasks)%nat ->
     omega st i j k = initial_omega (emp_covs st) i j k) ->
  exists st', optimization_loop_ n_iter st = inr st'.
Proof using is_spd_passes almost_equal_passes inv_does_return.
  intros Hrho Hdiag Hinit. unfold optimization_loop.
  destruct (for_range_returns_invariant
              (fun (_ : nat) t =>
                 emp_covs t = emp_covs st
                 /\ forall i j k, (i < n_var)%nat -> (j < n_var)%nat ->
                      (k < n_tasks)%nat ->
                      omega t i j k = initial_omega (emp_covs st) i j k)
              n_iter
              (sweep inv newton fast_logdet is_spd almost_equal n_var n_tasks
                     n_samples rho verbose return_costs debug)
              st (conj eq_refl Hinit)) as [st' [H _]].
  2:{ exists st'. exact H. }
  intros n t _ [Ie Io]. unfold sweep.
  apply (for_range_returns_invariant
           (fun (_ : nat) a =>
              emp_covs a = emp_covs st
              /\ forall i j k, (i < n_var)%nat -> (j < n_var)%nat ->
                   (k < n_tasks)%nat ->
                   omega a i j k = initial_omega (emp_covs st) i j k)).
  - destruct (1 <=? verbose)%Z; split; assumption.
  - intros q a Hq [Je Jo].
    assert (Hd : forall i j k, (i < n_var)%nat -> (j < n_var)%nat ->
              (k < n_tasks)%nat -> i <> j -> emp_covs a i j k = 0).
    { intros i j k Hi Hj Hk Hij. rewrite Je. now apply Hdiag. }
    assert (Ho : forall i j k, (i < n_var)%nat -> (j < n_var)%nat ->
              (k < n_tasks)%nat ->
              omega a i j k = initial_omega (emp_covs a) i j k).
    { intros i j k Hi Hj Hk. rewrite Je. now apply Jo. }
    destruct (pivot_update_uncorrelated_returns q a Hrho Hq Hd Ho)
      as [a' Ha'].
    exists a'. split; [exact Ha'|].
    destruct (pivot_update_uncorrelated inv newton fast_logdet is_spd
                almost_equal n_var n_tasks n_samples rho verbose
                return_costs debug q a a' Hrho Hq Hd Ho Ha')
      as (K1 & K2 & _).
    split; [congruence|].
    intros i j k Hi Hj Hk. rewrite <- Je. now apply K2.
Qed.

End CheckedLoop.

(** When the debug checks pass whenever they are asked, the inversion
    returns and the empirical covariances are diagonal, a call on at least
    two variables returns, in debug mode too and whatever the root-finder:
    it is not called. *)
Lemma uncorrelated_run_returns s l rho_arg n_iter assume_centered verbose
      return_costs debug :
  rho_accepted rho_arg -> same_features (s :: l) -> (2 <= shape1 s)%nat ->
  (forall i j k, (i < shape1 s)%nat -> (j < shape1 s)%nat ->
     (k < List.length (s :: l))%nat -> i <> j ->
     symmetrize (empirical_covariance
                   (nth k (s :: l) (mk_ndarray2 0 0 (fun _ _ => 0)))
                   assume_centered) i j = 0) ->
  exists out,
    group_sparse_covariance empirical_covariance inv newton fast_logdet
      is_spd almost_equal (Iterable (s :: l)) rho_arg n_iter assume_centered
      verbose return_costs debug = inr out.
Proof using is_spd_passes almost_equal_passes inv_does_return.
  intros [r [Hnum Hr]] Hs Hn Hdiag. unfold group_sparse_covariance.
  rewrite Hnum.
  destruct (Rlt_dec r 0) as [Hneg|_]; [lra|]. cbn [bind ret].
  apply same_features_check in Hs. rewrite Hs. cbn [bind ret].
  destruct (build_emp_covs_checked_returns (s :: l) (shape1 s)
              assume_centered debug) as [E HE].
  rewrite HE. cbn [bind ret]. rewrite (preallocate_enough _ _ Hn).
  cbn [bind ret].
  destruct (optimization_loop_uncorrelated_returns (shape1 s)
              (List.length (s :: l)) (sample_weights (s :: l)) r verbose
              return_costs debug n_iter (initial_state E) Hr)
    as [st' Hloop].
  - intros i j k Hi Hj Hk Hij. cbn [emp_covs initial_state].
    rewrite (build_emp_covs_entries _ _ _ _ _ _ _ HE k Hk).
    now apply Hdiag.
  - intros i j k _ _ _. reflexivity.
  - rewrite Hloop. cbn [bind ret].
    destruct return_costs; eexists; reflexivity.
Qed.

End CheckedRun.

Section ReturnedCovariances.

Variable empirical_covariance : ndarray2 -> bool -> mat.
Variable inv : nat -> mat -> option mat.
Variable newton : (R -> R) -> R -> (R -> R) -> nat -> option R.
Variable fast_logdet : nat -> mat -> R.
Variable is_spd : nat -> mat -> option nat -> bool.
Variable almost_equal : nat -> R -> R -> bool.

(** The covariances a call returns, cell by cell. *)
Lemma returned_emp_covs s l rho_arg n_iter assume_centered verbose
      return_costs debug out :
  group_sparse_covariance empirical_covariance inv newton fast_logdet is_spd
    almost_equal (Iterable (s :: l)) rho_arg n_iter assume_centered verbose
    return_costs debug = inr out ->
  forall k, (k < List.length (s :: l))%nat -> forall i j,
    out_emp_covs out i j k
    = symmetrize (empirical_covariance
                    (nth k (s :: l) (mk_ndarray2 0 0 (fun _ _ => 0)))
                    assume_centered) i j.
Proof.
  intros H. apply group_sparse_covariance_inr in H.
  destruct H as (r & s0 & l0 & E & st' & _ & _ & Hs & _ & HE & _ & Hloop
                 & ->).
  injection Hs as <- <-. intros k Hk i j. cbn [out_emp_covs].
  rewrite (optimization_loop_emp_covs _ _ _ _ _ _ _ _ _ _ _ _ _ _ _ Hloop).
  cbn [emp_covs initial_state].
  exact (build_emp_covs_entries _ _ _ _ _ _ _ HE k Hk i j).
Qed.

End ReturnedCovariances.

(** ** Every exception of a call *)

Lemma preallocate_raises n_var n_tasks e :
  preallocate n_var n_tasks = inl e ->
  e = ValueError "negative dimensions are not allowed".
Proof.
  intros H. destruct (Nat.le_gt_cases 2 n_var) as [H2|H2].
  - rewrite (preallocate_enough _ _ H2) in H. discriminate.
  - rewrite (preallocate_too_few _ _ H2) in H. injection H as <-.
    reflexivity.
Qed.

Section Exceptions.

Variable empirical_covariance : ndarray2 -> bool -> mat.
Variable inv : nat -> mat -> option mat.
Variable newton : (R -> R) -> R -> (R -> R) -> nat -> option R.
Variable fast_logdet : nat -> mat -> R.
Variable is_spd : nat -> mat -> option nat -> bool.
Variable almost_equal : nat -> R -> R -> bool.

(** X23: for [signals] an object that is not iterable or a list of 2-D
    arrays, and [rho] any object, the only exceptions a call raises are
    the three [ValueError] of the checks, [IndexError] (no task), numpy's
    [ValueError] for a negative dimension (fewer than two variables), the
    [LinAlgError] of [np.linalg.inv] and the [RuntimeError] of
    [scipy.optimize.newton] (on two variables or more; neither is caught)
    and, in debug mode only, [AssertionError]. *)
Theorem exceptions_classified signals rho_arg n_iter assume_centered verbose
        return_costs debug e :
  group_sparse_covariance empirical_covariance inv newton fast_logdet is_spd
    almost_equal signals rho_arg n_iter assume_centered verbose return_costs
    debug = inl e ->
  validation_error e
  \/ (e = IndexError "list index out of range"
      /\ signals = Iterable [])
  \/ (e = ValueError "negative dimensions are not allowed"
      /\ exists s l, signals = Iterable (s :: l) /\ (shape1 s < 2)%nat)
  \/ (library_error inv newton e
      /\ exists s l, signals = Iterable (s :: l) /\ (2 <= shape1 s)%nat)
  \/ (debug = true /\ e = AssertionError).
Proof.
  unfold group_sparse_covariance, validation_error. intros H.
  destruct (number_of rho_arg) as [r|];
    [|injection H as <-; left; left; reflexivity].
  destruct (Rlt_dec r 0) as [Hneg|_];
    [injection H as <-; left; left; reflexivity|].
  cbn [bind ret] in H.
  destruct signals as [|l];
    [injection H as <-; left; right; left; reflexivity|].
  cbn [bind ret] in H.
  destruct (1 <? List.length (nodup Nat.eq_dec (map shape1 l)))%nat;
    [injection H as <-; left; right; right; reflexivity|].
  cbn [bind ret] in H.
  destruct l as [|s l];
    [injection H as <-; right; left; split; reflexivity|].
  cbn [bind ret] in H.
  apply bind_inl in H. destruct H as [H|[E [_ H]]].
  { apply build_emp_covs_raises in H. do 4 right. exact H. }
  apply bind_inl in H. destruct H as [H|[[] [Hpre H]]].
  { right. right. left. split; [now apply preallocate_raises in H|].
    exists s, l. split; [reflexivity|].
    destruct (Nat.le_gt_cases 2 (shape1 s)) as [H2|H2]; [|exact H2].
    rewrite (preallocate_enough _ _ H2) in H. discriminate. }
  apply preallocate_inr in Hpre.
  apply bind_inl in H. destruct H as [H|[st' [_ H]]].
  { apply optimization_loop_raises in H. destruct H as [H|H].
    - do 4 right. exact H.
    - do 3 right. left. split; [exact H|].
      exists s, l. split; [reflexivity|exact Hpre]. }
  destruct return_costs; discriminate.
Qed.

End Exceptions.

(** ** Reporting and results *)

(** Two related states, taken apart: the second holds the arrays of the
    first. *)
Ltac same_arrays st1 st2 Hrel Hc :=
  destruct st1, st2;
  destruct Hrel as (? & ? & ? & ? & ? & ? & Hc);
  cbn [emp_covs omega W Winv y u costs] in *; subst.

Lemma same_outcome_bind {A B : Type} (R : A -> A -> Prop)
      (R' : B -> B -> Prop) (m1 m2 : exn + A) (f1 f2 : A -> exn + B) :
  same_outcome R m1 m2 ->
  (forall a1 a2, R a1 a2 -> same_outcome R' (f1 a1) (f2 a2)) ->
  same_outcome R' (bind m1 f1) (bind m2 f2).
Proof.
  destruct m1 as [e1|a1]; destruct m2 as [e2|a2]; simpl; intros H Hf;
    try contradiction.
  - exact H.
  - now apply Hf.
Qed.

Lemma same_outcome_for_range {St : Type} (R : St -> St -> Prop) n
      (body1 body2 : nat -> St -> exn + St) s1 s2 :
  (forall i a1 a2, R a1 a2 -> same_outcome R (body1 i a1) (body2 i a2)) ->
  R s1 s2 ->
  same_outcome R (for_range n body1 s1) (for_range n body2 s2).
Proof.
  intros Hbody Hs. induction n as [|n IH]; simpl; [exact Hs|].
  apply (same_outcome_bind R R); [exact IH|]. intros a1 a2. apply Hbody.
Qed.

Section Reporting.

Variable empirical_covariance : ndarray2 -> bool -> mat.
Variable inv : nat -> mat -> option mat.
Variable newton : (R -> R) -> R -> (R -> R) -> nat -> option R.
Variable fast_logdet : nat -> mat -> R.
Variable is_spd : nat -> mat -> option nat -> bool.
Variable almost_equal : nat -> R -> R -> bool.

Section ReportingLoop.

Variables (n_var n_tasks : nat) (n_samples : vec) (rho : R) (debug : bool).
Variables (verbose1 verbose2 : Z) (return_costs1 return_costs2 : bool).

Local Abbreviation related := (same_results return_costs1 return_costs2).

Lemma coordinate_step_same_results p m st1 st2 :
  related st1 st2 ->
  same_outcome related
    (coordinate_step newton n_var n_tasks n_samples rho debug p m st1)
    (coordinate_step newton n_var n_tasks n_samples rho debug p m st2).
Proof.
  intros Hrel'. same_arrays st1 st2 Hrel' Hc.
  unfold coordinate_step, coordinate_c2, coordinate_c.
  cbn [emp_covs omega W Winv y u costs log].
  destruct (Rle_dec _ _) as [_|_].
  - simpl. repeat split. exact Hc.
  - destruct debug.
    + destruct (all_range _ _); simpl; [|reflexivity].
      destruct (newton _ _ _ _) as [alpha|]; simpl; [|reflexivity].
      destruct (Rle_dec 0 _); simpl; [|reflexivity].
      destruct (Rlt_dec _ _); simpl; repeat split; exact Hc.
    + simpl. destruct (newton _ _ _ _) as [alpha|]; simpl; [|reflexivity].
      destruct (Rlt_dec _ _); simpl; repeat split; exact Hc.
Qed.

Lemma pivot_enter_same_results p st1 st2 :
  related st1 st2 ->
  same_outcome related
    (pivot_enter inv is_spd almost_equal n_var n_tasks verbose1 debug p st1)
    (pivot_enter inv is_spd almost_equal n_var n_tasks verbose2 debug p st2).
Proof.
  intros Hrel'. same_arrays st1 st2 Hrel' Hc.
  unfold pivot_enter. destruct (Nat.eqb p 0).
  - unfold initial_submatrix. cbn [emp_covs omega W Winv y u costs log].
    destruct (for_range n_tasks _ _) as [e|Wi]; [reflexivity|].
    cbn [bind ret].
    destruct (2 <=? verbose1)%Z; destruct (2 <=? verbose2)%Z; simpl;
      repeat split; exact Hc.
  - unfold advance_submatrix. cbn [emp_covs omega W Winv y u costs log].
    destruct (for_range n_tasks _ _) as [e|WW]; [reflexivity|].
    cbn [bind ret].
    destruct (if debug then _ else _) as [e|[]]; [reflexivity|].
    cbn [bind ret].
    destruct (2 <=? verbose1)%Z; destruct (2 <=? verbose2)%Z; simpl;
      repeat split; exact Hc.
Qed.

Lemma pivot_leave_same_results p st1 st2 :
  related st1 st2 ->
  same_outcome related
    (pivot_leave fast_logdet is_spd n_var n_tasks n_samples rho verbose1
                 return_costs1 debug p st1)
    (pivot_leave fast_logdet is_spd n_var n_tasks n_samples rho verbose2
                 return_costs2 debug p st2).
Proof.
  intros Hrel. unfold pivot_leave.
  apply (same_outcome_bind related related).
  - apply same_outcome_for_range.
    + intros k a1 a2 Hrel'. same_arrays a1 a2 Hrel' Hc.
      unfold pivot_diagonal.
      cbn [emp_covs omega W Winv y u costs log set_omega].
      destruct debug; [|simpl; repeat split; exact Hc].
      destruct (is_spd _ _ _); simpl; [|reflexivity].
      repeat split; exact Hc.
    + same_arrays st1 st2 Hrel Hc.
      repeat split. exact Hc.
  - intros a1 a2 Hrel'. same_arrays a1 a2 Hrel' Hc.
    unfold _group_sparse_covariance_cost.
    cbn [emp_covs omega W Winv y u costs log].
    destruct return_costs1; destruct return_costs2; simpl;
      repeat split; try discriminate; try exact Hc.
    intros _. rewrite (Hc eq_refl). reflexivity.
Qed.

Lemma pivot_update_same_results p st1 st2 :
  related st1 st2 ->
  same_outcome related
    (pivot_update inv newton fast_logdet is_spd almost_equal n_var n_tasks
       n_samples rho verbose1 return_costs1 debug p st1)
    (pivot_update inv newton fast_logdet is_spd almost_equal n_var n_tasks
       n_samples rho verbose2 return_costs2 debug p st2).
Proof.
  intros Hrel. unfold pivot_update.
  apply (same_outcome_bind related related);
    [now apply pivot_enter_same_results|].
  intros a1 a2 Ha.
  apply (same_outcome_bind related related).
  - apply same_outcome_for_range; [|exact Ha].
    intros m b1 b2. apply coordinate_step_same_results.
  - intros b1 b2. apply pivot_leave_same_results.
Qed.

Lemma optimization_loop_same_results n_iter st1 st2 :
  related st1 st2 ->
  same_outcome related
    (optimization_loop inv newton fast_logdet is_spd almost_equal n_var
       n_tasks n_samples rho verbose1 return_costs1 debug n_iter st1)
    (optimization_loop inv newton fast_logdet is_spd almost_equal n_var
       n_tasks n_samples rho verbose2 return_costs2 debug n_iter st2).
Proof.
  intros Hrel. unfold optimization_loop.
  apply same_outcome_for_range; [|exact Hrel].
  intros n a1 a2 Ha. unfold sweep.
  apply same_outcome_for_range;
    [intros p b1 b2; apply pivot_update_same_results|].
  same_arrays a1 a2 Ha Hc.
  destruct (1 <=? verbose1)%Z; destruct (1 <=? verbose2)%Z; simpl;
    repeat split; exact Hc.
Qed.

End ReportingLoop.

(** X24: [verbose] and [return_costs] never change what is computed: two
    calls that differ only in them raise the same exception or return
    the same covariances and precision estimates, and the same cost
    trace when they agree on [return_costs]. *)
Theorem reporting_does_not_change_results signals rho_arg n_iter
        assume_centered verbose1 verbose2 return_costs1 return_costs2 debug :
  same_outcome
    (fun out1 out2 =>
       out_emp_covs out1 = out_emp_covs out2
       /\ out_omega out1 = out_omega out2
       /\ (return_costs1 = return_costs2 -> out_costs out1 = out_costs out2))
    (group_sparse_covariance empirical_covariance inv newton fast_logdet
       is_spd almost_equal signals rho_arg n_iter assume_centered verbose1
       return_costs1 debug)
    (group_sparse_covariance empirical_covariance inv newton fast_logdet
       is_spd almost_equal signals rho_arg n_iter assume_centered verbose2
       return_costs2 debug).
Proof.
  unfold group_sparse_covariance.
  destruct (number_of rho_arg) as [r|]; [|reflexivity].
  destruct (Rlt_dec r 0) as [Hneg|_]; [reflexivity|]. cbn [bind ret].
  destruct signals as [|l]; [reflexivity|]. cbn [bind ret].
  destruct (1 <? List.length (nodup Nat.eq_dec (map shape1 l)))%nat;
    [reflexivity|].
  cbn [bind ret]. destruct l as [|s l]; [reflexivity|]. cbn [bind ret].
  destruct (build_emp_covs _ _ _ _ _ _) as [e|E]; [reflexivity|].
  cbn [bind ret].
  destruct (preallocate _ _) as [e|[]]; [reflexivity|]. cbn [bind ret].
  apply (same_outcome_bind (same_results return_costs1 return_costs2)).
  - apply optimization_loop_same_results. repeat split.
  - intros a1 a2 (He & Ho & _ & _ & _ & _ & Hc).
    destruct return_costs1; destruct return_costs2; simpl;
      repeat split; try assumption; try discriminate.
    intros _. rewrite (Hc eq_refl). reflexivity.
Qed.

End Reporting.

(** ** Debug mode *)

Lemma for_range_weaken {St : Type} n (body1 body2 : nat -> St -> exn + St)
      s s' :
  (forall i a a', body1 i a = inr a' -> body2 i a = inr a') ->
  for_range n body1 s = inr s' -> for_range n body2 s = inr s'.
Proof.
  intros Hbody. revert s'. induction n as [|n IH]; intros s' H; simpl in *.
  - exact H.
  - apply bind_inr in H. destruct H as [t [Ht Hb]].
    rewrite (IH t Ht). simpl. now apply Hbody.
Qed.

Section DebugMode.

Variable empirical_covariance : ndarray2 -> bool -> mat.
Variable inv : nat -> mat -> option mat.
Variable newton : (R -> R) -> R -> (R -> R) -> nat -> option R.
Variable fast_logdet : nat -> mat -> R.
Variable is_spd : nat -> mat -> option nat -> bool.
Variable almost_equal : nat -> R -> R -> bool.

Lemma build_emp_covs_without_checks l n_var assume_centered E :
  build_emp_covs empirical_covariance is_spd l n_var assume_centered true
    = inr E ->
  build_emp_covs empirical_covariance is_spd l n_var assume_centered false
    = inr E.
Proof.
  unfold build_emp_covs. apply for_range_weaken.
  intros k A A' H. apply bind_inr in H. destruct H as [? [_ H]]. exact H.
Qed.

Section DebugLoop.

Variables (n_var n_tasks : nat) (n_samples : vec) (rho : R).
Variables (verbose : Z) (return_costs : bool).

Lemma initial_submatrix_without_checks st st' :
  initial_submatrix inv almost_equal n_var n_tasks true st = inr st' ->
  initial_submatrix inv almost_equal n_var n_tasks false st = inr st'.
Proof.
  unfold initial_submatrix. intros H.
  apply bind_inr in H. destruct H as [Wi [Hloop H]].
  apply (for_range_weaken _ _
           (fun k (Winv0 : stack) =>
              (Wk_inv <- or_raise LinAlgError
                 (inv (n_var - 1)
                    (task (fun i j k0 => omega st (i + 1)%nat (j + 1)%nat k0)
                          k)) ;;
               ret tt ;;; ret (set_task Winv0 k Wk_inv))
              : exn + stack)) in Hloop.
  - rewrite Hloop. exact H.
  - intros k A A' Hb. apply bind_inr in Hb. destruct Hb as [B [HB Hb]].
    rewrite HB. cbn [bind].
    apply bind_inr in Hb. destruct Hb as [? [_ Hb]]. exact Hb.
Qed.

Lemma advance_submatrix_without_checks p st st' :
  advance_submatrix is_spd almost_equal n_var n_tasks true p st = inr st' ->
  advance_submatrix is_spd almost_equal n_var n_tasks false p st = inr st'.
Proof.
  unfold advance_submatrix. intros H.
  apply bind_inr in H. destruct H as [WW [Hloop H]].
  apply bind_inr in H. destruct H as [? [_ H]].
  apply (for_range_weaken _ _
           (fun k (WW0 : stack * stack) =>
              (let '(W0, Winv0) := WW0 in
               let '(Wk, Winvk) :=
                 update_submatrix (n_var - 1) (task (omega st) k)
                                  (task W0 k) (task Winv0 k) p in
               ret tt ;;; ret (set_task W0 k Wk, set_task Winv0 k Winvk))
              : exn + stack * stack)) in Hloop.
  - rewrite Hloop. exact H.
  - intros k [Wa Winva] A' Hb.
    destruct (update_submatrix (n_var - 1) (task (omega st) k)
                (task Wa k) (task Winva k) p).
    apply bind_inr in Hb. destruct Hb as [? [_ Hb]]. exact Hb.
Qed.

Lemma pivot_enter_without_checks p st st' :
  pivot_enter inv is_spd almost_equal n_var n_tasks verbose true p st
    = inr st' ->
  pivot_enter inv is_spd almost_equal n_var n_tasks verbose false p st
    = inr st'.
Proof.
  unfold pivot_enter. intros H.
  apply bind_inr in H. destruct H as [t [Ht H]].
  assert (Ht' : (if Nat.eqb p 0
                 then initial_submatrix inv almost_equal n_var n_tasks false
                        st
                 else advance_submatrix is_spd almost_equal n_var n_tasks
                        false p st) = inr t).
  { destruct (Nat.eqb p 0).
    - now apply initial_submatrix_without_checks.
    - now apply advance_submatrix_without_checks. }
  rewrite Ht'. exact H.
Qed.

Lemma coordinate_step_without_checks p m st st' :
  coordinate_step newton n_var n_tasks n_samples rho true p m st = inr st' ->
  coordinate_step newton n_var n_tasks n_samples rho false p m st = inr st'.
Proof.
  unfold coordinate_step. intros H.
  destruct (Rle_dec _ _); [exact H|].
  apply bind_inr in H. destruct H as [? [_ H]].
  apply bind_inr in H. destruct H as [alpha [Hfound H]].
  apply bind_inr in H. destruct H as [? [_ H]].
  cbn [bind ret]. rewrite Hfound. cbn [bind]. exact H.
Qed.

Lemma pivot_leave_without_checks p st st' :
  pivot_leave fast_logdet is_spd n_var n_tasks n_samples rho verbose
    return_costs true p st = inr st' ->
  pivot_leave fast_logdet is_spd n_var n_tasks n_samples rho verbose
    return_costs false p st = inr st'.
Proof.
  unfold pivot_leave. intros H.
  apply bind_inr in H. destruct H as [t [Hloop H]].
  apply (for_range_weaken _ _
           (fun k a =>
              ret tt ;;;
              ret (set_omega a (fun i j k' =>
                     if Nat.eqb i p && Nat.eqb j p && Nat.eqb k' k
                     then pivot_diagonal n_var p k a
                     else omega a i j k')))) in Hloop.
  - rewrite Hloop. exact H.
  - intros k a a' Hb. apply bind_inr in Hb. destruct Hb as [? [_ Hb]].
    exact Hb.
Qed.

Lemma pivot_update_without_checks p st st' :
  pivot_update inv newton fast_logdet is_spd almost_equal n_var n_tasks
    n_samples rho verbose return_costs true p st = inr st' ->
  pivot_update inv newton fast_logdet is_spd almost_equal n_var n_tasks
    n_samples rho verbose return_costs false p st = inr st'.
Proof.
  unfold pivot_update. intros H.
  apply bind_inr in H. destruct H as [st0 [H0 H]].
  apply bind_inr in H. destruct H as [st1 [H1 H2]].
  rewrite (pivot_enter_without_checks p st st0 H0). cbn [bind].
  rewrite (for_range_weaken _ _ _ _ _
             (coordinate_step_without_checks p) H1).
  cbn [bind]. now apply pivot_leave_without_checks.
Qed.

Lemma optimization_loop_without_checks n_iter st st' :
  optimization_loop inv newton fast_logdet is_spd almost_equal n_var n_tasks
    n_samples rho verbose return_costs true n_iter st = inr st' ->
  optimization_loop inv newton fast_logdet is_spd almost_equal n_var n_tasks
    n_samples rho verbose return_costs false n_iter st = inr st'.
Proof.
  unfold optimization_loop. apply for_range_weaken.
  intros n a a'. unfold sweep. apply for_range_weaken.
  intros p b b'. apply pivot_update_without_checks.
Qed.

End DebugLoop.

(** X25: debug mode only adds checks: whatever a call returns with
    [debug=True], the same call with [debug=False] returns too, log
    included. *)
Theorem debug_only_checks signals rho_arg n_iter assume_centered verbose
        return_costs out :
  group_sparse_covariance empirical_covariance inv newton fast_logdet is_spd
    almost_equal signals rho_arg n_iter assume_centered verbose return_costs
    true = inr out ->
  group_sparse_covariance empirical_covariance inv newton fast_logdet is_spd
    almost_equal signals rho_arg n_iter assume_centered verbose return_costs
    false = inr out.
Proof.
  unfold group_sparse_covariance. intros H.
  destruct (number_of rho_arg) as [r|]; [|discriminate].
  destruct (Rlt_dec r 0) as [Hneg|_]; [discriminate|]. cbn [bind ret] in *.
  destruct signals as [|l]; [discriminate|]. cbn [bind ret] in *.
  destruct (1 <? List.length (nodup Nat.eq_dec (map shape1 l)))%nat;
    [discriminate|].
  cbn [bind ret] in *. destruct l as [|s l]; [discriminate|].
  cbn [bind ret] in *.
  apply bind_inr in H. destruct H as [E [HE H]].
  apply bind_inr in H. destruct H as [[] [Hpre H]].
  apply bind_inr in H. destruct H as [st' [Hloop H]].
  rewrite (build_emp_covs_without_checks _ _ _ _ HE). cbn [bind ret].
  rewrite Hpre. cbn [bind ret].
  rewrite (optimization_loop_without_checks _ _ _ _ _ _ _ _ _ Hloop).
  exact H.
Qed.

End DebugMode.

(** * Further runs on concrete inputs *)

Lemma full_tridiagonal_symmetric : symmetric 3 full_tridiagonal.
Proof.
  intros i j Hi Hj.
  destruct i as [|[|[|i]]]; destruct j as [|[|[|j]]]; try lia; reflexivity.
Qed.

Lemma state_correlated_above_threshold rho :
  rho < 1 / 2 ->
  ~ coordinate_c2 2 1 (fun _ => 1) 0 0 state_correlated <= rho.
Proof.
  intros Hrho. unfold coordinate_c2, coordinate_c, dot.
  cbn [rsum Nat.sub emp_covs u state_correlated Nat.eqb].
  match goal with
  | |- ~ sqrt ?x <= _ => replace x with ((1 / 2) * (1 / 2)) by field
  end.
  rewrite sqrt_square by lra. lra.
Qed.

Lemma signals_two_tasks_uncorrelated centered i j k :
  (i < 2)%nat -> (j < 2)%nat -> (k < 2)%nat -> i <> j ->
  symmetrize (uncentered_covariance
                (nth k signals_two_tasks (mk_ndarray2 0 0 (fun _ _ => 0)))
                centered) i j = 0.
Proof.
  intros Hi Hj Hk Hij.
  destruct k as [|[|k]]; destruct i as [|[|i]]; destruct j as [|[|j]];
    try lia; try congruence;
    cbv [symmetrize transpose uncentered_covariance signals_two_tasks nth
         shape0 data mat_of_list rsum INR];
    field.
Qed.

Lemma rho_half_accepted : rho_accepted (PyFloat (1 / 2)).
Proof. exists (1 / 2). split; [reflexivity|lra]. Qed.

Lemma rho_zero_accepted : rho_accepted (PyInt 0).
Proof. exists 0. split; [reflexivity|lra]. Qed.

Lemma assert_submatrix_checks_deletion_witness :
  assert_submatrix equal_cells 2 full_tridiagonal sub_tridiagonal 0 = inr tt.
Proof.
  apply (proj2 (assert_submatrix_checks_deletion equal_cells 2
                  full_tridiagonal sub_tridiagonal 0)).
  intros i j Hi Hj. unfold equal_cells.
  destruct (Req_dec_T _ _) as [_|Hne]; [reflexivity|].
  exfalso. apply Hne.
  destruct i as [|[|i]]; destruct j as [|[|j]]; try lia; reflexivity.
Defined.

Lemma update_vectors_row_and_column_witness :
  fst (update_vectors full_tridiagonal 0) 1%nat
  = snd (update_vectors full_tridiagonal 0) 1%nat.
Proof.
  exact (proj2 (proj2 (update_vectors_row_and_column 2 full_tridiagonal 0))
           full_tridiagonal_symmetric ltac:(lia) 1%nat ltac:(lia)).
Defined.

Lemma update_submatrix_keeps_symmetry_witness :
  is_inverse 2 sub_tridiagonal sub_inv_tridiagonal
  /\ symmetric 2 (snd (update_submatrix 2 full_tridiagonal sub_tridiagonal
                                        sub_inv_tridiagonal 1)).
Proof.
  assert (Hmid : invertible 2 (row_replaced 1 full_tridiagonal)).
  { exists (mat_of_list [[1 / 2; 0]; [- (1 / 4); 1 / 2]]).
    inverse_by_evaluation. }
  assert (Hnew : invertible 2 (delete_row_col 1 full_tridiagonal)).
  { exists (mat_of_list [[1 / 2; 0]; [0; 1 / 2]]). inverse_by_evaluation. }
  assert (Hsub : mat_eq 2 2 sub_tridiagonal
                   (delete_row_col (1 - 1) full_tridiagonal)).
  { two_by_two; reflexivity. }
  assert (Hinv : is_inverse 2 sub_tridiagonal sub_inv_tridiagonal)
    by inverse_by_evaluation.
  split; [exact Hinv|].
  exact (proj2 (update_submatrix_keeps_symmetry 2 full_tridiagonal
                  sub_tridiagonal sub_inv_tridiagonal 1
                  ltac:(lia) ltac:(lia) full_tridiagonal_symmetric
                  Hsub Hinv Hmid Hnew)).
Defined.

Lemma newton_starts_below_root_witness :
  quad_trust_region 1 0 (fun _ => 1) (fun _ => 1 / 2)
    (fun k => coordinate_c 2 (fun _ => 1) 0 0 state_correlated k
              * coordinate_c 2 (fun _ => 1) 0 0 state_correlated k)
    (0 ^ 2) < 0.
Proof.
  exact (proj2 (newton_starts_below_root 2 1 (fun _ => 1) 0 0 0
                  state_correlated (fun _ => 1) (fun _ => 1 / 2)
                  (Rle_refl 0)
                  (state_correlated_above_threshold 0 ltac:(lra)))).
Defined.

(** For [state_correlated] and [rho = 1/4] the root of the equation
    is 1. *)
Lemma root_fixes_group_norm_witness :
  exists st',
    coordinate_step (newton_found 1) 2 1 (fun _ => 1) (1 / 4) false 0 0
      state_correlated = inr st'
    /\ rsum 1 (fun k => y st' k 0%nat ^ 2) = 1 ^ 2 * (1 / 4) ^ 2.
Proof.
  destruct (coordinate_step_returns (newton_found 1) 2 1 (fun _ => 1)
              (1 / 4) false 0 0 state_correlated (newton_found_returns 1)
              eq_refl) as [st' H].
  exists st'. split; [exact H|].
  destruct (root_fixes_group_norm (newton_found 1) 2 1 (fun _ => 1) (1 / 4)
              false 0 0 state_correlated st'
              (state_correlated_above_threshold (1 / 4) ltac:(lra)) H)
    as [alpha [Hfound Hroot]].
  injection Hfound as <-. apply Hroot.
  unfold quad_trust_region, coordinate_c.
  cbn [rsum Nat.sub emp_covs u Winv state_correlated Nat.eqb]. field.
Defined.

Lemma pivot_update_touches_pivot_only_witness :
  exists st',
    pivot_update inv_diagonal (newton_found 1) logdet_diagonal
      positive_diagonal equal_cells 2 1 (fun _ => 1) (1 / 4) 0%Z false false
      0 state_correlated
    = inr st'
    /\ omega st' 1%nat 1%nat 0%nat = omega state_correlated 1%nat 1%nat 0%nat.
Proof.
  destruct (pivot_update_returns inv_diagonal (newton_found 1)
              logdet_diagonal positive_diagonal equal_cells 2 1 (fun _ => 1)
              (1 / 4) 0%Z false false 0 state_correlated
              inv_diagonal_returns (newton_found_returns 1) eq_refl)
    as [st' H'].
  exists st'. split; [exact H'|].
  apply (pivot_update_touches_pivot_only inv_diagonal (newton_found 1)
           logdet_diagonal positive_diagonal equal_cells 2 1 (fun _ => 1)
           (1 / 4) 0%Z false false 0 state_correlated st' H'); lia.
Defined.

Lemma extract_copy_back_round_trip_witness :
  exists st0,
    pivot_enter inv_diagonal positive_diagonal equal_cells 2 2 0%Z false 0
      state_two_tasks = inr st0
    /\ y st0 0%nat 0%nat = 3 / 10
    /\ forall i j, (i < 2)%nat -> (j < 2)%nat ->
         copy_back 0 (y st0) (omega st0) i j 0%nat
         = omega state_two_tasks i j 0%nat.
Proof.
  destruct (pivot_enter_returns inv_diagonal positive_diagonal equal_cells
              2 2 0%Z false 0 state_two_tasks inv_diagonal_returns eq_refl)
    as [st0 H0].
  exists st0. split; [exact H0|]. split.
  - destruct (pivot_enter_frame _ _ _ _ _ _ _ _ _ _ H0)
      as (_ & _ & _ & _ & Hy & _).
    rewrite Hy. reflexivity.
  - apply (extract_copy_back_round_trip inv_diagonal positive_diagonal
             equal_cells 2 2 0%Z false 0 state_two_tasks st0 0 H0
             (state_two_tasks_symmetric 0)); lia.
Defined.

Lemma fully_thresholded_pivot_witness :
  omega state_two_tasks 1%nat 0%nat 0%nat = 3 / 10
  /\ exists st',
       pivot_update inv_diagonal (newton_found 1) logdet_diagonal
         positive_diagonal equal_cells 2 2 (fun _ => 1) 1 0%Z false false 0
         state_two_tasks
       = inr st'
       /\ omega st' 1%nat 0%nat 0%nat = 0
       /\ omega st' 0%nat 0%nat 0%nat
          = 1 / emp_covs state_two_tasks 0%nat 0%nat 0%nat.
Proof.
  split; [reflexivity|].
  destruct (pivot_enter_returns inv_diagonal positive_diagonal equal_cells
              2 2 0%Z false 0 state_two_tasks inv_diagonal_returns eq_refl)
    as [st0 H0].
  destruct (pivot_update_returns inv_diagonal (newton_found 1)
              logdet_diagonal positive_diagonal equal_cells 2 2 (fun _ => 1)
              1 0%Z false false 0 state_two_tasks inv_diagonal_returns
              (newton_found_returns 1) eq_refl) as [st' H'].
  exists st'. split; [exact H'|].
  assert (Hall : forall m stm, (m < 2 - 1)%nat ->
            for_range m (coordinate_step (newton_found 1) 2 2 (fun _ => 1) 1
                           false 0) st0 = inr stm ->
            coordinate_c2 2 2 (fun _ => 1) 0 m stm <= 1).
  { intros m stm Hm Hstm. destruct m as [|m]; [|lia].
    simpl in Hstm. injection Hstm as <-.
    exact (state_two_tasks_thresholded st0 H0). }
  destruct (fully_thresholded_pivot inv_diagonal (newton_found 1)
              logdet_diagonal positive_diagonal equal_cells 2 2
              (fun _ => 1) 1 0%Z false false 0 state_two_tasks st0 st'
              H0 Hall H' 0%nat) as [Hoff Hdiag].
  split.
  - exact (proj1 (Hoff 0%nat ltac:(simpl; lia))).
  - apply Hdiag. lia.
Defined.

Lemma submatrix_tracks_pivot_witness :
  exists st',
    for_range 2
      (pivot_update inv_diagonal (newton_found 1) logdet_diagonal
         positive_diagonal equal_cells 2 1 (fun _ => 1) 0 0%Z false false)
      state_identity = inr st'
    /\ mat_eq 1 1 (task (W st') 0)
              (delete_row_col 1 (task (omega st') 0)).
Proof.
  destruct (for_range_returns 2
              (pivot_update inv_diagonal (newton_found 1) logdet_diagonal
                 positive_diagonal equal_cells 2 1 (fun _ => 1) 0 0%Z false
                 false)
              state_identity
              (fun i t _ =>
                 pivot_update_returns inv_diagonal (newton_found 1)
                   logdet_diagonal positive_diagonal equal_cells 2 1
                   (fun _ => 1) 0 0%Z false false i t inv_diagonal_returns
                   (newton_found_returns 1) eq_refl))
    as [st' H'].
  exists st'. split; [exact H'|].
  apply (submatrix_tracks_pivot inv_diagonal (newton_found 1) logdet_diagonal
           positive_diagonal equal_cells 2 1 (fun _ => 1) 0 0%Z false false
           2 state_identity st' ltac:(lia) H' 0%nat ltac:(lia)).
Defined.

(** At pivot 1 of [state_correlated] with [rho = 1/4], [c = -1/2] and
    [q = 1] again: the root of the equation is 1. *)
Lemma inverse_maintained_at_pivot_witness :
  exists st',
    pivot_update inv_diagonal (newton_found 1) logdet_diagonal
      positive_diagonal equal_cells 2 1 (fun _ => 1) (1 / 4) 0%Z false false
      1 state_correlated
    = inr st'
    /\ mat_eq 1 1 (task (W st') 0) (delete_row_col 1 (task (omega st') 0))
    /\ is_inverse 1 (task (W st') 0) (task (Winv st') 0).
Proof.
  destruct (pivot_update_returns inv_diagonal (newton_found 1)
              logdet_diagonal positive_diagonal equal_cells 2 1 (fun _ => 1)
              (1 / 4) 0%Z false false 1 state_correlated
              inv_diagonal_returns (newton_found_returns 1) eq_refl)
    as [st' H'].
  exists st'. split; [exact H'|].
  assert (Hone : is_inverse 1 (fun _ _ => 1) (fun _ _ => 1)).
  { split; intros i j Hi Hj; destruct i; destruct j; try lia;
      cbv [dot_mm rsum eye Nat.eqb]; lra. }
  apply (proj1 (inverse_maintained_at_pivot inv_diagonal (newton_found 1)
                  logdet_diagonal positive_diagonal equal_cells 2 1
                  (fun _ => 1) (1 / 4) 0%Z false false 1 state_correlated
                  st' 0 H' ltac:(lia)));
    try (simpl; lia).
  - intros i j Hi Hj. destruct i; destruct j; try (simpl in *; lia).
    reflexivity.
  - exact Hone.
  - exists (fun _ _ => 1). revert Hone. apply is_inverse_ext.
    + intros i j Hi Hj. destruct i; destruct j; try (simpl in *; lia).
      reflexivity.
    + intros i j _ _. reflexivity.
  - exists (fun _ _ => 1). revert Hone. apply is_inverse_ext.
    + intros i j Hi Hj. destruct i; destruct j; try (simpl in *; lia).
      reflexivity.
    + intros i j _ _. reflexivity.
Defined.

Lemma warnings_bounded_witness :
  exists out,
    group_sparse_covariance uncentered_covariance inv_diagonal
      (newton_found 1) logdet_diagonal positive_diagonal equal_cells
      (Iterable signals_two_tasks) (PyFloat (1 / 2)) 3 false 2 true false
    = inr out
    /\ (count_warn (out_log out) <= 6)%nat.
Proof.
  destruct (group_sparse_covariance_returns uncentered_covariance
              inv_diagonal (newton_found 1) logdet_diagonal positive_diagonal
              equal_cells
              (mk_ndarray2 2 2 (mat_of_list [[1; 0]; [0; 1]]))
              [mk_ndarray2 3 2 (mat_of_list [[1; 1]; [1; -1]; [0; 2]])]
              (PyFloat (1 / 2)) 3 false 2%Z true
              inv_diagonal_returns (newton_found_returns 1)
              rho_half_accepted signals_two_tasks_same_features
              ltac:(simpl; lia)) as [out Hrun].
  exists out. split; [exact Hrun|].
  destruct (warnings_bounded uncentered_covariance inv_diagonal
              (newton_found 1) logdet_diagonal positive_diagonal equal_cells
              _ _ _ _ _ _ _ out Hrun) as (s & l & Hs & Hbound).
  injection Hs as <- <-. exact Hbound.
Defined.

Lemma degenerate_inputs_raise_witness :
  group_sparse_covariance uncentered_covariance inv_diagonal newton_raphson
    logdet_diagonal positive_diagonal equal_cells
    (Iterable []) (PyInt 0) 5 false 0 false false
  = inl (IndexError "list index out of range").
Proof.
  exact (proj1 (degenerate_inputs_raise uncentered_covariance inv_diagonal
                  newton_raphson logdet_diagonal positive_diagonal
                  equal_cells (PyInt 0) 5 false 0%Z false false
                  rho_zero_accepted)).
Defined.

Lemma zero_iterations_witness :
  exists out,
    group_sparse_covariance uncentered_covariance inv_diagonal
      (newton_found 1) logdet_diagonal positive_diagonal equal_cells
      (Iterable signals_two_tasks) (PyFloat (1 / 2)) 0 false 2 true false
    = inr out
    /\ out_costs out = Some [] /\ out_log out = [].
Proof.
  destruct (group_sparse_covariance_returns uncentered_covariance
              inv_diagonal (newton_found 1) logdet_diagonal positive_diagonal
              equal_cells
              (mk_ndarray2 2 2 (mat_of_list [[1; 0]; [0; 1]]))
              [mk_ndarray2 3 2 (mat_of_list [[1; 1]; [1; -1]; [0; 2]])]
              (PyFloat (1 / 2)) 0 false 2%Z true
              inv_diagonal_returns (newton_found_returns 1)
              rho_half_accepted signals_two_tasks_same_features
              ltac:(simpl; lia)) as [out Hrun].
  exists out. split; [exact Hrun|].
  destruct (zero_iterations uncentered_covariance inv_diagonal
              (newton_found 1) logdet_diagonal positive_diagonal equal_cells
              _ _ _ _ _ _ out Hrun) as (s & l & _ & _ & Hc & Hl).
  split; assumption.
Defined.

Lemma final_cost_is_cost_of_result_witness :
  exists out,
    group_sparse_covariance uncentered_covariance inv_diagonal
      (newton_found 1) logdet_diagonal positive_diagonal equal_cells
      (Iterable signals_two_tasks) (PyFloat (1 / 2)) 3 false 2 true false
    = inr out
    /\ exists trace,
         out_costs out = Some trace
         /\ last trace 0
            = fst (_group_sparse_covariance_cost logdet_diagonal 2 2
                     (sample_weights signals_two_tasks) (1 / 2)
                     (out_omega out) (out_emp_covs out) false).
Proof.
  destruct (group_sparse_covariance_returns uncentered_covariance
              inv_diagonal (newton_found 1) logdet_diagonal positive_diagonal
              equal_cells
              (mk_ndarray2 2 2 (mat_of_list [[1; 0]; [0; 1]]))
              [mk_ndarray2 3 2 (mat_of_list [[1; 1]; [1; -1]; [0; 2]])]
              (PyFloat (1 / 2)) 3 false 2%Z true
              inv_diagonal_returns (newton_found_returns 1)
              rho_half_accepted signals_two_tasks_same_features
              ltac:(simpl; lia)) as [out Hrun].
  exists out. split; [exact Hrun|].
  destruct (final_cost_is_cost_of_result uncentered_covariance inv_diagonal
              (newton_found 1) logdet_diagonal positive_diagonal equal_cells
              _ _ 3%nat _ _ _ out ltac:(lia) Hrun)
    as (r & s & l & trace & Hr & Hs & Hc & Hlast).
  injection Hr as <-. injection Hs as <- <-.
  exists trace. split; [exact Hc|exact Hlast].
Defined.

(** Checks that always pass, on the two uncorrelated tasks, in debug
    mode. *)
Lemma debug_run_certifies_result_witness :
  exists out,
    group_sparse_covariance uncentered_covariance inv_diagonal newton_raphson
      logdet_diagonal (fun _ _ _ => true) (fun _ _ _ => true)
      (Iterable signals_two_tasks) (PyFloat (1 / 2)) 1 false 0 false true
    = inr out
    /\ forall k, (k < 2)%nat ->
         exists M : mat,
           (forall i j, M i j = out_omega out i j k)
           /\ (fun _ _ _ => true) 2%nat M (@None nat) = true.
Proof.
  destruct (uncorrelated_run_returns uncentered_covariance inv_diagonal
              newton_raphson logdet_diagonal (fun _ _ _ => true)
              (fun _ _ _ => true) (fun _ _ _ => eq_refl)
              (fun _ _ _ => eq_refl) inv_diagonal_returns
              (mk_ndarray2 2 2 (mat_of_list [[1; 0]; [0; 1]]))
              [mk_ndarray2 3 2 (mat_of_list [[1; 1]; [1; -1]; [0; 2]])]
              (PyFloat (1 / 2)) 1 false 0%Z false true
              rho_half_accepted signals_two_tasks_same_features
              ltac:(simpl; lia)
              (signals_two_tasks_uncorrelated false)) as [out Hrun].
  exists out. split; [exact Hrun|].
  destruct (debug_run_certifies_result uncentered_covariance inv_diagonal
              newton_raphson logdet_diagonal (fun _ _ _ => true)
              (fun _ _ _ => true) _ _ 1%nat _ _ _ out Hrun)
    as (s & l & Hs & Hchk).
  injection Hs as <- <-. intros k Hk.
  exact (proj2 (Hchk k Hk) ltac:(lia)).
Defined.

Lemma uncorrelated_inputs_stay_diagonal_witness :
  exists out,
    group_sparse_covariance uncentered_covariance inv_diagonal
      (newton_found 1) logdet_diagonal positive_diagonal equal_cells
      (Iterable signals_two_tasks) (PyFloat (1 / 2)) 3 false 2 true false
    = inr out
    /\ (forall i j k, (i < 2)%nat -> (j < 2)%nat -> (k < 2)%nat ->
          out_omega out i j k
          = if Nat.eqb i j then 1 / out_emp_covs out i i k else 0)
    /\ count_warn (out_log out) = 0%nat.
Proof.
  destruct (group_sparse_covariance_returns uncentered_covariance
              inv_diagonal (newton_found 1) logdet_diagonal positive_diagonal
              equal_cells
              (mk_ndarray2 2 2 (mat_of_list [[1; 0]; [0; 1]]))
              [mk_ndarray2 3 2 (mat_of_list [[1; 1]; [1; -1]; [0; 2]])]
              (PyFloat (1 / 2)) 3 false 2%Z true
              inv_diagonal_returns (newton_found_returns 1)
              rho_half_accepted signals_two_tasks_same_features
              ltac:(simpl; lia)) as [out Hrun].
  exists out. split; [exact Hrun|].
  destruct (uncorrelated_inputs_stay_diagonal uncentered_covariance
              inv_diagonal (newton_found 1) logdet_diagonal positive_diagonal
              equal_cells _ _ _ _ _ _ _ out Hrun) as (s & l & Hs & Hdiag).
  injection Hs as <- <-. apply Hdiag.
  intros i j k Hi Hj Hk Hij.
  rewrite (returned_emp_covs _ _ _ _ _ _ _ _ _ _ _ _ _ _ _ Hrun k Hk).
  now apply signals_two_tasks_uncorrelated.
Defined.

Lemma exceptions_classified_witness :
  group_sparse_covariance uncentered_covariance inv_diagonal newton_raphson
    logdet_diagonal positive_diagonal equal_cells
    (Iterable signals_correlated) (PyInt 0) 1 true 0 false false
  = inl RuntimeError
  /\ library_error inv_diagonal newton_raphson RuntimeError
  /\ exists s l,
       Iterable signals_correlated = Iterable (s :: l)
       /\ (2 <= shape1 s)%nat.
Proof.
  pose proof (correlated_run_raises 0 0%Z false) as Hrun.
  split; [exact Hrun|].
  destruct (exceptions_classified uncentered_covariance inv_diagonal
              newton_raphson logdet_diagonal positive_diagonal equal_cells
              _ _ _ _ _ _ _ _ Hrun)
    as [[Hv|[Hv|Hv]]|[[He _]|[[He _]|[Hlib|[_ He]]]]]; try discriminate.
  exact Hlib.
Defined.

Lemma debug_only_checks_witness :
  exists out,
    group_sparse_covariance uncentered_covariance inv_diagonal newton_raphson
      logdet_diagonal (fun _ _ _ => true) (fun _ _ _ => true)
      (Iterable signals_two_tasks) (PyFloat (1 / 2)) 1 false 0 false true
    = inr out
    /\ group_sparse_covariance uncentered_covariance inv_diagonal
         newton_raphson logdet_diagonal (fun _ _ _ => true)
         (fun _ _ _ => true)
         (Iterable signals_two_tasks) (PyFloat (1 / 2)) 1 false 0 false false
       = inr out.
Proof.
  destruct (uncorrelated_run_returns uncentered_covariance inv_diagonal
              newton_raphson logdet_diagonal (fun _ _ _ => true)
              (fun _ _ _ => true) (fun _ _ _ => eq_refl)
              (fun _ _ _ => eq_refl) inv_diagonal_returns
              (mk_ndarray2 2 2 (mat_of_list [[1; 0]; [0; 1]]))
              [mk_ndarray2 3 2 (mat_of_list [[1; 1]; [1; -1]; [0; 2]])]
              (PyFloat (1 / 2)) 1 false 0%Z false true
              rho_half_accepted signals_two_tasks_same_features
              ltac:(simpl; lia)
              (signals_two_tasks_uncorrelated false)) as [out Hrun].
  exists out. split; [exact Hrun|].
  exact (debug_only_checks uncentered_covariance inv_diagonal newton_raphson
           logdet_diagonal (fun _ _ _ => true) (fun _ _ _ => true)
           _ _ _ _ _ _ out Hrun).
Defined.
